(** * BlazeCSV: a shallow embedding of [blazecsv.hpp]

    The header-only parser is embedded function by function.

    - Memory is a list of bytes ([ascii]); a [const char*] into the mapping
      is the offset of the byte it points at, so pointer arithmetic and
      pointer comparisons of the source become arithmetic on [nat].  A read
      outside the mapping, undefined in the source, yields the zero byte;
      the properties that depend on what is read are stated for ranges
      inside the mapping.
    - Template parameters ([Columns], [Delim], the error policy, the null
      policy) and the scanner body the preprocessor selects are explicit
      arguments.
    - A [while] loop whose number of iterations depends on the data takes
      fuel and returns [None] when it runs out; the entry points pass the
      number of bytes left, and are proved to return.  Counted [for] loops
      recurse on the number of iterations left.
    - The user's callback is a function on a user state; a callback that
      appends to a log records what it is handed.
    - [std::from_chars] and [std::chrono::year_month_day] belong to the C++
      standard library, not to the repository; they are embedded after the
      C++ standard. *)

From Stdlib Require Import Ascii String List Arith ZArith Lia Bool Permutation.
Import ListNotations.

Set Implicit Arguments.

(** ** Bytes and memory *)

Definition mem := list ascii.

Definition LF : ascii := "010"%char.
Definition CR : ascii := "013"%char.

(** [*p] for a pointer [p] into the mapping. *)
Definition byte_at (m : mem) (p : nat) : ascii := nth p m zero.

(** The bytes of the half-open range [[b, e)]. *)
Definition slice (m : mem) (b e : nat) : list ascii := firstn (e - b) (skipn b m).

Definition str (s : string) : list ascii := list_ascii_of_string s.

(** [std::memcmp(p, lit, n) == 0] with [n] the length of the literal. *)
Fixpoint memcmp_eq (m : mem) (p : nat) (lit : list ascii) : bool :=
  match lit with
  | [] => true
  | c :: lit' => Ascii.eqb (byte_at m p) c && memcmp_eq m (S p) lit'
  end.

(** ** Error handling *)

Inductive ErrorCode :=
| Ok | InvalidInteger | InvalidFloat | InvalidBool | InvalidDate
| InvalidDateTime | NullValue | OutOfRange | ColumnCountMismatch
| EndOfFile | FileOpenError.

Record ErrorInfo := { code : ErrorCode; line : Z; column : Z }.

Definition ErrorInfo_default : ErrorInfo := {| code := Ok; line := 0; column := 0 |}.

Record ErrorPolicy := { enabled : bool; track_line : bool; track_column : bool }.

Definition NoErrorCheck := {| enabled := false; track_line := false; track_column := false |}.
Definition ErrorCheckBasic := {| enabled := true; track_line := true; track_column := false |}.
Definition ErrorCheckFull := {| enabled := true; track_line := true; track_column := true |}.

(** ** Null value detection *)

Record NullPolicy := {
  empty_is_null : bool;
  na_is_null : bool;
  null_is_null : bool;
  none_is_null : bool;
  dash_is_null : bool
}.

Module NullPolicy.

(** [NullPolicy<...>::check(begin, end)]: the five [if constexpr] blocks in
    source order; a block that does not return falls through to the next. *)
Definition check (P : NullPolicy) (m : mem) (begin end_ : nat) : bool :=
  let len := end_ - begin in
  if empty_is_null P && (len =? 0) then true
  else if null_is_null P && (len =? 4) && memcmp_eq m begin (str "null") then true
  else if null_is_null P && (len =? 4) && memcmp_eq m begin (str "NULL") then true
  else if none_is_null P && (len =? 4) && memcmp_eq m begin (str "None") then true
  else if none_is_null P && (len =? 4) && memcmp_eq m begin (str "none") then true
  else if none_is_null P && (len =? 4) && memcmp_eq m begin (str "NONE") then true
  else if na_is_null P && (len =? 2) && memcmp_eq m begin (str "NA") then true
  else if na_is_null P && (len =? 3) && memcmp_eq m begin (str "N/A") then true
  else if na_is_null P && (len =? 3) && memcmp_eq m begin (str "n/a") then true
  else if dash_is_null P && (len =? 1) && Ascii.eqb (byte_at m begin) "-" then true
  else false.

End NullPolicy.

(** [NullPolicy<EmptyIsNull, NAIsNull, NullIsNull, NoneIsNull, DashIsNull>]:
    the template's argument order. *)
Definition mkNullPolicy (e na nu no d : bool) : NullPolicy :=
  {| empty_is_null := e; na_is_null := na; null_is_null := nu;
     none_is_null := no; dash_is_null := d |}.

Definition NullStrict := mkNullPolicy true false false false false.
Definition NullStandard := mkNullPolicy true true true false false.
Definition NullLenient := mkNullPolicy true true true true true.
Definition NoNullCheck := mkNullPolicy false false false false false.

(** The vocabulary of the specification, selected by the toggles of [P]. *)
Definition vocabulary (P : NullPolicy) : list (list ascii) :=
  (if empty_is_null P then [str ""] else []) ++
  (if na_is_null P then [str "NA"; str "N/A"; str "n/a"] else []) ++
  (if null_is_null P then [str "null"; str "NULL"] else []) ++
  (if none_is_null P then [str "None"; str "none"; str "NONE"] else []) ++
  (if dash_is_null P then [str "-"] else []).

(** ** SIMD utilities *)

(** The preprocessor selects one of three bodies for the scanners. *)
Inductive Simd := NEON | SSE2 | Scalar.

(** A byte as the unsigned value of a vector lane. *)
Definition u8 (c : ascii) : Z := Z.of_nat (nat_of_ascii c).

(** A 128-bit vector: sixteen unsigned byte lanes, lane 0 first. *)
Definition vec128 := list Z.

Definition lanewise (f : Z -> Z -> Z) (a b : vec128) : vec128 :=
  map (fun xy => f (fst xy) (snd xy)) (combine a b).

(** [vld1q_u8] / [_mm_loadu_si128]: sixteen bytes starting at [p]. *)
Definition load128 (m : mem) (p : nat) : vec128 :=
  map (fun j => u8 (byte_at m (p + j))) (seq 0 16).

(** [vdupq_n_u8] / [_mm_set1_epi8]. *)
Definition set1 (c : ascii) : vec128 := repeat (u8 c) 16.

(** [vceqq_u8] / [_mm_cmpeq_epi8]: a lane is 0xFF where equal, 0 elsewhere. *)
Definition cmpeq (a b : vec128) : vec128 :=
  lanewise (fun x y => if Z.eqb x y then 255 else 0)%Z a b.

(** [vorrq_u8] / [_mm_or_si128]. *)
Definition vor (a b : vec128) : vec128 := lanewise Z.lor a b.

(** [_mm_movemask_epi8]: bit [j] of the result is the top bit of lane [j]. *)
Definition movemask_epi8 (v : vec128) : Z :=
  fold_right (fun lane acc => Z.b2z (Z.testbit lane 7) + 2 * acc)%Z 0%Z v.

(** [vgetq_lane_u64(vreinterpretq_u64_u8(v), k)]: eight lanes, little endian. *)
Definition vgetq_lane_u64 (v : vec128) (k : nat) : Z :=
  fold_right (fun lane acc => lane + 256 * acc)%Z 0%Z (firstn 8 (skipn (8 * k) v)).

Fixpoint ctz_bits (n : nat) (mask : Z) : nat :=
  match n with
  | O => 0
  | S n' => if Z.odd mask then 0 else S (ctz_bits n' (Z.div2 mask))
  end.

(** [blazecsv_ctz]: the number of trailing zero bits of a 32-bit mask (the
    intrinsic is undefined on 0; it is only called on a non-zero mask). *)
Definition blazecsv_ctz (mask : Z) : nat := ctz_bits 32 mask.

Module detail.

Section Scan.
Variable m : mem.
Variable data : nat.
Variable len : nat.
(** The terminator test of the loop at hand. *)
Variable stop : ascii -> bool.
(** The comparison vector of one 16-byte block. *)
Variable cmp : vec128 -> vec128.

(** [for (; i < len; ++i) if (stop data[i]) return i;  return len;]
    with [n] the iterations left. *)
Fixpoint scalar_loop (n i : nat) : nat :=
  match n with
  | O => len
  | S n' => if stop (byte_at m (data + i)) then i else scalar_loop n' (S i)
  end.

(** [for (size_t j = 0; j < 16; ++j) if (stop data[i + j]) return i + j;]
    [None] when the loop falls through. *)
Fixpoint neon_first (n i j : nat) : option nat :=
  match n with
  | O => None
  | S n' => if stop (byte_at m (data + (i + j))) then Some (i + j)
            else neon_first n' i (S j)
  end.

(** [for (; i + 16 <= len; i += 16) {...}] followed by the remainder loop;
    [n] bounds the iterations left (at most [len / 16] from [i = 0]). *)
Fixpoint neon_blocks (n i : nat) : nat :=
  match n with
  | O => scalar_loop (len - i) i
  | S n' =>
      if i + 16 <=? len then
        let c := cmp (load128 m (data + i)) in
        if negb (Z.eqb (Z.lor (vgetq_lane_u64 c 0) (vgetq_lane_u64 c 1)) 0) then
          match neon_first 16 i 0 with
          | Some r => r
          | None => neon_blocks n' (i + 16)
          end
        else neon_blocks n' (i + 16)
      else scalar_loop (len - i) i
  end.

Fixpoint sse2_blocks (n i : nat) : nat :=
  match n with
  | O => scalar_loop (len - i) i
  | S n' =>
      if i + 16 <=? len then
        let mask := movemask_epi8 (cmp (load128 m (data + i))) in
        if negb (Z.eqb mask 0) then i + blazecsv_ctz mask
        else sse2_blocks n' (i + 16)
      else scalar_loop (len - i) i
  end.

Definition scan (arch : Simd) : nat :=
  match arch with
  | NEON => if 16 <=? len then neon_blocks (len / 16) 0 else scalar_loop len 0
  | SSE2 => if 16 <=? len then sse2_blocks (len / 16) 0 else scalar_loop len 0
  | Scalar => scalar_loop len 0
  end.
End Scan.

(** [c == delim || c == '\n' || c == '\r'] *)
Definition is_field_end (delim c : ascii) : bool :=
  Ascii.eqb c delim || Ascii.eqb c LF || Ascii.eqb c CR.

Definition is_newline (c : ascii) : bool := Ascii.eqb c LF.

(** [find_field_end(data, len, delim)] *)
Definition find_field_end (arch : Simd) (m : mem) (data len : nat) (delim : ascii) : nat :=
  scan m data len (is_field_end delim)
       (fun chunk => vor (vor (cmpeq chunk (set1 delim)) (cmpeq chunk (set1 LF)))
                         (cmpeq chunk (set1 CR)))
       arch.

(** [find_newline(data, len)] *)
Definition find_newline (arch : Simd) (m : mem) (data len : nat) : nat :=
  scan m data len is_newline (fun chunk => cmpeq chunk (set1 LF)) arch.

End detail.

(** ** The standard library pieces the field parsers rely on *)

Inductive errc := errc_ok | invalid_argument | result_out_of_range.

(** An integral target type: its signedness and its width in bits. *)
Record IntType := { int_signed : bool; int_bits : nat }.

Definition int_min (T : IntType) : Z :=
  if int_signed T then - 2 ^ (Z.of_nat (int_bits T) - 1) else 0.
Definition int_max (T : IntType) : Z :=
  if int_signed T then 2 ^ (Z.of_nat (int_bits T) - 1) - 1 else 2 ^ Z.of_nat (int_bits T) - 1.

Definition int32_t := {| int_signed := true; int_bits := 32 |}.
Definition int64_t := {| int_signed := true; int_bits := 64 |}.
Definition uint8_t := {| int_signed := false; int_bits := 8 |}.
Definition uint32_t := {| int_signed := false; int_bits := 32 |}.

Definition is_digit (c : ascii) : bool :=
  (48 <=? nat_of_ascii c) && (nat_of_ascii c <=? 57).

Definition digit_val (c : ascii) : Z := u8 c - 48.

(** The longest run of decimal digits in [[p, p + n)]: where it stops and
    the number it denotes, accumulated from [acc]. *)
Fixpoint digits_run (m : mem) (n p : nat) (acc : Z) : nat * Z :=
  match n with
  | O => (p, acc)
  | S n' =>
      let c := byte_at m p in
      if is_digit c then digits_run m n' (S p) (acc * 10 + digit_val c) else (p, acc)
  end.

(** [std::from_chars(first, last, value)] in base 10 is library code, not
    part of the repository; this follows the C++ standard
    ([charconv.from.chars]): no leading whitespace, no ['+'], a ['-'] only
    for a signed type, then the longest run of digits.  Without a match the
    result is [(first, invalid_argument)] and [value] is untouched; a match
    whose number is not representable gives [result_out_of_range], [value]
    untouched, and the pointer past the run.  The result is
    [(ptr, ec, value)]. *)
Definition from_chars (T : IntType) (m : mem) (first last : nat) (value : Z)
  : nat * errc * Z :=
  let neg := int_signed T && (first <? last) && Ascii.eqb (byte_at m first) "-" in
  let start := if neg then S first else first in
  let '(p, v) := digits_run m (last - start) start 0 in
  if p =? start then (first, invalid_argument, value)
  else
    let v := if neg then (- v)%Z else v in
    if ((int_min T <=? v) && (v <=? int_max T))%Z then (p, errc_ok, v)
    else (p, result_out_of_range, value).

(** [std::chrono::year_month_day], as the three stored members: [year]
    keeps a [short], [month] and [day] an [unsigned char]. *)
Record year_month_day := { ymd_year : Z; ymd_month : Z; ymd_day : Z }.

Definition to_short (z : Z) : Z := ((z + 32768) mod 65536 - 32768)%Z.
Definition to_unsigned (z : Z) : Z := (z mod 2 ^ 32)%Z.
Definition to_uchar (z : Z) : Z := (z mod 256)%Z.

(** [year{y} / month{m} / day{d}] *)
Definition make_ymd (y : Z) (mo d : Z) : year_month_day :=
  {| ymd_year := to_short y; ymd_month := to_uchar mo; ymd_day := to_uchar d |}.

Definition is_leap (y : Z) : bool :=
  ((y mod 4 =? 0) && (negb (y mod 100 =? 0) || (y mod 400 =? 0)))%Z.

Definition last_day_of_month (y mo : Z) : Z :=
  (if mo =? 2 then (if is_leap y then 29 else 28)
   else if (mo =? 4) || (mo =? 6) || (mo =? 9) || (mo =? 11) then 30
   else 31)%Z.

(** [year_month_day::ok()], following [time.cal.ymd.members]. *)
Definition ymd_ok (d : year_month_day) : bool :=
  ((-32767 <=? ymd_year d) && (ymd_year d <=? 32767) &&
   (1 <=? ymd_month d) && (ymd_month d <=? 12) &&
   (1 <=? ymd_day d) && (ymd_day d <=? 31) &&
   (ymd_day d <=? last_day_of_month (ymd_year d) (ymd_month d)))%Z.

(** [std::expected<T, ErrorCode>] *)
Inductive expected (A : Type) :=
| value (a : A)
| unexpected (e : ErrorCode).
Arguments unexpected {A} e.

(** ** Field reference *)

Record FieldRef := { begin_ : nat; end_ : nat }.

Module Field.

Definition size (f : FieldRef) : nat := end_ f - begin_ f.
Definition empty (f : FieldRef) : bool := begin_ f =? end_ f.
Definition view (m : mem) (f : FieldRef) : list ascii := slice m (begin_ f) (end_ f).

(** [is_null<NullPol>()] *)
Definition is_null (P : NullPolicy) (m : mem) (f : FieldRef) : bool :=
  NullPolicy.check P m (begin_ f) (end_ f).

(** [parse<T>()] for an integral [T] other than [bool] *)
Definition parse (T : IntType) (m : mem) (f : FieldRef) : expected Z :=
  let '(ptr, ec, v) := from_chars T m (begin_ f) (end_ f) 0 in
  match ec with
  | errc_ok => if ptr =? end_ f then value v else unexpected InvalidInteger
  | result_out_of_range => unexpected OutOfRange
  | invalid_argument => unexpected InvalidInteger
  end.

(** [parse_date()] *)
Definition parse_date (m : mem) (f : FieldRef) : expected year_month_day :=
  if size f <? 10 then unexpected InvalidDate
  else
    let b := begin_ f in
    let '(_, e1, year) := from_chars int32_t m b (b + 4) 0 in
    if match e1 with errc_ok => false | _ => true end
       || negb (Ascii.eqb (byte_at m (b + 4)) "-")
    then unexpected InvalidDate
    else
      let '(_, e2, month) := from_chars int32_t m (b + 5) (b + 7) 0 in
      if match e2 with errc_ok => false | _ => true end
         || negb (Ascii.eqb (byte_at m (b + 7)) "-")
      then unexpected InvalidDate
      else
        let '(_, e3, day) := from_chars int32_t m (b + 8) (b + 10) 0 in
        if match e3 with errc_ok => false | _ => true end
        then unexpected InvalidDate
        else
          let ymd := make_ymd year (to_unsigned month) (to_unsigned day) in
          if negb (ymd_ok ymd) then unexpected InvalidDate else value ymd.

(** [parse<bool>()] *)
Definition parse_bool (m : mem) (f : FieldRef) : expected bool :=
  let len := size f in
  let b := begin_ f in
  if len =? 0 then unexpected InvalidBool
  else
    let c := byte_at m b in
    if (len =? 1)
       && (Ascii.eqb c "1" || Ascii.eqb c "t" || Ascii.eqb c "T"
           || Ascii.eqb c "y" || Ascii.eqb c "Y")
    then value true
    else if (len =? 1)
            && (Ascii.eqb c "0" || Ascii.eqb c "f" || Ascii.eqb c "F"
                || Ascii.eqb c "n" || Ascii.eqb c "N")
    then value false
    else if (len =? 4)
            && (memcmp_eq m b (str "true") || memcmp_eq m b (str "True")
                || memcmp_eq m b (str "TRUE"))
    then value true
    else if (len =? 5)
            && (memcmp_eq m b (str "false") || memcmp_eq m b (str "False")
                || memcmp_eq m b (str "FALSE"))
    then value false
    else if (len =? 3)
            && (memcmp_eq m b (str "yes") || memcmp_eq m b (str "Yes")
                || memcmp_eq m b (str "YES"))
    then value true
    else if (len =? 2)
            && (memcmp_eq m b (str "no") || memcmp_eq m b (str "No")
                || memcmp_eq m b (str "NO"))
    then value false
    else unexpected InvalidBool.





(** What [parse_double_fast] leaves in [x]: the sign, the integer part as
    the [uint64_t] it is accumulated in, and the digits read after the
    point ([None] without a point).  [x] is
    [static_cast<T>(int_part) + frac], negated under the sign, where [frac]
    is summed in floating point from those digits; that arithmetic is the
    machine's, so the value is kept as its three ingredients. *)
Record fast_value := {
  fv_negative : bool;
  fv_int_part : Z;
  fv_frac : option (list Z)
}.

(** [while (p < end_ && *p >= '0' && *p <= '9')] of the integer part, on a
    [uint64_t]. *)
Fixpoint int_part_run (m : mem) (n p : nat) (int_part : Z) : nat * Z :=
  match n with
  | O => (p, int_part)
  | S n' =>
      let c := byte_at m p in
      if is_digit c
      then int_part_run m n' (S p) ((int_part * 10 + digit_val c) mod 2 ^ 64)%Z
      else (p, int_part)
  end.

(** The same loop of the fraction; the digits in the order they are
    added. *)
Fixpoint frac_run (m : mem) (n p : nat) (digits : list Z) : nat * list Z :=
  match n with
  | O => (p, digits)
  | S n' =>
      let c := byte_at m p in
      if is_digit c then frac_run m n' (S p) (digits ++ [digit_val c])
      else (p, digits)
  end.

(** [parse_double_fast(x)]: the returned flag and what was stored in [x]
    ([None] when it returns before touching [x]). *)
Definition parse_double_fast (m : mem) (f : FieldRef) : bool * option fast_value :=
  let p := begin_ f in
  if end_ f <=? p then (false, None)
  else
    let negative := Ascii.eqb (byte_at m p) "-" in
    let p := if Ascii.eqb (byte_at m p) "-" then S p
             else if Ascii.eqb (byte_at m p) "+" then S p else p in
    if end_ f <=? p then (false, None)
    else
      let '(p, int_part) := int_part_run m (end_ f - p) p 0 in
      let '(p, frac) :=
        if (p <? end_ f) && Ascii.eqb (byte_at m p) "."
        then let '(p', digits) := frac_run m (end_ f - S p) (S p) [] in (p', Some digits)
        else (p, None) in
      (p =? end_ f,
       Some {| fv_negative := negative; fv_int_part := int_part; fv_frac := frac |}).

End Field.

(** ** Memory-mapped file source *)

Record MmapSource := { data : mem; size : nat; valid : bool }.

(** [MmapSource(path)], with the file system abstracted to what [open] and
    [fstat] find at the path: [None] when the file cannot be opened,
    otherwise its bytes.  An empty file is never mapped, so [data_] stays
    null and the source is not [valid()]. *)
Definition MmapSource_open (file : option (list ascii)) : MmapSource :=
  match file with
  | None => {| data := []; size := 0; valid := false |}
  | Some bytes => {| data := bytes; size := length bytes;
                     valid := negb (length bytes =? 0) |}
  end.

(** ** Pieces shared by the iteration loops *)

(** [std::string_view]: a pointer and a length. *)
Record string_view := { sv_data : nat; sv_size : nat }.

Definition sv_empty : string_view := {| sv_data := 0; sv_size := 0 |}.

Definition sv_bytes (m : mem) (v : string_view) : list ascii :=
  slice m (sv_data v) (sv_data v + sv_size v).

(** [a[k] = v] on a [std::array]. *)
Fixpoint upd {A : Type} (a : list A) (k : nat) (v : A) : list A :=
  match a, k with
  | [], _ => []
  | _ :: a', O => v :: a'
  | x :: a', S k' => x :: upd a' k' v
  end.

(** A generic [while (cond) { body }]: [body] yields the next state and
    whether it executed [break].  [None] when the fuel runs out. *)
Fixpoint while_loop {St : Type} (cond : St -> bool) (body : St -> St * bool)
         (fuel : nat) (s : St) : option St :=
  if cond s then
    match fuel with
    | O => None
    | S fuel' =>
        let (s', brk) := body s in
        if brk then Some s' else while_loop cond body fuel' s'
    end
  else Some s.

(** What one pass over the text between the empty-line test and the
    column-count test leaves behind: the cursor, the two pointer arrays and
    the number of fields found ([None] when an empty line was skipped and
    the loop executed [continue]). *)
Record RowScan := {
  rs_current : nat;
  rs_starts : list nat;
  rs_ends : list nat;
  rs_col : option nat
}.

Section Rows.
Variable arch : Simd.
Variable Columns : nat.
Variable Delim : ascii.
Variable m : mem.

(** [while (col < Columns && ptr < effective_end) {...}] of the data
    loops; at most [Columns] iterations since [col] starts at 0. *)
Fixpoint split_fields (n : nat) (effective_end ptr col : nat)
         (starts ends : list nat) : nat * nat * list nat * list nat :=
  match n with
  | O => (ptr, col, starts, ends)
  | S n' =>
      if (col <? Columns) && (ptr <? effective_end) then
        let starts := upd starts col ptr in
        let field_len := detail.find_field_end arch m ptr (effective_end - ptr) Delim in
        let ptr := ptr + field_len in
        let ends := upd ends col ptr in
        let col := S col in
        let ptr := if (ptr <? effective_end) && Ascii.eqb (byte_at m ptr) Delim
                   then S ptr else ptr in
        split_fields n' effective_end ptr col starts ends
      else (ptr, col, starts, ends)
  end.

(** The text that [for_each_raw], [for_each_until] and [parse_chunk]
    repeat verbatim: skip an empty line, or find the line end, strip a
    CR, split the fields, add the trailing empty field and advance the
    cursor. *)
Definition scan_row (current end_ : nat) (starts ends : list nat) : RowScan :=
  if Ascii.eqb (byte_at m current) LF then
    {| rs_current := S current; rs_starts := starts; rs_ends := ends; rs_col := None |}
  else if Ascii.eqb (byte_at m current) CR then
    let current := S current in
    let current := if (current <? end_) && Ascii.eqb (byte_at m current) LF
                   then S current else current in
    {| rs_current := current; rs_starts := starts; rs_ends := ends; rs_col := None |}
  else
    let remaining := end_ - current in
    let line_len := detail.find_newline arch m current remaining in
    let line_end := current + line_len in
    let effective_end :=
      if (current <? line_end) && Ascii.eqb (byte_at m (line_end - 1)) CR
      then line_end - 1 else line_end in
    let '(ptr, col, starts, ends) :=
      split_fields Columns effective_end current 0 starts ends in
    let trailing_empty :=
      (0 <? col) && (col <? Columns) && (nth (col - 1) ends 0 <? effective_end)
      && Ascii.eqb (byte_at m (nth (col - 1) ends 0)) Delim in
    let '(starts, ends, col) :=
      if trailing_empty then (upd starts col ptr, upd ends col ptr, S col)
      else (starts, ends, col) in
    let current := if line_end <? end_ then S line_end else end_ in
    {| rs_current := current; rs_starts := starts; rs_ends := ends; rs_col := Some col |}.

(** [fields[i] = FieldRef(starts[i], ends[i])] for [i < Columns]. *)
Definition make_fields (starts ends : list nat) : list FieldRef :=
  map (fun i => {| begin_ := nth i starts 0; end_ := nth i ends 0 |}) (seq 0 Columns).

(** A [std::array<const char*, Columns>] declared without initialiser;
    [indet i] is the indeterminate value slot [i] holds. *)
Definition uninitialized (indet : nat -> nat) : list nat := map indet (seq 0 Columns).
End Rows.

(** ** The single-threaded reader *)

Module Reader.

Record t := {
  source_ : MmapSource;
  current_ : nat;
  end_ : nat;
  column_names_ : list string_view;
  header_parsed_ : bool;
  last_error_ : ErrorInfo;
  line_number_ : Z
}.

Definition set_current (r : t) (p : nat) : t :=
  {| source_ := source_ r; current_ := p; end_ := end_ r;
     column_names_ := column_names_ r; header_parsed_ := header_parsed_ r;
     last_error_ := last_error_ r; line_number_ := line_number_ r |}.

Definition set_last_error (r : t) (e : ErrorInfo) : t :=
  {| source_ := source_ r; current_ := current_ r; end_ := end_ r;
     column_names_ := column_names_ r; header_parsed_ := header_parsed_ r;
     last_error_ := e; line_number_ := line_number_ r |}.

(** [++line_number_] on a [uint32_t]. *)
Definition bump_line (r : t) : t :=
  {| source_ := source_ r; current_ := current_ r; end_ := end_ r;
     column_names_ := column_names_ r; header_parsed_ := header_parsed_ r;
     last_error_ := last_error_ r;
     line_number_ := ((line_number_ r + 1) mod 2 ^ 32)%Z |}.

Definition set_header (r : t) (names : list string_view) (p : nat) : t :=
  {| source_ := source_ r; current_ := p; end_ := end_ r;
     column_names_ := names; header_parsed_ := true;
     last_error_ := last_error_ r; line_number_ := line_number_ r |}.

(** The state the iteration loops work on: the reader, the two local
    pointer arrays, the local [count] and the state of the user's callback. *)
Record loop_state (U : Type) := {
  ls_reader : t;
  ls_starts : list nat;
  ls_ends : list nat;
  ls_count : nat;
  ls_user : U
}.

Section Template.
Variable arch : Simd.
Variable Columns : nat.
Variable Delim : ascii.
Variable EP : ErrorPolicy.
(** The indeterminate contents of the loops' local arrays. *)
Variables indet_starts indet_ends : nat -> nat.

(** The field loop of [parse_header]. *)
Fixpoint header_fields (m : mem) (n : nat) (effective_end ptr col : nat)
         (names : list string_view) : list string_view :=
  match n with
  | O => names
  | S n' =>
      if (col <? Columns) && (ptr <? effective_end) then
        let start := ptr in
        let field_len := detail.find_field_end arch m ptr (effective_end - ptr) Delim in
        let ptr := ptr + field_len in
        let names := upd names col {| sv_data := start; sv_size := ptr - start |} in
        let col := S col in
        let ptr := if (ptr <? effective_end) && Ascii.eqb (byte_at m ptr) Delim
                   then S ptr else ptr in
        header_fields m n' effective_end ptr col names
      else names
  end.

Definition parse_header (r : t) : t :=
  if end_ r <=? current_ r then r
  else
    let r := if track_line EP then bump_line r else r in
    let m := data (source_ r) in
    let current := current_ r in
    let line_len := detail.find_newline arch m current (end_ r - current) in
    let line_end := current + line_len in
    let effective_end :=
      if (current <? line_end) && Ascii.eqb (byte_at m (line_end - 1)) CR
      then line_end - 1 else line_end in
    let names := header_fields m Columns effective_end current 0 (column_names_ r) in
    set_header r names (if line_end <? end_ r then S line_end else end_ r).

(** [Reader(filepath, skip_header)] *)
Definition new (file : option (list ascii)) (skip_header : bool) : t :=
  let src := MmapSource_open file in
  let r := {| source_ := src; current_ := 0; end_ := size src;
              column_names_ := repeat sv_empty Columns; header_parsed_ := false;
              last_error_ := ErrorInfo_default; line_number_ := 0 |} in
  if skip_header && valid src then parse_header r else r.

(** [column_name(idx)]; the array access is [None] outside the array. *)
Definition column_name (r : t) (idx : nat) : option string_view :=
  if idx <? Columns then nth_error (column_names_ r) idx else Some sv_empty.

(** [column_names_[i] == name]: equal lengths and equal bytes. *)
Definition sv_equal (m : mem) (v : string_view) (name : list ascii) : bool :=
  (sv_size v =? length name) && memcmp_eq m (sv_data v) name.

(** The loop of [column_index], [n] iterations left from index [i]; the
    outer [None] is an array access outside the array. *)
Fixpoint column_index_from (r : t) (name : list ascii) (n i : nat) : option (option nat) :=
  match n with
  | O => Some None
  | S n' =>
      match nth_error (column_names_ r) i with
      | None => None
      | Some v =>
          if sv_equal (data (source_ r)) v name then Some (Some i)
          else column_index_from r name n' (S i)
      end
  end.

(** [column_index(name)] *)
Definition column_index (r : t) (name : list ascii) : option (option nat) :=
  column_index_from r name Columns 0.

Definition last_error (r : t) : ErrorInfo :=
  if enabled EP then last_error_ r else ErrorInfo_default.

Definition has_error (r : t) : bool :=
  if enabled EP then
    match code (last_error_ r) with Ok => false | _ => true end
  else false.

Section Loops.
Variable U : Type.

Definition running (st : loop_state U) : bool :=
  current_ (ls_reader st) <? end_ (ls_reader st).

(** One iteration of the [while] of [for_each_raw]. *)
Definition for_each_raw_body (callback : U -> list nat -> list nat -> U)
           (st : loop_state U) : loop_state U * bool :=
  let r := ls_reader st in
  let r := if track_line EP then bump_line r else r in
  let rs := scan_row arch Columns Delim (data (source_ r))
                     (current_ r) (end_ r) (ls_starts st) (ls_ends st) in
  let r := set_current r (rs_current rs) in
  match rs_col rs with
  | None =>
      ({| ls_reader := r; ls_starts := rs_starts rs; ls_ends := rs_ends rs;
          ls_count := ls_count st; ls_user := ls_user st |}, false)
  | Some col =>
      if enabled EP && negb (col =? Columns) then
        let e := {| code := ColumnCountMismatch;
                    line := if track_line EP then line_number_ r else 0%Z;
                    column := (Z.of_nat col mod 256)%Z |} in
        ({| ls_reader := set_last_error r e;
            ls_starts := rs_starts rs; ls_ends := rs_ends rs;
            ls_count := ls_count st; ls_user := ls_user st |}, false)
      else
        ({| ls_reader := r; ls_starts := rs_starts rs; ls_ends := rs_ends rs;
            ls_count := S (ls_count st);
            ls_user := callback (ls_user st) (rs_starts rs) (rs_ends rs) |}, false)
  end.

Definition initial (r : t) (u : U) : loop_state U :=
  {| ls_reader := r; ls_starts := uninitialized Columns indet_starts;
     ls_ends := uninitialized Columns indet_ends; ls_count := 0; ls_user := u |}.

Definition result (st : loop_state U) : nat * t * U :=
  (ls_count st, ls_reader st, ls_user st).

(** [for_each_raw(callback)]: the returned count, the reader afterwards
    and the user state the callback invocations produced. *)
Definition for_each_raw (callback : U -> list nat -> list nat -> U)
           (r : t) (u : U) : option (nat * t * U) :=
  option_map result
    (while_loop running (for_each_raw_body callback)
                (end_ r - current_ r) (initial r u)).

(** [for_each(callback)] *)
Definition for_each (callback : U -> list FieldRef -> U)
           (r : t) (u : U) : option (nat * t * U) :=
  for_each_raw (fun u starts ends => callback u (make_fields Columns starts ends)) r u.

(** One iteration of the [while] of [for_each_until]. *)
Definition for_each_until_body (callback : U -> list FieldRef -> U * bool)
           (st : loop_state U) : loop_state U * bool :=
  let r := ls_reader st in
  let r := if track_line EP then bump_line r else r in
  let rs := scan_row arch Columns Delim (data (source_ r))
                     (current_ r) (end_ r) (ls_starts st) (ls_ends st) in
  let r := set_current r (rs_current rs) in
  match rs_col rs with
  | None =>
      ({| ls_reader := r; ls_starts := rs_starts rs; ls_ends := rs_ends rs;
          ls_count := ls_count st; ls_user := ls_user st |}, false)
  | Some col =>
      if enabled EP && negb (col =? Columns) then
        ({| ls_reader := r; ls_starts := rs_starts rs; ls_ends := rs_ends rs;
            ls_count := ls_count st; ls_user := ls_user st |}, false)
      else
        let fields := make_fields Columns (rs_starts rs) (rs_ends rs) in
        let (u, go_on) := callback (ls_user st) fields in
        ({| ls_reader := r; ls_starts := rs_starts rs; ls_ends := rs_ends rs;
            ls_count := S (ls_count st); ls_user := u |}, negb go_on)
  end.

(** [for_each_until(callback)] *)
Definition for_each_until (callback : U -> list FieldRef -> U * bool)
           (r : t) (u : U) : option (nat * t * U) :=
  option_map result
    (while_loop running (for_each_until_body callback)
                (end_ r - current_ r) (initial r u)).
End Loops.
End Template.

End Reader.

(** A callback that appends what it is handed to a log. *)
Definition log_fields (log : list (list FieldRef)) (fields : list FieldRef)
  : list (list FieldRef) := log ++ [fields].

Definition log_raw (log : list (list nat * list nat)) (starts ends : list nat)
  : list (list nat * list nat) := log ++ [(starts, ends)].

Definition log_until (limit : nat) (log : list (list FieldRef)) (fields : list FieldRef)
  : list (list FieldRef) * bool := (log ++ [fields], S (length log) <? limit).

(** Preset aliases: [CheckedReader] etc. fix the error policy. *)
Definition TurboPolicy := NoErrorCheck.
Definition CheckedPolicy := ErrorCheckBasic.
Definition SafePolicy := ErrorCheckFull.

(** ** The parallel reader *)

Module ParallelReader.

Record t := {
  source_ : MmapSource;
  data_ : nat;
  size_ : nat;
  num_threads_ : nat;
  column_names_ : list string_view
}.

(** The state of the [while] of [parse_chunk]. *)
Record chunk_state (U : Type) := {
  cs_current : nat;
  cs_starts : list nat;
  cs_ends : list nat;
  cs_count : nat;
  cs_user : U
}.

(** What [for_each_parallel] leaves behind: the returned total, and per
    worker (in chunk order) the count it stored and the records it handed
    to the callback, in the order it did. *)
Record outcome := {
  total : nat;
  counts : list nat;
  delivered : list (list (list FieldRef))
}.

Section Template.
Variable arch : Simd.
Variable Columns : nat.
Variable Delim : ascii.
Variables indet_starts indet_ends : nat -> nat.

(** The header loop of the constructor. *)
Fixpoint header_fields (m : mem) (n : nat) (line_end ptr col : nat)
         (names : list string_view) : list string_view :=
  match n with
  | O => names
  | S n' =>
      if (col <? Columns) && (ptr <? line_end) then
        let start := ptr in
        let field_len := detail.find_field_end arch m ptr (line_end - ptr) Delim in
        let ptr := ptr + field_len in
        let names := upd names col {| sv_data := start; sv_size := ptr - start |} in
        let col := S col in
        let ptr := if (ptr <? line_end) && Ascii.eqb (byte_at m ptr) Delim
                   then S ptr else ptr in
        header_fields m n' line_end ptr col names
      else names
  end.

(** [ParallelReader(filepath, num_threads, skip_header)] *)
Definition new (file : option (list ascii)) (num_threads : nat) (skip_header : bool) : t :=
  let src := MmapSource_open file in
  if skip_header && valid src then
    let nl := detail.find_newline arch (data src) 0 (size src) in
    let line_end := 0 + nl in
    let names := header_fields (data src) Columns line_end 0 0 (repeat sv_empty Columns) in
    let data' := if line_end <? 0 + size src then S line_end else 0 + size src in
    {| source_ := src; data_ := data'; size_ := (0 + size src) - data';
       num_threads_ := num_threads; column_names_ := names |}
  else
    {| source_ := src; data_ := 0; size_ := size src;
       num_threads_ := num_threads; column_names_ := repeat sv_empty Columns |}.

Section Chunk.
Variable U : Type.
Variable m : mem.
Variable end_ : nat.
Variable callback : U -> list FieldRef -> U.

Definition chunk_running (st : chunk_state U) : bool := cs_current st <? end_.

(** One iteration of the [while] of [parse_chunk]. *)
Definition parse_chunk_body (st : chunk_state U) : chunk_state U * bool :=
  let rs := scan_row arch Columns Delim m (cs_current st) end_
                     (cs_starts st) (cs_ends st) in
  match rs_col rs with
  | None =>
      ({| cs_current := rs_current rs; cs_starts := rs_starts rs;
          cs_ends := rs_ends rs; cs_count := cs_count st;
          cs_user := cs_user st |}, false)
  | Some col =>
      if col =? Columns then
        let fields := make_fields Columns (rs_starts rs) (rs_ends rs) in
        ({| cs_current := rs_current rs; cs_starts := rs_starts rs;
            cs_ends := rs_ends rs; cs_count := S (cs_count st);
            cs_user := callback (cs_user st) fields |}, false)
      else
        ({| cs_current := rs_current rs; cs_starts := rs_starts rs;
            cs_ends := rs_ends rs; cs_count := cs_count st;
            cs_user := cs_user st |}, false)
  end.
End Chunk.

(** [parse_chunk(start, end, callback)]: the count and the user state. *)
Definition parse_chunk (U : Type) (m : mem) (start end_ : nat)
           (callback : U -> list FieldRef -> U) (u : U) : option (nat * U) :=
  option_map (fun st => (cs_count st, cs_user st))
    (while_loop (chunk_running end_) (parse_chunk_body m end_ callback)
                (end_ - start)
                {| cs_current := start;
                   cs_starts := uninitialized Columns indet_starts;
                   cs_ends := uninitialized Columns indet_ends;
                   cs_count := 0; cs_user := u |}).

(** The [for] loop that cuts the chunks; it runs at most
    [num_threads_ - 1] times.  The result is the final [chunk_start] and
    the vector [chunks]. *)
Fixpoint cut_chunks (m : mem) (limit chunk_size : nat) (n : nat) (chunk_start : nat)
         (chunks : list (nat * nat)) : nat * list (nat * nat) :=
  match n with
  | O => (chunk_start, chunks)
  | S n' =>
      if chunk_start <? limit then
        let approx_end := chunk_start + chunk_size in
        let approx_end :=
          if limit <=? approx_end then limit
          else
            let remaining := limit - approx_end in
            let nl := detail.find_newline arch m approx_end remaining in
            let approx_end := approx_end + nl in
            if approx_end <? limit then S approx_end else approx_end in
        cut_chunks m limit chunk_size n' approx_end (chunks ++ [(chunk_start, approx_end)])
      else (chunk_start, chunks)
  end.

(** The chunk boundaries of [for_each_parallel].  The source divides by
    [num_threads_] and subtracts one from it: it is meant for at least one
    thread, and the properties below assume so. *)
Definition chunks_of (p : t) : list (nat * nat) :=
  let m := data (source_ p) in
  let limit := data_ p + size_ p in
  let chunk_size := size_ p / num_threads_ p in
  let '(chunk_start, chunks) :=
    cut_chunks m limit chunk_size (num_threads_ p - 1) (data_ p) [] in
  if chunk_start <? limit then chunks ++ [(chunk_start, limit)] else chunks.

(** The workers: thread [i] runs [parse_chunk] on chunk [i] and stores
    its count.  Each worker's callback invocations are recorded in a log
    of its own; [None] if some worker does not finish. *)
Fixpoint run_workers (m : mem) (chunks : list (nat * nat))
  : option (list (nat * list (list FieldRef))) :=
  match chunks with
  | [] => Some []
  | (s, e) :: rest =>
      match parse_chunk m s e log_fields [], run_workers m rest with
      | Some w, Some ws => Some (w :: ws)
      | _, _ => None
      end
  end.

(** [for_each_parallel(callback)] *)
Definition for_each_parallel (p : t) : option outcome :=
  if size_ p =? 0 then Some {| total := 0; counts := []; delivered := [] |}
  else
    match run_workers (data (source_ p)) (chunks_of p) with
    | None => None
    | Some ws =>
        Some {| total := fold_left (fun acc w => acc + fst w) ws 0;
                counts := map fst ws;
                delivered := map snd ws |}
    end.
End Template.

End ParallelReader.

(** The orders in which the callback invocations of concurrently running
    workers can reach the user: every interleaving that keeps each
    worker's own order. *)
Inductive interleaving {A : Type} : list (list A) -> list A -> Prop :=
| interleaving_done : forall ls, Forall (fun l => l = []) ls -> interleaving ls []
| interleaving_next : forall pre x l post rest,
    interleaving (pre ++ l :: post) rest ->
    interleaving (pre ++ (x :: l) :: post) (x :: rest).


(** * Notions used to state the properties *)

(** ** Scanners *)

(** [r] is the least index below [len] at which [hit] holds, or [len]. *)
Definition first_stop (hit : nat -> bool) (len r : nat) : Prop :=
  r <= len /\ (r < len -> hit r = true) /\ (forall i, i < r -> hit i = false).

(** The lane a comparison leaves: all ones where it holds. *)
Definition lane_of (b : bool) : Z := if b then 255%Z else 0%Z.

(** The bits [_mm_movemask_epi8] gathers. *)
Definition encode (bs : list bool) : Z :=
  fold_right (fun b acc => Z.b2z b + 2 * acc)%Z 0%Z bs.

(** ** Numerals *)

(** The longest prefix of decimal digits of a slice, and what follows it. *)
Fixpoint span_digits (s : list ascii) : list ascii * list ascii :=
  match s with
  | c :: s' => if is_digit c then let (ds, rest) := span_digits s' in (c :: ds, rest)
               else ([], s)
  | [] => ([], [])
  end.

(** The number a digit string denotes in base 10. *)
Definition dec_value (ds : list ascii) : Z :=
  fold_left (fun acc c => acc * 10 + digit_val c)%Z ds 0%Z.

Definition fits (T : IntType) (v : Z) : Prop := (int_min T <= v <= int_max T)%Z.

Definition all_digits (ds : list ascii) : Prop :=
  ds <> [] /\ Forall (fun c => is_digit c = true) ds.

(** A numeral as the specification words it: an optional ['+'] or ['-']
    (for a signed type) in front of a non-empty digit string. *)
Inductive spec_numeral (T : IntType) : list ascii -> Z -> Prop :=
| spec_plain : forall ds, all_digits ds -> spec_numeral T ds (dec_value ds)
| spec_plus : forall ds, int_signed T = true -> all_digits ds ->
    spec_numeral T ("+"%char :: ds) (dec_value ds)
| spec_minus : forall ds, int_signed T = true -> all_digits ds ->
    spec_numeral T ("-"%char :: ds) (- dec_value ds)%Z.

(** A numeral as [parse<T>()] reads it: a ['-'] only, and only for a signed
    type, in front of a non-empty digit string. *)
Inductive numeral (T : IntType) : list ascii -> Z -> Prop :=
| numeral_plain : forall ds, all_digits ds -> numeral T ds (dec_value ds)
| numeral_minus : forall ds, int_signed T = true -> all_digits ds ->
    numeral T ("-"%char :: ds) (- dec_value ds)%Z.

(** [rest] cannot extend a digit run. *)
Definition no_digit_ahead (rest : list ascii) : Prop :=
  match rest with
  | [] => True
  | c :: _ => is_digit c = false
  end.

(** ** Dates *)

(** The Gregorian calendar, as the specification words it. *)
Definition leap_year (y : Z) : bool :=
  ((y mod 4 =? 0) && negb (y mod 100 =? 0) || (y mod 400 =? 0))%Z.

Definition days_in_month (y mo : Z) : Z :=
  nth (Z.to_nat (mo - 1))
      [31; if leap_year y then 29 else 28; 31; 30; 31; 30; 31; 31; 30; 31; 30; 31]%Z 0%Z.

Definition calendar_valid (y mo d : Z) : bool :=
  ((1 <=? mo) && (mo <=? 12) && (1 <=? d) && (d <=? days_in_month y mo))%Z.

(** The ten bytes [YYYY-MM-DD], digits in the number positions, and the
    three numbers they denote. *)
Definition iso_date_form (s : list ascii) (y mo d : Z) : Prop :=
  exists y1 y2 y3 y4 m1 m2 d1 d2,
    s = [y1; y2; y3; y4; "-"%char; m1; m2; "-"%char; d1; d2]
    /\ Forall (fun c => is_digit c = true) [y1; y2; y3; y4; m1; m2; d1; d2]
    /\ y = dec_value [y1; y2; y3; y4]
    /\ mo = dec_value [m1; m2]
    /\ d = dec_value [d1; d2].

(** ** Rows and records *)

(** Two pointer arrays hold the same values in their first [k] slots. *)
Definition agree (k : nat) (a b : list nat) : Prop :=
  forall i, i < k -> nth i a 0 = nth i b 0.

Section Records.
Variable arch : Simd.
Variable Columns : nat.
Variable Delim : ascii.
Variable m : mem.

(** One row of the text from [current]: where the cursor goes, and the
    record it holds when it has exactly [Columns] fields. *)
Definition next_row (current end_ : nat) : nat * option (list FieldRef) :=
  let rs := scan_row arch Columns Delim m current end_
                     (repeat 0 Columns) (repeat 0 Columns) in
  (rs_current rs,
   match rs_col rs with
   | Some col => if col =? Columns
                 then Some (make_fields Columns (rs_starts rs) (rs_ends rs))
                 else None
   | None => None
   end).

(** The records with exactly [Columns] fields between [current] and
    [end_], in source order, looking at no more than [fuel] lines. *)
Fixpoint records (fuel : nat) (current end_ : nat) : list (list FieldRef) :=
  match fuel with
  | O => []
  | S fuel' =>
      if current <? end_ then
        let (current', rec) := next_row current end_ in
        match rec with
        | Some fields => fields :: records fuel' current' end_
        | None => records fuel' current' end_
        end
      else []
  end.

Definition all_records (current end_ : nat) : list (list FieldRef) :=
  records (end_ - current) current end_.
End Records.

(** ** Reader states *)

(** What an iteration of a reader loop leaves untouched, and where it puts
    the cursor and the arrays. *)
Definition frame (arch : Simd) (Columns : nat) (Delim : ascii) (U : Type)
           (st st' : Reader.loop_state U) : Prop :=
  let r := Reader.ls_reader st in
  let rs := scan_row arch Columns Delim (data (Reader.source_ r))
                     (Reader.current_ r) (Reader.end_ r)
                     (Reader.ls_starts st) (Reader.ls_ends st) in
  Reader.source_ (Reader.ls_reader st') = Reader.source_ r
  /\ Reader.end_ (Reader.ls_reader st') = Reader.end_ r
  /\ Reader.column_names_ (Reader.ls_reader st') = Reader.column_names_ r
  /\ Reader.current_ (Reader.ls_reader st') = rs_current rs
  /\ Reader.ls_starts st' = rs_starts rs
  /\ Reader.ls_ends st' = rs_ends rs.

(** The bytes a reader loop has still to look at. *)
Definition remaining (U : Type) (st : Reader.loop_state U) : nat :=
  Reader.end_ (Reader.ls_reader st) - Reader.current_ (Reader.ls_reader st).

(** The readers the public interface can produce: a constructed reader,
    and whatever an iteration call leaves behind ([for_each] is
    [for_each_raw] with a wrapped callback). *)
Inductive reachable (arch : Simd) (Columns : nat) (Delim : ascii) (EP : ErrorPolicy)
  (indet_starts indet_ends : nat -> nat) : Reader.t -> Prop :=
| reach_new : forall file skip_header,
    reachable arch Columns Delim EP indet_starts indet_ends
              (Reader.new arch Columns Delim EP file skip_header)
| reach_raw : forall (U : Type) callback r (u : U) n r' u',
    reachable arch Columns Delim EP indet_starts indet_ends r ->
    Reader.for_each_raw arch Columns Delim EP indet_starts indet_ends callback r u
    = Some (n, r', u') ->
    reachable arch Columns Delim EP indet_starts indet_ends r'
| reach_until : forall (U : Type) callback r (u : U) n r' u',
    reachable arch Columns Delim EP indet_starts indet_ends r ->
    Reader.for_each_until arch Columns Delim EP indet_starts indet_ends callback r u
    = Some (n, r', u') ->
    reachable arch Columns Delim EP indet_starts indet_ends r'.

(** ** Inputs *)

(** The scenario inputs of the specification. *)
Definition scenario_S3 : list ascii :=
  str "a,b,c" ++ [LF] ++ str "1,2,3" ++ [LF] ++ str "4,5" ++ [LF] ++ str "6,7,8" ++ [LF].

Definition short_row_file : list ascii :=
  str "a,b,c" ++ [LF] ++ str "4,5" ++ [LF].

(** A file whose only data row is one field short. *)
Definition short_data_file : list ascii := str "a,b,c" ++ [LF] ++ str "1,2" ++ [LF].

(** A file with CRLF and LF line ends, an empty line, a short row and no
    final line feed. *)
Definition mixed_file : list ascii :=
  str "a,b,c" ++ [CR; LF] ++ str "1,,3" ++ [CR; LF; LF] ++ str "4,5" ++ [LF]
  ++ str "6,7,8" ++ [LF] ++ str "9,10,".


(** * Notions used to state the further properties *)

(** ** Words *)

(** Equality of two byte strings. *)
Fixpoint bytes_eqb (s t : list ascii) : bool :=
  match s, t with
  | [], [] => true
  | c :: s', d :: t' => Ascii.eqb c d && bytes_eqb s' t'
  | _, _ => false
  end.

(** The spellings of the two truth values. *)
Definition true_words : list (list ascii) :=
  [str "1"; str "t"; str "T"; str "y"; str "Y";
   str "true"; str "True"; str "TRUE"; str "yes"; str "Yes"; str "YES"].

Definition false_words : list (list ascii) :=
  [str "0"; str "f"; str "F"; str "n"; str "N";
   str "false"; str "False"; str "FALSE"; str "no"; str "No"; str "NO"].

(** The truth value a slice spells, if any. *)
Definition bool_of_word (s : list ascii) : expected bool :=
  if existsb (bytes_eqb s) true_words then value true
  else if existsb (bytes_eqb s) false_words then value false
  else unexpected InvalidBool.


(** ** Feeding records to a callback that can stop *)

(** Records are handed to [cb] in order until it answers [false]: the
    number handed over, the user state afterwards and the records left. *)
Fixpoint feed_until {U : Type} (cb : U -> list FieldRef -> U * bool)
         (recs : list (list FieldRef)) (u : U) : nat * U * list (list FieldRef) :=
  match recs with
  | [] => (0, u, [])
  | fields :: rest =>
      let (u', go_on) := cb u fields in
      if go_on then
        let '(n, u2, unread) := feed_until cb rest u' in (S n, u2, unread)
      else (1, u', rest)
  end.



(** What an iteration call may have done to a reader that was [r]: the
    source, the range, the header are the same, the cursor has moved
    forward within the range, the line counter moves only when lines are
    tracked, and the recorded error is the old one or a column-count
    mismatch. *)
Definition kept_by_iteration (EP : ErrorPolicy) (r r' : Reader.t) : Prop :=
  Reader.source_ r' = Reader.source_ r
  /\ Reader.end_ r' = Reader.end_ r
  /\ Reader.column_names_ r' = Reader.column_names_ r
  /\ Reader.header_parsed_ r' = Reader.header_parsed_ r
  /\ (Reader.current_ r <= Reader.end_ r ->
      Reader.current_ r <= Reader.current_ r' <= Reader.end_ r)
  /\ (track_line EP = false -> Reader.line_number_ r' = Reader.line_number_ r)
  /\ (Reader.last_error_ r' = Reader.last_error_ r
      \/ (enabled EP = true
          /\ code (Reader.last_error_ r') = ColumnCountMismatch
          /\ (0 <= column (Reader.last_error_ r') < 256)%Z
          /\ (track_line EP = false -> line (Reader.last_error_ r') = 0%Z))).

(** ** Writing a table as text *)

(** The fields of a row joined by the delimiter. *)
Fixpoint join (Delim : ascii) (fields : list (list ascii)) : list ascii :=
  match fields with
  | [] => []
  | f :: rest =>
      match rest with
      | [] => f
      | _ :: _ => f ++ Delim :: join Delim rest
      end
  end.

(** A field without delimiter, line feed and carriage return. *)
Definition plain (Delim : ascii) (f : list ascii) : Prop :=
  Forall (fun c => detail.is_field_end Delim c = false) f.




(** ** Files without short or long rows *)

Section FullRows.
Variable arch : Simd.
Variable Columns : nat.
Variable Delim : ascii.
Variable m : mem.

(** Looking at no more than [fuel] lines from [current]: every line that
    is not empty has exactly [Columns] fields. *)
Fixpoint full_rows (fuel : nat) (current end_ : nat) : bool :=
  match fuel with
  | O => true
  | S fuel' =>
      if current <? end_ then
        let rs := scan_row arch Columns Delim m current end_
                           (repeat 0 Columns) (repeat 0 Columns) in
        match rs_col rs with
        | Some col => (col =? Columns) && full_rows fuel' (rs_current rs) end_
        | None => full_rows fuel' (rs_current rs) end_
        end
      else true
  end.

Definition all_rows_full (current end_ : nat) : bool :=
  full_rows (end_ - current) current end_.
End FullRows.

(** ** Well-formed records *)



(** ** Chunks *)

(** The chunks are not empty and lie end to end from [a] to [b]. *)
Fixpoint chain (chunks : list (nat * nat)) (a b : nat) : Prop :=
  match chunks with
  | [] => a = b
  | c :: rest => fst c = a /\ a < snd c /\ chain rest (snd c) b
  end.

(** A chunk ends at the end of the data or just after a line feed. *)
Definition ends_at_line (m : mem) (limit : nat) (c : nat * nat) : Prop :=
  snd c = limit \/ byte_at m (snd c - 1) = LF.

(** ** Headers *)

(** Every stored name lies inside the mapping. *)
Definition names_in_range (m : mem) (names : list string_view) : Prop :=
  Forall (fun v => sv_data v + sv_size v <= length m) names.

(** The index, counted from [i], of the first name whose bytes are
    [name]. *)
Fixpoint find_name (m : mem) (name : list ascii) (names : list string_view) (i : nat)
  : option nat :=
  match names with
  | [] => None
  | v :: rest =>
      if bytes_eqb (sv_bytes m v) name then Some i else find_name m name rest (S i)
  end.

(** ** Decimal numbers of the fast path *)

(** An optional sign, digits, and optionally a point and more digits, with
    at least one byte after the sign; [ds] are the digits before the
    point and [frac] those after it. *)
Definition fast_form (s : list ascii) (negative : bool) (ds : list ascii)
           (frac : option (list ascii)) : Prop :=
  exists sign,
    s = sign ++ ds ++ match frac with Some fs => "."%char :: fs | None => [] end
    /\ ((sign = [] /\ negative = false) \/ (sign = ["+"%char] /\ negative = false)
        \/ (sign = ["-"%char] /\ negative = true))
    /\ Forall (fun c => is_digit c = true) ds
    /\ match frac with
       | Some fs => Forall (fun c => is_digit c = true) fs
       | None => ds <> []
       end.

Definition is_nil (s : list ascii) : bool :=
  match s with [] => true | _ :: _ => false end.

(** ** Rows of any length *)


(** * Properties *)

(** ** Null detection *)

Lemma skipn_cons_byte (m : mem) (b : nat) :
  b < length m -> skipn b m = byte_at m b :: skipn (S b) m.
Proof.
  revert b; induction m as [|x m IH]; intros b Hb; simpl in Hb; [lia|].
  destruct b as [|b]; [reflexivity|].
  change (skipn (S b) (x :: m)) with (skipn b m).
  change (byte_at (x :: m) (S b)) with (byte_at m b).
  rewrite IH by lia. reflexivity.
Qed.

Lemma slice_length (m : mem) (b e : nat) :
  b <= e -> e <= length m -> length (slice m b e) = e - b.
Proof.
  intros Hbe He. unfold slice.
  rewrite length_firstn, length_skipn. lia.
Qed.

Lemma slice_cons (m : mem) (b e : nat) :
  b < e -> e <= length m -> slice m b e = byte_at m b :: slice m (S b) e.
Proof.
  intros Hbe He. unfold slice.
  rewrite skipn_cons_byte by lia.
  replace (e - b) with (S (e - S b)) by lia. reflexivity.
Qed.

Lemma slice_nil (m : mem) (b : nat) : slice m b b = [].
Proof. unfold slice. rewrite Nat.sub_diag. reflexivity. Qed.

Lemma memcmp_slice (m : mem) (lit : list ascii) :
  forall b e, b <= e -> e <= length m -> e - b = length lit ->
  (memcmp_eq m b lit = true <-> slice m b e = lit).
Proof.
  induction lit as [|c lit IH]; intros b e Hbe He Hlen; simpl in *.
  - assert (e = b) by lia; subst. rewrite slice_nil. tauto.
  - rewrite slice_cons by lia.
    rewrite andb_true_iff, Ascii.eqb_eq, (IH (S b) e) by lia.
    split; [intros [-> ->]; reflexivity | intros H; inversion H; subst; auto].
Qed.

(** One [len == k && memcmp(...) == 0] test decides whether the slice is
    the literal. *)
Lemma null_test_reflect (m : mem) (b e : nat) (lit : list ascii) (k : nat) :
  b <= e -> e <= length m -> k = length lit ->
  reflect (slice m b e = lit) ((e - b =? k) && memcmp_eq m b lit).
Proof.
  intros Hbe He ->. apply iff_reflect.
  rewrite andb_true_iff, Nat.eqb_eq. split.
  - intros H. split.
    + rewrite <- (slice_length m Hbe He), H. reflexivity.
    + apply (memcmp_slice m lit Hbe He); [|exact H].
      rewrite <- (slice_length m Hbe He), H. reflexivity.
  - intros [Hl Hm]. apply (memcmp_slice m lit Hbe He Hl). exact Hm.
Qed.

Lemma empty_test_reflect (m : mem) (b e : nat) :
  b <= e -> e <= length m -> reflect (slice m b e = []) (e - b =? 0).
Proof.
  intros Hbe He. apply iff_reflect. rewrite Nat.eqb_eq, <- (slice_length m Hbe He).
  split; [intros ->; reflexivity | apply length_zero_iff_nil].
Qed.

Lemma dash_test_reflect (m : mem) (b e : nat) :
  b <= e -> e <= length m ->
  reflect (slice m b e = str "-") ((e - b =? 1) && Ascii.eqb (byte_at m b) "-").
Proof.
  intros Hbe He.
  replace (Ascii.eqb (byte_at m b) "-") with (memcmp_eq m b (str "-"))
    by (simpl; apply andb_true_r).
  apply null_test_reflect; auto.
Qed.

Lemma if_true_orb (c x : bool) : (if c then true else x) = c || x.
Proof. destruct c; reflexivity. Qed.

Lemma In_toggle (A : Type) (t : bool) (s : A) (l : list A) :
  In s (if t then l else []) <-> t = true /\ In s l.
Proof. destruct t; simpl; intuition discriminate. Qed.

Lemma vocabulary_In (P : NullPolicy) (s : list ascii) :
  In s (vocabulary P) <->
  (empty_is_null P = true /\ s = [])
  \/ (null_is_null P = true /\ (s = str "null" \/ s = str "NULL"))
  \/ (none_is_null P = true /\ (s = str "None" \/ s = str "none" \/ s = str "NONE"))
  \/ (na_is_null P = true /\ (s = str "NA" \/ s = str "N/A" \/ s = str "n/a"))
  \/ (dash_is_null P = true /\ s = str "-").
Proof.
  unfold vocabulary. rewrite !in_app_iff, !In_toggle. cbn [In str list_ascii_of_string].
  intuition (subst; auto).
Qed.

Lemma check_iff_vocabulary (P : NullPolicy) (m : mem) (b e : nat) :
  b <= e -> e <= length m ->
  (NullPolicy.check P m b e = true <-> In (slice m b e) (vocabulary P)).
Proof.
  intros Hbe He. rewrite vocabulary_In. unfold NullPolicy.check.
  rewrite !if_true_orb, orb_false_r, !orb_true_iff, !andb_true_iff.
  pose proof (reflect_iff _ _ (empty_test_reflect m Hbe He)) as R0.
  pose proof (fun lit k H => reflect_iff _ _ (@null_test_reflect m b e lit k Hbe He H)) as R.
  pose proof (R (str "null") 4 eq_refl) as R1. pose proof (R (str "NULL") 4 eq_refl) as R2.
  pose proof (R (str "None") 4 eq_refl) as R3. pose proof (R (str "none") 4 eq_refl) as R4.
  pose proof (R (str "NONE") 4 eq_refl) as R5. pose proof (R (str "NA") 2 eq_refl) as R6.
  pose proof (R (str "N/A") 3 eq_refl) as R7. pose proof (R (str "n/a") 3 eq_refl) as R8.
  pose proof (reflect_iff _ _ (dash_test_reflect m Hbe He)) as R9.
  clear R. rewrite andb_true_iff in R1, R2, R3, R4, R5, R6, R7, R8, R9.
  tauto.
Qed.

(** C7.  For every null policy [P] and every field slice [[b, e)] of the
    mapping, [is_null<P>()] answers true exactly when the bytes of the slice
    are one of the words the enabled toggles of [P] select: the empty
    slice; NA, N/A, n/a; null, NULL; None, none, NONE; the dash. *)
Theorem is_null_exact_vocabulary (P : NullPolicy) (m : mem) (f : FieldRef) :
  begin_ f <= end_ f -> end_ f <= length m ->
  (Field.is_null P m f = true <-> In (Field.view m f) (vocabulary P)).
Proof.
  intros Hbe He. unfold Field.is_null, Field.view.
  apply check_iff_vocabulary; assumption.
Qed.

Lemma is_null_exact_vocabulary_witness :
  let m := str "7,n/a" in
  let f := {| begin_ := 2; end_ := 5 |} in
  (begin_ f <= end_ f /\ end_ f <= length m) /\
  (Field.is_null NullLenient m f = true <-> In (Field.view m f) (vocabulary NullLenient)).
Proof.
  split; [split; simpl; lia|].
  apply (@is_null_exact_vocabulary NullLenient (str "7,n/a") {| begin_ := 2; end_ := 5 |});
    simpl; lia.
Defined.

(** The Standard preset, as the alias declares it. *)
Lemma standard_vocabulary :
  vocabulary NullStandard =
  [str ""; str "NA"; str "N/A"; str "n/a"; str "null"; str "NULL"].
Proof. reflexivity. Qed.

(** C8, as stated, fails: with the Standard policy the slice "null" is
    null. *)
Lemma standard_null_counterexample :
  Field.is_null NullStandard (str "null") {| begin_ := 0; end_ := 4 |} = true
  /\ Field.is_null NullStandard (str "NULL") {| begin_ := 0; end_ := 4 |} = true.
Proof. split; reflexivity. Qed.

(** C8, amended.  The Standard preset treats the empty slice, the NA family
    and the null family (null, NULL) as null, and neither the none family
    nor the dash: [is_null] with the Standard policy is true exactly on
    the empty slice, NA, N/A, n/a, null and NULL. *)
Theorem standard_preset_vocabulary (m : mem) (f : FieldRef) :
  begin_ f <= end_ f -> end_ f <= length m ->
  (Field.is_null NullStandard m f = true <->
   In (Field.view m f) [str ""; str "NA"; str "N/A"; str "n/a"; str "null"; str "NULL"]).
Proof.
  intros Hbe He. rewrite <- standard_vocabulary. unfold Field.is_null, Field.view.
  apply check_iff_vocabulary; assumption.
Qed.

Lemma standard_preset_vocabulary_witness :
  let m := str "x,NULL,none,-" in
  (1 <= 1 /\ 1 <= length m) /\
  (Field.is_null NullStandard m {| begin_ := 2; end_ := 6 |} = true <->
   In (Field.view m {| begin_ := 2; end_ := 6 |})
      [str ""; str "NA"; str "N/A"; str "n/a"; str "null"; str "NULL"]).
Proof.
  split; [simpl; lia|].
  apply (@standard_preset_vocabulary (str "x,NULL,none,-") {| begin_ := 2; end_ := 6 |});
    simpl; lia.
Defined.

(** The words the Standard preset leaves alone. *)
Lemma standard_not_none_dash :
  let m := str "None,none,NONE,-" in
  map (Field.is_null NullStandard m)
      [ {| begin_ := 0; end_ := 4 |}; {| begin_ := 5; end_ := 9 |};
        {| begin_ := 10; end_ := 14 |}; {| begin_ := 15; end_ := 16 |} ]
  = [false; false; false; false].
Proof. reflexivity. Qed.



(** ** Scanners *)


Lemma first_stop_unique (hit : nat -> bool) (len r1 r2 : nat) :
  first_stop hit len r1 -> first_stop hit len r2 -> r1 = r2.
Proof.
  intros (L1 & T1 & F1) (L2 & T2 & F2).
  destruct (Nat.lt_trichotomy r1 r2) as [H | [H | H]]; auto.
  - specialize (F2 r1 H). rewrite T1 in F2 by lia. discriminate.
  - specialize (F1 r2 H). rewrite T2 in F1 by lia. discriminate.
Qed.

Lemma u8_eqb (a b : ascii) : Z.eqb (u8 a) (u8 b) = Ascii.eqb a b.
Proof.
  unfold u8. destruct (Ascii.eqb_spec a b) as [-> | Hne].
  - apply Z.eqb_refl.
  - apply Z.eqb_neq. intros H. apply Nat2Z.inj in H. apply Hne.
    rewrite <- (ascii_nat_embedding a), <- (ascii_nat_embedding b), H. reflexivity.
Qed.

Lemma nth_map_seq (A : Type) (f : nat -> A) (d : A) (n r : nat) :
  r < n -> nth r (map f (seq 0 n)) d = f r.
Proof.
  intros H. rewrite (nth_indep _ d (f 0)) by (rewrite length_map, length_seq; lia).
  rewrite (map_nth f (seq 0 n) 0 r), seq_nth by lia. reflexivity.
Qed.

Lemma lanewise_repeat (f : Z -> Z -> Z) (g : nat -> Z) (x : Z) (js : list nat) :
  lanewise f (map g js) (repeat x (length js)) = map (fun j => f (g j) x) js.
Proof. unfold lanewise. induction js; simpl; congruence. Qed.

Lemma lanewise_map (f : Z -> Z -> Z) (g h : nat -> Z) (js : list nat) :
  lanewise f (map g js) (map h js) = map (fun j => f (g j) (h j)) js.
Proof. unfold lanewise. induction js; simpl; congruence. Qed.


Lemma cmpeq_lanes (m : mem) (p : nat) (c : ascii) :
  cmpeq (load128 m p) (set1 c) =
  map (fun j => lane_of (Ascii.eqb (byte_at m (p + j)) c)) (seq 0 16).
Proof.
  unfold cmpeq, load128, set1.
  rewrite (lanewise_repeat _ (fun j => u8 (byte_at m (p + j))) (u8 c) (seq 0 16)).
  apply map_ext. intros j. rewrite u8_eqb. reflexivity.
Qed.

Lemma vor_lanes (f g : nat -> bool) (js : list nat) :
  vor (map (fun j => lane_of (f j)) js) (map (fun j => lane_of (g j)) js) =
  map (fun j => lane_of (f j || g j)) js.
Proof.
  unfold vor. rewrite lanewise_map. apply map_ext. intros j.
  destruct (f j), (g j); reflexivity.
Qed.


Lemma movemask_lanes (hit : nat -> bool) (js : list nat) :
  movemask_epi8 (map (fun j => lane_of (hit j)) js) = encode (map hit js).
Proof.
  unfold movemask_epi8, encode. induction js as [|j js IH]; cbn [map fold_right]; [reflexivity|].
  rewrite IH. destruct (hit j); reflexivity.
Qed.

Lemma encode_cons (b : bool) (bs : list bool) :
  encode (b :: bs) = (Z.b2z b + 2 * encode bs)%Z.
Proof. reflexivity. Qed.

Lemma encode_nonneg (bs : list bool) : (0 <= encode bs)%Z.
Proof.
  induction bs as [|b bs IH]; [reflexivity|].
  rewrite encode_cons. destruct b; cbn [Z.b2z]; lia.
Qed.

Lemma encode_zero (bs : list bool) (k : nat) :
  encode bs = 0%Z -> nth k bs false = false.
Proof.
  revert k; induction bs as [|b bs IH]; intros k H; [destruct k; reflexivity|].
  rewrite encode_cons in H. pose proof (encode_nonneg bs).
  destruct b; cbn [Z.b2z] in H; [lia|].
  destruct k; simpl; [reflexivity|]. apply IH. lia.
Qed.

Lemma ctz_encode (bs : list bool) :
  forall n, length bs <= n -> encode bs <> 0%Z ->
  let r := ctz_bits n (encode bs) in
  r < length bs /\ nth r bs false = true /\ forall k, k < r -> nth k bs false = false.
Proof.
  induction bs as [|b bs IH]; intros n Hn Hz; [exfalso; apply Hz; reflexivity|].
  cbn [length] in *. destruct n as [|n]; [lia|].
  rewrite encode_cons in *. cbn [ctz_bits].
  rewrite Z.odd_add_mul_2.
  destruct b; cbn [Z.b2z Z.odd nth].
  - repeat split; [lia | intros k Hk; lia].
  - rewrite Z.add_0_l, Z.div2_div, Z.mul_comm, Z.div_mul by lia.
    destruct (IH n) as (H1 & H2 & H3); [lia | cbn [Z.b2z] in Hz; lia |].
    cbv zeta. repeat split; [lia | exact H2 |].
    intros [|k] Hk; [reflexivity|]. apply H3. lia.
Qed.

Lemma lane64_zero (bs : list bool) (k : nat) :
  fold_right (fun lane acc => lane + 256 * acc)%Z 0%Z (map lane_of bs) = 0%Z ->
  nth k bs false = false.
Proof.
  revert k; induction bs as [|b bs IH]; intros k H; [destruct k; reflexivity|].
  cbn [map fold_right] in H.
  assert (0 <= fold_right (fun lane acc => lane + 256 * acc) 0 (map lane_of bs))%Z.
  { clear. induction bs as [|b bs IH]; cbn [map fold_right]; [lia|].
    destruct b; cbn [lane_of]; lia. }
  destruct b; cbn [lane_of] in H; [lia|].
  destruct k; simpl; [reflexivity|]. apply IH. lia.
Qed.

Section ScanCorrect.
Variable m : mem.
Variable data len : nat.
Variable stop : ascii -> bool.
Variable cmp : vec128 -> vec128.
Hypothesis cmp_lanes : forall p,
    cmp (load128 m p) = map (fun j => lane_of (stop (byte_at m (p + j)))) (seq 0 16).

Let hit (i : nat) : bool := stop (byte_at m (data + i)).

Lemma scalar_loop_spec : forall n i,
    n = len - i -> i <= len -> (forall k, k < i -> hit k = false) ->
    first_stop hit len (detail.scalar_loop m data len stop n i).
  Proof.
    induction n as [|n IH]; intros i Hn Hi Hpre; simpl.
    - assert (i = len) by lia; subst i. repeat split; [lia | lia | exact Hpre].
    - destruct (stop (byte_at m (data + i))) eqn:E.
      + repeat split; [lia | intros _; exact E | exact Hpre].
      + apply IH; [lia | lia |].
        intros k Hk. destruct (Nat.eq_dec k i) as [-> | Hne]; [exact E | apply Hpre; lia].
  Qed.

Lemma neon_first_spec : forall n i j,
    match detail.neon_first m data stop n i j with
    | Some r => exists j', j <= j' < j + n /\ r = i + j' /\ hit (i + j') = true
                           /\ forall k, j <= k < j' -> hit (i + k) = false
    | None => forall k, j <= k < j + n -> hit (i + k) = false
    end.
  Proof.
    induction n as [|n IH]; intros i j; simpl; [intros k Hk; lia|].
    destruct (stop (byte_at m (data + (i + j)))) eqn:E.
    - exists j. repeat split; [lia | lia | exact E | intros k Hk; lia].
    - specialize (IH i (S j)). destruct (detail.neon_first m data stop n i (S j)) as [r|].
      + destruct IH as (j' & Hj' & -> & Ht & Hf). exists j'.
        repeat split; [lia | lia | exact Ht |].
        intros k Hk. destruct (Nat.eq_dec k j) as [-> | Hne]; [exact E | apply Hf; lia].
      + intros k Hk. destruct (Nat.eq_dec k j) as [-> | Hne]; [exact E | apply IH; lia].
  Qed.

Lemma block_lanes (i : nat) :
    cmp (load128 m (data + i)) = map (fun j => lane_of (hit (i + j))) (seq 0 16).
  Proof.
    rewrite cmp_lanes. apply map_ext. intros j. unfold hit.
    rewrite Nat.add_assoc. reflexivity.
  Qed.

Lemma extend_clear (i : nat) :
    (forall k, k < i -> hit k = false) ->
    (forall j, j < 16 -> hit (i + j) = false) ->
    forall k, k < i + 16 -> hit k = false.
  Proof.
    intros Hpre Hblk k Hk. destruct (Nat.lt_ge_cases k i) as [H | H]; [auto|].
    replace k with (i + (k - i)) by lia. apply Hblk. lia.
  Qed.

Lemma sse2_blocks_spec : forall n i,
    i <= len -> (forall k, k < i -> hit k = false) ->
    first_stop hit len (detail.sse2_blocks m data len stop cmp n i).
  Proof.
    induction n as [|n IH]; intros i Hi Hpre; cbn [detail.sse2_blocks]; cbv zeta.
    - apply scalar_loop_spec; auto.
    - destruct (Nat.leb_spec (i + 16) len) as [Hblk | Hblk];
        [| apply scalar_loop_spec; auto].
      rewrite block_lanes, movemask_lanes.
      set (bs := map (fun j => hit (i + j)) (seq 0 16)).
      assert (Hnth : forall j, j < 16 -> nth j bs false = hit (i + j))
        by (intros j Hj; exact (@nth_map_seq _ (fun j => hit (i + j)) false 16 j Hj)).
      destruct (Z.eqb_spec (encode bs) 0) as [Hz | Hz]; cbn [negb].
      + apply IH; [lia|]. apply extend_clear; [exact Hpre|].
        intros j Hj. rewrite <- Hnth by exact Hj. apply encode_zero; exact Hz.
      + unfold blazecsv_ctz.
        destruct (@ctz_encode bs 32) as (H1 & H2 & H3);
          [unfold bs; rewrite length_map, length_seq; lia | exact Hz |].
        unfold bs in H1; rewrite length_map, length_seq in H1. fold bs in H1.
        set (r := ctz_bits 32 (encode bs)) in *.
        repeat split; [lia | intros _; rewrite <- Hnth by exact H1; exact H2 |].
        intros k Hk. destruct (Nat.lt_ge_cases k i) as [H | H]; [auto|].
        replace k with (i + (k - i)) by lia.
        rewrite <- Hnth by lia. apply H3. lia.
  Qed.

Lemma neon_blocks_spec : forall n i,
    i <= len -> (forall k, k < i -> hit k = false) ->
    first_stop hit len (detail.neon_blocks m data len stop cmp n i).
  Proof.
    induction n as [|n IH]; intros i Hi Hpre; cbn [detail.neon_blocks]; cbv zeta.
    - apply scalar_loop_spec; auto.
    - destruct (Nat.leb_spec (i + 16) len) as [Hblk | Hblk];
        [| apply scalar_loop_spec; auto].
      rewrite block_lanes.
      pose proof (neon_first_spec 16 i 0) as Hin.
      match goal with |- context [negb ?c] => destruct c eqn:Hmask end; cbn [negb].
      + (* no lane is set: the block holds no terminator *)
        apply IH; [lia|]. apply extend_clear; [exact Hpre|].
        apply Z.eqb_eq, Z.lor_eq_0_iff in Hmask. destruct Hmask as [H0 H1].
        unfold vgetq_lane_u64 in H0, H1.
        rewrite <- (map_map (fun j => hit (i + j)) lane_of) in H0, H1.
        rewrite skipn_map, firstn_map in H0, H1.
        intros j Hj. destruct (Nat.lt_ge_cases j 8) as [Hlo | Hhi].
        * pose proof (lane64_zero _ j H0) as Hz.
          change (firstn 8 (skipn (8 * 0) (map (fun j => hit (i + j)) (seq 0 16))))
            with (map (fun j => hit (i + j)) (seq 0 8)) in Hz.
          rewrite nth_map_seq in Hz by lia. exact Hz.
        * pose proof (lane64_zero _ (j - 8) H1) as Hz.
          change (firstn 8 (skipn (8 * 1) (map (fun j => hit (i + j)) (seq 0 16))))
            with (map (fun j => hit (i + (8 + j))) (seq 0 8)) in Hz.
          rewrite nth_map_seq in Hz by lia.
          replace (8 + (j - 8)) with j in Hz by lia. exact Hz.
      + destruct (detail.neon_first m data stop 16 i 0) as [r|].
        * destruct Hin as (j' & Hj' & -> & Ht & Hf).
          repeat split; [lia | intros _; exact Ht |].
          intros k Hk. destruct (Nat.lt_ge_cases k i) as [H | H]; [auto|].
          replace k with (i + (k - i)) by lia. apply Hf. lia.
        * apply IH; [lia|]. apply extend_clear; [exact Hpre|].
          intros j Hj. apply Hin. lia.
  Qed.

Lemma scan_spec (arch : Simd) :
    first_stop hit len (detail.scan m data len stop cmp arch).
  Proof.
    assert (H0 : forall k, k < 0 -> hit k = false) by (intros k Hk; lia).
    destruct arch; cbn [detail.scan].
    - destruct (16 <=? len).
      + apply neon_blocks_spec; [lia | exact H0].
      + apply scalar_loop_spec; [lia | lia | exact H0].
    - destruct (16 <=? len).
      + apply sse2_blocks_spec; [lia | exact H0].
      + apply scalar_loop_spec; [lia | lia | exact H0].
    - apply scalar_loop_spec; [lia | lia | exact H0].
  Qed.
End ScanCorrect.

Lemma find_field_end_spec (arch : Simd) (m : mem) (data len : nat) (delim : ascii) :
  first_stop (fun i => detail.is_field_end delim (byte_at m (data + i))) len
             (detail.find_field_end arch m data len delim).
Proof.
  unfold detail.find_field_end. apply scan_spec. intros p.
  rewrite !cmpeq_lanes, !vor_lanes. reflexivity.
Qed.

Lemma find_newline_spec (arch : Simd) (m : mem) (data len : nat) :
  first_stop (fun i => detail.is_newline (byte_at m (data + i))) len
             (detail.find_newline arch m data len).
Proof.
  unfold detail.find_newline. apply scan_spec. intros p.
  rewrite cmpeq_lanes. reflexivity.
Qed.

Lemma is_field_end_iff (delim c : ascii) :
  detail.is_field_end delim c = true <-> c = delim \/ c = LF \/ c = CR.
Proof.
  unfold detail.is_field_end. rewrite !orb_true_iff, !Ascii.eqb_eq. tauto.
Qed.

Lemma is_field_end_false (delim c : ascii) :
  detail.is_field_end delim c = false <-> c <> delim /\ c <> LF /\ c <> CR.
Proof.
  rewrite <- not_true_iff_false, is_field_end_iff. tauto.
Qed.

(** C4.  On every memory, for every window [[data, data + len)] and every
    delimiter, and for each of the three bodies the preprocessor can select
    (NEON, SSE2, scalar): [find_field_end] returns an offset [r <= len]; if
    [r < len] the byte at [r] is the delimiter, LF or CR; no byte before [r]
    is one of them.  [find_newline] does the same for LF alone.  Hence each
    returns the least matching index, or [len] when there is none, whether
    [len < 16] or [len >= 16]. *)
Theorem scanners_return_least_index
        (arch : Simd) (m : mem) (data len : nat) (delim : ascii) :
  (let r := detail.find_field_end arch m data len delim in
   r <= len
   /\ (r < len -> let c := byte_at m (data + r) in c = delim \/ c = LF \/ c = CR)
   /\ (forall i, i < r ->
         let c := byte_at m (data + i) in c <> delim /\ c <> LF /\ c <> CR))
  /\
  (let r := detail.find_newline arch m data len in
   r <= len
   /\ (r < len -> byte_at m (data + r) = LF)
   /\ (forall i, i < r -> byte_at m (data + i) <> LF)).
Proof.
  split.
  - destruct (find_field_end_spec arch m data len delim) as (H1 & H2 & H3).
    cbv zeta. split; [exact H1 | split].
    + intros Hr. apply is_field_end_iff, H2, Hr.
    + intros i Hi. apply is_field_end_false, H3, Hi.
  - destruct (find_newline_spec arch m data len) as (H1 & H2 & H3).
    cbv zeta. split; [exact H1 | split].
    + intros Hr. apply Ascii.eqb_eq, H2, Hr.
    + intros i Hi. apply Ascii.eqb_neq, H3, Hi.
Qed.

(** ** Integer parsing *)

Arguments is_digit : simpl never.
Arguments digit_val : simpl never.

Lemma span_digits_app (s : list ascii) :
  s = fst (span_digits s) ++ snd (span_digits s).
Proof.
  induction s as [|c s IH]; [reflexivity|]. simpl.
  destruct (is_digit c); [|reflexivity].
  destruct (span_digits s) as [ds rest]. simpl in *. congruence.
Qed.

Lemma span_digits_fst (s : list ascii) :
  Forall (fun c => is_digit c = true) (fst (span_digits s)).
Proof.
  induction s as [|c s IH]; simpl; [constructor|].
  destruct (is_digit c) eqn:E; [|constructor].
  destruct (span_digits s) as [ds rest]. simpl in *. constructor; assumption.
Qed.

Lemma span_digits_snd (s : list ascii) : no_digit_ahead (snd (span_digits s)).
Proof.
  induction s as [|c s IH]; simpl; [exact I|].
  destruct (is_digit c) eqn:E; [|exact E].
  destruct (span_digits s) as [ds rest]. exact IH.
Qed.

Lemma span_digits_unique (ds rest : list ascii) :
  Forall (fun c => is_digit c = true) ds -> no_digit_ahead rest ->
  span_digits (ds ++ rest) = (ds, rest).
Proof.
  intros Hds Hrest. induction Hds as [|c ds Hc Hds IH]; simpl.
  - destruct rest as [|c rest]; [reflexivity|]. simpl in *. rewrite Hrest. reflexivity.
  - rewrite Hc, IH. reflexivity.
Qed.

Lemma slice_uncons (m : mem) (b e : nat) (c : ascii) (s : list ascii) :
  b <= e -> e <= length m -> slice m b e = c :: s ->
  b < e /\ byte_at m b = c /\ slice m (S b) e = s.
Proof.
  intros Hbe He H.
  assert (b < e).
  { destruct (Nat.eq_dec b e) as [-> | Hne]; [rewrite slice_nil in H; discriminate | lia]. }
  rewrite slice_cons in H by lia. inversion H; subst. auto.
Qed.

Lemma digits_run_slice (m : mem) (s : list ascii) :
  forall p e acc, p <= e -> e <= length m -> slice m p e = s ->
  digits_run m (e - p) p acc =
  (p + length (fst (span_digits s)),
   fold_left (fun a c => a * 10 + digit_val c)%Z (fst (span_digits s)) acc).
Proof.
  induction s as [|c s IH]; intros p e acc Hpe He Hs.
  - assert (e - p = 0).
    { rewrite <- (slice_length m Hpe He), Hs. reflexivity. }
    rewrite H. simpl. f_equal. lia.
  - destruct (slice_uncons m Hpe He Hs) as (Hlt & Hc & Hs').
    replace (e - p) with (S (e - S p)) by lia. cbn [digits_run span_digits].
    rewrite Hc. destruct (is_digit c).
    + rewrite (IH (S p) e) by (auto; lia).
      destruct (span_digits s) as [ds rest]. simpl. f_equal. lia.
    + simpl. f_equal. lia.
Qed.

Lemma minus_not_digit : is_digit "-" = false.
Proof. reflexivity. Qed.

Lemma plus_not_digit : is_digit "+" = false.
Proof. reflexivity. Qed.

(** [from_chars] on a slice, read off the bytes of the slice. *)
Lemma from_chars_slice (T : IntType) (m : mem) (b e : nat) (v0 : Z) :
  b <= e -> e <= length m ->
  let s := slice m b e in
  let neg := int_signed T && match s with c :: _ => Ascii.eqb c "-" | [] => false end in
  let body := if neg then tl s else s in
  let ds := fst (span_digits body) in
  from_chars T m b e v0 =
  match ds with
  | [] => (b, invalid_argument, v0)
  | _ :: _ =>
      let v := (if neg then - dec_value ds else dec_value ds)%Z in
      if ((int_min T <=? v) && (v <=? int_max T))%Z
      then (e - length (snd (span_digits body)), errc_ok, v)
      else (e - length (snd (span_digits body)), result_out_of_range, v0)
  end.
Proof.
  intros Hbe He s neg body ds. unfold from_chars.
  assert (Hneg : int_signed T && (b <? e) && Ascii.eqb (byte_at m b) "-" = neg).
  { unfold neg. rewrite <- andb_assoc. f_equal.
    destruct s as [|c s'] eqn:Es.
    - assert (e - b = 0) by (rewrite <- (slice_length m Hbe He); fold s; rewrite Es; reflexivity).
      destruct (Nat.ltb_spec b e); [lia | reflexivity].
    - destruct (slice_uncons m Hbe He Es) as (Hlt & Hc & _).
      rewrite Hc. destruct (Nat.ltb_spec b e); [reflexivity | lia]. }
  rewrite Hneg.
  set (start := if neg then S b else b).
  assert (Hbody : start <= e /\ slice m start e = body).
  { unfold start, body. destruct neg eqn:En; [|auto].
    unfold neg in En. apply andb_true_iff in En. destruct En as [_ En].
    destruct s as [|c s'] eqn:Es; [discriminate|].
    destruct (slice_uncons m Hbe He Es) as (Hlt & _ & Hs'). simpl. auto. }
  destruct Hbody as [Hstart Hbody].
  rewrite (digits_run_slice (s := body) m 0 Hstart He Hbody). fold ds.
  pose proof (span_digits_app body) as Happ. fold ds in Happ.
  assert (Hlen : length ds + length (snd (span_digits body)) = e - start).
  { assert (L : length body = e - start) by (rewrite <- Hbody; apply slice_length; auto).
    apply (f_equal (@length ascii)) in Happ. rewrite length_app in Happ. lia. }
  destruct ds as [|d ds'] eqn:Eds.
  - rewrite Nat.add_0_r, Nat.eqb_refl. reflexivity.
  - destruct (Nat.eqb_spec (start + length (d :: ds')) start) as [Hc | _];
      [simpl in Hc; lia|].
    fold (dec_value (d :: ds')).
    replace (start + length (d :: ds')) with (e - length (snd (span_digits body))) by lia.
    reflexivity.
Qed.

Lemma fits_dec (T : IntType) (v : Z) :
  ((int_min T <=? v) && (v <=? int_max T))%Z = true <-> fits T v.
Proof. unfold fits. rewrite andb_true_iff, !Z.leb_le. tauto. Qed.

(** What [parse<T>()] returns, read off the bytes of the field. *)
Lemma parse_cases (T : IntType) (m : mem) (f : FieldRef) :
  begin_ f <= end_ f -> end_ f <= length m ->
  let s := Field.view m f in
  let neg := int_signed T && match s with c :: _ => Ascii.eqb c "-" | [] => false end in
  let body := if neg then tl s else s in
  let ds := fst (span_digits body) in
  let rest := snd (span_digits body) in
  let v := (if neg then - dec_value ds else dec_value ds)%Z in
  Field.parse T m f =
  match ds with
  | [] => unexpected InvalidInteger
  | _ :: _ =>
      if ((int_min T <=? v) && (v <=? int_max T))%Z
      then match rest with [] => value v | _ :: _ => unexpected InvalidInteger end
      else unexpected OutOfRange
  end.
Proof.
  intros Hbe He s neg body ds rest v. unfold Field.parse.
  rewrite (from_chars_slice T m 0 Hbe He).
  fold (Field.view m f). fold s. fold neg. fold body. fold ds. fold rest.
  destruct ds as [|d ds'] eqn:Eds; [reflexivity|]. cbv zeta. fold v.
  destruct ((int_min T <=? v) && (v <=? int_max T))%Z; [|reflexivity].
  assert (Hlen : length rest <= end_ f - begin_ f).
  { pose proof (span_digits_app body) as Happ.
    apply (f_equal (@length ascii)) in Happ. rewrite length_app in Happ.
    assert (length body <= length s) by (unfold body; destruct neg, s; simpl; lia).
    unfold s, Field.view in H. rewrite slice_length in H by assumption.
    fold rest in Happ. lia. }
  destruct rest as [|c rest'].
  - simpl. rewrite Nat.sub_0_r, Nat.eqb_refl. reflexivity.
  - simpl in *. destruct (Nat.eqb_spec (end_ f - S (length rest')) (end_ f)); [lia | reflexivity].
Qed.

Lemma all_digits_head (ds : list ascii) :
  all_digits ds -> match ds with c :: _ => Ascii.eqb c "-" | [] => false end = false.
Proof.
  intros [Hne Hall]. destruct ds as [|c ds]; [reflexivity|].
  inversion Hall; subst. apply Ascii.eqb_neq. intros ->.
  rewrite minus_not_digit in *. discriminate.
Qed.

(** A numeral in front of bytes that cannot extend it is what the parser
    splits off. *)
Lemma numeral_split (T : IntType) (pre rest : list ascii) (v : Z) :
  numeral T pre v -> no_digit_ahead rest ->
  let s := pre ++ rest in
  let neg := int_signed T && match s with c :: _ => Ascii.eqb c "-" | [] => false end in
  let body := if neg then tl s else s in
  exists ds, ds <> [] /\ span_digits body = (ds, rest)
             /\ v = (if neg then - dec_value ds else dec_value ds)%Z.
Proof.
  intros Hn Hrest. destruct Hn as [ds Hds | ds Hs Hds]; cbv zeta.
  - assert (E : match ds ++ rest with c :: _ => Ascii.eqb c "-" | [] => false end = false).
    { pose proof (all_digits_head Hds). destruct Hds as [Hne _].
      destruct ds; [congruence | exact H]. }
    rewrite E, andb_false_r. exists ds. destruct Hds as [Hne Hall].
    split; [exact Hne|]. split; [apply span_digits_unique; assumption | reflexivity].
  - cbn [app]. rewrite Hs. cbn [andb Ascii.eqb Bool.eqb tl].
    exists ds. destruct Hds as [Hne Hall].
    split; [exact Hne|]. split; [apply span_digits_unique; assumption | reflexivity].
Qed.

(** Conversely, what the parser splits off is a numeral. *)
Lemma split_numeral (T : IntType) (s : list ascii) :
  let neg := int_signed T && match s with c :: _ => Ascii.eqb c "-" | [] => false end in
  let body := if neg then tl s else s in
  let ds := fst (span_digits body) in
  let rest := snd (span_digits body) in
  ds <> [] ->
  exists pre, s = pre ++ rest /\ no_digit_ahead rest
              /\ numeral T pre (if neg then - dec_value ds else dec_value ds)%Z.
Proof.
  intros neg body ds rest Hne.
  assert (Hds : all_digits ds) by (split; [exact Hne | apply span_digits_fst]).
  pose proof (span_digits_app body) as Happ. fold ds rest in Happ.
  pose proof (span_digits_snd body) as Hrest. fold rest in Hrest.
  destruct neg eqn:En.
  - unfold neg in En. apply andb_true_iff in En. destruct En as [Hs Hc].
    destruct s as [|c s']; [discriminate|]. apply Ascii.eqb_eq in Hc. subst c.
    exists ("-"%char :: ds). split; [|split; [exact Hrest | constructor; assumption]].
    unfold body in Happ. simpl in Happ. simpl. congruence.
  - exists ds. split; [exact Happ | split; [exact Hrest | constructor; exact Hds]].
Qed.

Lemma parse_amended (T : IntType) (m : mem) (f : FieldRef) :
  begin_ f <= end_ f -> end_ f <= length m ->
  (forall v, Field.parse T m f = value v <-> numeral T (Field.view m f) v /\ fits T v)
  /\ (Field.parse T m f = unexpected OutOfRange <->
      exists pre rest v, Field.view m f = pre ++ rest /\ numeral T pre v
                         /\ no_digit_ahead rest /\ ~ fits T v)
  /\ ((exists v, Field.parse T m f = value v)
      \/ Field.parse T m f = unexpected OutOfRange
      \/ Field.parse T m f = unexpected InvalidInteger).
Proof.
  intros Hbe He. pose proof (@parse_cases T m f Hbe He) as Hp. cbv zeta in Hp.
  set (s := Field.view m f) in *.
  set (neg := int_signed T && match s with c :: _ => Ascii.eqb c "-" | [] => false end) in *.
  set (body := if neg then tl s else s) in *.
  pose proof (@split_numeral T s) as Hsplit. cbv zeta in Hsplit.
  fold neg body in Hsplit.
  assert (Hback : forall pre rest v, s = pre ++ rest -> numeral T pre v ->
            no_digit_ahead rest ->
            exists ds, ds <> [] /\ span_digits body = (ds, rest)
                       /\ v = (if neg then - dec_value ds else dec_value ds)%Z).
  { intros pre rest v Hs Hn Hr. pose proof (@numeral_split T pre rest v Hn Hr) as H.
    cbv zeta in H. rewrite <- Hs in H. exact H. }
  destruct (span_digits body) as [ds rest] eqn:Esp. cbn [fst snd] in *.
  set (v0 := (if neg then - dec_value ds else dec_value ds)%Z) in *.
  pose proof (fits_dec T v0) as Hfit.
  split; [|split].
  - intros v. split.
    + intros H. rewrite Hp in H. destruct ds as [|d ds']; [discriminate|].
      destruct ((int_min T <=? v0) && (v0 <=? int_max T))%Z; [|discriminate].
      destruct rest; [|discriminate]. inversion H; subst v.
      destruct Hsplit as (pre & Hs & _ & Hn); [discriminate|].
      rewrite app_nil_r in Hs. subst pre. split; [exact Hn | apply Hfit; reflexivity].
    + intros [Hn Hf].
      destruct (Hback s [] v) as (ds' & Hne & E & Hv);
        [symmetry; apply app_nil_r | exact Hn | exact I |].
      inversion E; subst ds' rest. rewrite Hp. destruct ds as [|d ds']; [congruence|].
      fold v0 in Hv. subst v. apply Hfit in Hf. rewrite Hf. reflexivity.
  - split.
    + intros H. rewrite Hp in H. destruct ds as [|d ds']; [discriminate|].
      destruct ((int_min T <=? v0) && (v0 <=? int_max T))%Z eqn:E.
      * destruct rest; discriminate.
      * destruct Hsplit as (pre & Hs & Hr & Hn); [discriminate|].
        exists pre, rest, v0. repeat split; try assumption.
        intros Hf. apply Hfit in Hf. congruence.
    + intros (pre & rest' & v & Hs & Hn & Hr & Hnf).
      destruct (Hback pre rest' v Hs Hn Hr) as (ds' & Hne & E & Hv).
      inversion E; subst ds' rest'. rewrite Hp. destruct ds as [|d ds']; [congruence|].
      fold v0 in Hv. subst v.
      destruct ((int_min T <=? v0) && (v0 <=? int_max T))%Z; [|reflexivity].
      exfalso. apply Hnf, Hfit. reflexivity.
  - rewrite Hp. destruct ds as [|d ds']; [auto|].
    destruct ((int_min T <=? v0) && (v0 <=? int_max T))%Z; [|auto].
    destruct rest; eauto.
Qed.

(** C5, as stated, fails: a signed numeral with a leading ['+'] is one of
    the specification's numerals and fits, and [parse<int32_t>()] rejects
    it with InvalidInteger. *)
Lemma parse_plus_sign_counterexample :
  spec_numeral int32_t (str "+5") 5 /\ fits int32_t 5
  /\ Field.parse int32_t (str "+5") {| begin_ := 0; end_ := 2 |} = unexpected InvalidInteger.
Proof.
  split; [|split].
  - apply (@spec_plus int32_t (str "5")); [reflexivity|].
    split; [discriminate | repeat constructor].
  - unfold fits. cbv. split; discriminate.
  - reflexivity.
Qed.

(** The other departure: a numeral that does not fit is reported as
    OutOfRange even when the slice goes on after it. *)
Lemma parse_out_of_range_with_trailing_bytes :
  Field.parse int32_t (str "99999999999x") {| begin_ := 0; end_ := 12 |}
  = unexpected OutOfRange.
Proof. reflexivity. Qed.

(** C5, amended.  For every field slice inside the mapping and every
    integral type: [parse<T>()] succeeds with [v] exactly when the whole
    slice is a numeral of value [v] that fits the type, a numeral being an
    optional ['-'] (signed types only, never ['+']) followed by one or more
    decimal digits; it fails with OutOfRange exactly when the slice starts
    with a numeral, its digit run taken as long as possible, whose value
    does not fit, whatever follows it; every other failure is
    InvalidInteger. *)
Theorem parse_integer_amended (T : IntType) (m : mem) (f : FieldRef) :
  begin_ f <= end_ f -> end_ f <= length m ->
  (forall v, Field.parse T m f = value v <-> numeral T (Field.view m f) v /\ fits T v)
  /\ (Field.parse T m f = unexpected OutOfRange <->
      exists pre rest v, Field.view m f = pre ++ rest /\ numeral T pre v
                         /\ no_digit_ahead rest /\ ~ fits T v)
  /\ ((exists v, Field.parse T m f = value v)
      \/ Field.parse T m f = unexpected OutOfRange
      \/ Field.parse T m f = unexpected InvalidInteger).
Proof. intros Hbe He. apply parse_amended; assumption. Qed.

Lemma parse_integer_amended_witness :
  let m := str "a,-123,b" in
  let f := {| begin_ := 2; end_ := 6 |} in
  (begin_ f <= end_ f /\ end_ f <= length m)
  /\ Field.parse int32_t m f = value (-123)%Z.
Proof.
  split; [simpl; lia|].
  apply (proj1 (@parse_integer_amended int32_t (str "a,-123,b")
                  {| begin_ := 2; end_ := 6 |} ltac:(simpl; lia) ltac:(simpl; lia))).
  split.
  - apply (@numeral_minus int32_t (str "123")); [reflexivity|].
    split; [discriminate | repeat constructor].
  - unfold fits. cbv. split; discriminate.
Defined.

(** ** Date parsing *)

Lemma slice_sub (m : mem) (b e k n : nat) :
  b + k + n <= e ->
  slice m (b + k) (b + k + n) = firstn n (skipn k (slice m b e)).
Proof.
  intros H. unfold slice.
  rewrite skipn_firstn_comm, skipn_skipn, firstn_firstn.
  replace (b + k + n - (b + k)) with n by lia.
  replace (Nat.min n (e - b - k)) with n by lia.
  rewrite (Nat.add_comm k b). reflexivity.
Qed.

Lemma byte_at_slice (m : mem) (b e k : nat) :
  b + k < e -> e <= length m -> byte_at m (b + k) = nth k (slice m b e) zero.
Proof.
  intros H He. unfold slice, byte_at.
  rewrite nth_firstn. destruct (Nat.ltb_spec k (e - b)); [|lia].
  rewrite nth_skipn. reflexivity.
Qed.

Lemma digit_val_range (c : ascii) : is_digit c = true -> (0 <= digit_val c <= 9)%Z.
Proof.
  unfold is_digit, digit_val, u8. rewrite andb_true_iff, !Nat.leb_le. lia.
Qed.

Lemma from_chars_all_digits (m : mem) (b : nat) (ds : list ascii) :
  all_digits ds -> slice m b (b + length ds) = ds -> b + length ds <= length m ->
  (dec_value ds <= int_max int32_t)%Z -> (0 <= dec_value ds)%Z ->
  from_chars int32_t m b (b + length ds) 0 = (b + length ds, errc_ok, dec_value ds).
Proof.
  intros Hds Hs He Hmax Hmin.
  rewrite from_chars_slice by lia. rewrite Hs.
  rewrite (all_digits_head Hds), andb_false_r.
  destruct Hds as [Hne Hall].
  assert (Sp : span_digits ds = (ds, [])).
  { rewrite <- (app_nil_r ds) at 1. apply span_digits_unique; [exact Hall | exact I]. }
  rewrite Sp. cbn [fst snd length].
  destruct ds as [|d ds']; [congruence|].
  destruct ((int_min int32_t <=? dec_value (d :: ds')) &&
            (dec_value (d :: ds') <=? int_max int32_t))%Z eqn:E.
  - rewrite Nat.sub_0_r. reflexivity.
  - exfalso. apply andb_false_iff in E. rewrite !Z.leb_gt in E.
    assert (int_min int32_t < 0)%Z by reflexivity. lia.
Qed.

Lemma mod_400_4 (y : Z) : (y mod 400 = 0 -> y mod 4 = 0)%Z.
Proof.
  intros H. apply Z.mod_divide in H; [|lia]. apply Z.mod_divide; [lia|].
  destruct H as [k ->]. exists (100 * k)%Z. lia.
Qed.

Lemma last_day_days_in_month (y mo : Z) :
  (1 <= mo <= 12)%Z ->
  last_day_of_month y mo = days_in_month y mo /\ (days_in_month y mo <= 31)%Z.
Proof.
  intros H.
  assert (Hl : is_leap y = leap_year y).
  { unfold is_leap, leap_year.
    destruct (y mod 4 =? 0)%Z eqn:E4, (y mod 100 =? 0)%Z eqn:E100,
             (y mod 400 =? 0)%Z eqn:E400; try reflexivity;
      exfalso; apply Z.eqb_eq in E400; apply Z.eqb_neq in E4;
      apply E4, mod_400_4, E400. }
  assert (C : (mo = 1 \/ mo = 2 \/ mo = 3 \/ mo = 4 \/ mo = 5 \/ mo = 6 \/ mo = 7
               \/ mo = 8 \/ mo = 9 \/ mo = 10 \/ mo = 11 \/ mo = 12)%Z) by lia.
  unfold last_day_of_month, days_in_month. rewrite Hl.
  repeat (destruct C as [-> | C];
          [destruct (leap_year y); (split; [reflexivity | apply Z.leb_le; reflexivity])|]).
  subst mo. destruct (leap_year y); (split; [reflexivity | apply Z.leb_le; reflexivity]).
Qed.

Lemma ymd_ok_calendar (y mo d : Z) :
  (-32767 <= y <= 32767)%Z ->
  ymd_ok {| ymd_year := y; ymd_month := mo; ymd_day := d |} = calendar_valid y mo d.
Proof.
  intros Hy. unfold ymd_ok, calendar_valid. cbn [ymd_year ymd_month ymd_day].
  destruct (Z.leb_spec (-32767) y); [|lia]. destruct (Z.leb_spec y 32767); [|lia].
  cbn [andb].
  destruct (Z.leb_spec 1 mo); [|reflexivity].
  destruct (Z.leb_spec mo 12); [|reflexivity]. cbn [andb].
  destruct (@last_day_days_in_month y mo) as [E L]; [lia|]. rewrite E.
  destruct (Z.leb_spec 1 d); [|reflexivity]. cbn [andb].
  destruct (Z.leb_spec d (days_in_month y mo)); destruct (Z.leb_spec d 31);
    try reflexivity; lia.
Qed.

Lemma parse_date_short (m : mem) (f : FieldRef) :
  Field.size f < 10 -> Field.parse_date m f = unexpected InvalidDate.
Proof.
  intros H. unfold Field.parse_date.
  destruct (Nat.ltb_spec (Field.size f) 10); [reflexivity | lia].
Qed.

Lemma parse_date_only_error (m : mem) (f : FieldRef) (e : ErrorCode) :
  Field.parse_date m f = unexpected e -> e = InvalidDate.
Proof.
  unfold Field.parse_date.
  repeat match goal with
         | |- context [from_chars ?T ?m ?a ?b ?v] =>
             destruct (from_chars T m a b v) as [[? ?] ?]
         | |- context [if ?c then _ else _] => destruct c
         end; intros H; inversion H; reflexivity.
Qed.

Lemma parse_date_iso (m : mem) (f : FieldRef) (y mo d : Z) :
  10 <= Field.size f -> end_ f <= length m ->
  iso_date_form (slice m (begin_ f) (begin_ f + 10)) y mo d ->
  Field.parse_date m f =
  if calendar_valid y mo d
  then value {| ymd_year := y; ymd_month := mo; ymd_day := d |}
  else unexpected InvalidDate.
Proof.
  destruct f as [b e]. unfold Field.size. cbn [begin_ end_].
  intros Hsz He (y1 & y2 & y3 & y4 & m1 & m2 & d1 & d2 & Hs & Hdig & -> & -> & ->).
  assert (Hb : b + 10 <= length m) by lia.
  assert (Hsub : forall k n, k + n <= 10 ->
            slice m (b + k) (b + k + n) =
            firstn n (skipn k [y1; y2; y3; y4; "-"%char; m1; m2; "-"%char; d1; d2])).
  { intros k n H. rewrite <- Hs. apply slice_sub. lia. }
  assert (Hbyte : forall k, k < 10 ->
            byte_at m (b + k) =
            nth k [y1; y2; y3; y4; "-"%char; m1; m2; "-"%char; d1; d2] zero).
  { intros k H. rewrite <- Hs. apply byte_at_slice; lia. }
  repeat match goal with
         | H : Forall _ (_ :: _) |- _ => inversion H; clear H; subst
         end.
  repeat match goal with
         | H : is_digit ?c = true |- _ =>
             let R := fresh "R" in pose proof (digit_val_range c H) as R;
             revert H
         end.
  intros Dd2 Dd1 Dm2 Dm1 Dy4 Dy3 Dy2 Dy1.
  assert (Fy : from_chars int32_t m b (b + 4) 0 = (b + 4, errc_ok, dec_value [y1; y2; y3; y4])).
  { apply (@from_chars_all_digits m b [y1; y2; y3; y4]).
    - split; [discriminate | repeat constructor; assumption].
    - rewrite <- (Nat.add_0_r b) at 1 2. apply (Hsub 0 4). lia.
    - simpl. lia.
    - unfold dec_value. cbn [fold_left]. change (int_max int32_t) with 2147483647%Z. lia.
    - unfold dec_value. cbn [fold_left]. lia. }
  assert (Fm : from_chars int32_t m (b + 5) (b + 7) 0 = (b + 7, errc_ok, dec_value [m1; m2])).
  { replace (b + 7) with (b + 5 + length [m1; m2]) by (simpl; lia).
    apply (@from_chars_all_digits m (b + 5) [m1; m2]).
    - split; [discriminate | repeat constructor; assumption].
    - apply (Hsub 5 2). lia.
    - simpl. lia.
    - unfold dec_value. cbn [fold_left]. change (int_max int32_t) with 2147483647%Z. lia.
    - unfold dec_value. cbn [fold_left]. lia. }
  assert (Fd : from_chars int32_t m (b + 8) (b + 10) 0 = (b + 10, errc_ok, dec_value [d1; d2])).
  { replace (b + 10) with (b + 8 + length [d1; d2]) by (simpl; lia).
    apply (@from_chars_all_digits m (b + 8) [d1; d2]).
    - split; [discriminate | repeat constructor; assumption].
    - apply (Hsub 8 2). lia.
    - simpl. lia.
    - unfold dec_value. cbn [fold_left]. change (int_max int32_t) with 2147483647%Z. lia.
    - unfold dec_value. cbn [fold_left]. lia. }
  unfold Field.parse_date, Field.size. cbn [begin_ end_].
  destruct (Nat.ltb_spec (e - b) 10); [lia|].
  rewrite Fy, Fm, Fd, (Hbyte 4), (Hbyte 7) by lia. cbn [nth Ascii.eqb Bool.eqb andb negb orb].
  set (Y := dec_value [y1; y2; y3; y4]). set (M := dec_value [m1; m2]).
  set (D := dec_value [d1; d2]).
  assert (HY : (0 <= Y <= 9999)%Z) by (unfold Y, dec_value; cbn [fold_left]; lia).
  assert (HM : (0 <= M <= 99)%Z) by (unfold M, dec_value; cbn [fold_left]; lia).
  assert (HD : (0 <= D <= 99)%Z) by (unfold D, dec_value; cbn [fold_left]; lia).
  assert (EY : to_short Y = Y) by (unfold to_short; rewrite Z.mod_small; lia).
  assert (EM : to_uchar (to_unsigned M) = M).
  { unfold to_unsigned. change (2 ^ 32)%Z with 4294967296%Z.
    rewrite (Z.mod_small M) by lia. unfold to_uchar. apply Z.mod_small. lia. }
  assert (ED : to_uchar (to_unsigned D) = D).
  { unfold to_unsigned. change (2 ^ 32)%Z with 4294967296%Z.
    rewrite (Z.mod_small D) by lia. unfold to_uchar. apply Z.mod_small. lia. }
  unfold make_ymd. rewrite EY, EM, ED, ymd_ok_calendar by lia.
  destruct (calendar_valid Y M D); reflexivity.
Qed.

(** C6, as stated, fails: a slice longer than ten bytes that starts with a
    valid date is accepted. *)
Lemma parse_date_long_slice_counterexample :
  Field.size {| begin_ := 0; end_ := 19 |} = 19
  /\ Field.parse_date (str "2024-02-29T10:30:45") {| begin_ := 0; end_ := 19 |}
     = value {| ymd_year := 2024; ymd_month := 2; ymd_day := 29 |}.
Proof. split; reflexivity. Qed.

(** The scenario S6. *)
Lemma parse_date_scenario :
  let m := str "d" ++ [LF] ++ str "2024-02-29" ++ [LF] ++ str "2023-02-29" ++ [LF]
           ++ str "2024-13-01" ++ [LF] in
  Field.parse_date m {| begin_ := 2; end_ := 12 |}
  = value {| ymd_year := 2024; ymd_month := 2; ymd_day := 29 |}
  /\ Field.parse_date m {| begin_ := 13; end_ := 23 |} = unexpected InvalidDate
  /\ Field.parse_date m {| begin_ := 24; end_ := 34 |} = unexpected InvalidDate.
Proof. repeat split. Qed.

(** C6, amended.  [parse_date()] returns InvalidDate on every slice shorter
    than ten bytes, and InvalidDate is its only error.  On a slice of ten
    bytes or more whose first ten bytes have the form YYYY-MM-DD it succeeds
    exactly when they denote a calendar-valid date (month 1-12, day valid
    for the month and year, leap years included) and returns that date, so
    bytes after the tenth are not looked at.  On "2024-02-29" it succeeds,
    on "2023-02-29" and "2024-13-01" it returns InvalidDate. *)
Theorem parse_date_amended (m : mem) (f : FieldRef) :
  end_ f <= length m ->
  (Field.size f < 10 -> Field.parse_date m f = unexpected InvalidDate)
  /\ (forall e, Field.parse_date m f = unexpected e -> e = InvalidDate)
  /\ (forall y mo d,
        10 <= Field.size f ->
        iso_date_form (slice m (begin_ f) (begin_ f + 10)) y mo d ->
        Field.parse_date m f =
        if calendar_valid y mo d
        then value {| ymd_year := y; ymd_month := mo; ymd_day := d |}
        else unexpected InvalidDate)
  /\ Field.parse_date (str "2024-02-29") {| begin_ := 0; end_ := 10 |}
     = value {| ymd_year := 2024; ymd_month := 2; ymd_day := 29 |}
  /\ Field.parse_date (str "2023-02-29") {| begin_ := 0; end_ := 10 |}
     = unexpected InvalidDate
  /\ Field.parse_date (str "2024-13-01") {| begin_ := 0; end_ := 10 |}
     = unexpected InvalidDate.
Proof.
  intros He. split; [apply parse_date_short|].
  split; [apply parse_date_only_error|].
  split; [intros y mo d Hsz Hform; apply parse_date_iso; assumption|].
  repeat split.
Qed.

Lemma parse_date_amended_witness :
  let m := str "2024-02-29 23:59:59" in
  let f := {| begin_ := 0; end_ := 19 |} in
  end_ f <= length m
  /\ Field.parse_date m f = value {| ymd_year := 2024; ymd_month := 2; ymd_day := 29 |}.
Proof.
  split; [simpl; lia|].
  apply (proj1 (proj2 (proj2
           (@parse_date_amended (str "2024-02-29 23:59:59") {| begin_ := 0; end_ := 19 |}
              ltac:(simpl; lia)))) 2024 2 29)%Z.
  - unfold Field.size. simpl. lia.
  - exists "2"%char, "0"%char, "2"%char, "4"%char, "0"%char, "2"%char, "2"%char, "9"%char.
    repeat split. repeat constructor.
Defined.

(** ** Loops *)

Section WhileLoop.
Variable St : Type.
Variable cond : St -> bool.
Variable body : St -> St * bool.

Lemma while_loop_stop (fuel : nat) (s : St) :
  cond s = false -> while_loop cond body fuel s = Some s.
Proof. intros H. destruct fuel; simpl; rewrite H; reflexivity. Qed.

Lemma while_loop_step (fuel : nat) (s : St) :
  cond s = true ->
  while_loop cond body (S fuel) s =
  if snd (body s) then Some (fst (body s)) else while_loop cond body fuel (fst (body s)).
Proof. intros H. simpl. rewrite H. destruct (body s); reflexivity. Qed.

(** An invariant of the body holds when the loop returns. *)
Lemma while_loop_invariant (P : St -> Prop) :
  (forall s, P s -> cond s = true -> P (fst (body s))) ->
  forall fuel s s', P s -> while_loop cond body fuel s = Some s' -> P s'.
Proof.
  intros Hstep. induction fuel as [|fuel IH]; intros s s' Hs H; simpl in H.
  - destruct (cond s); [discriminate | inversion H; subst; exact Hs].
  - destruct (cond s) eqn:Ec; [| inversion H; subst; exact Hs].
    specialize (Hstep s Hs Ec). destruct (body s) as [s1 brk]. simpl in Hstep.
    destruct brk; [inversion H; subst; exact Hstep | exact (IH s1 s' Hstep H)].
Qed.

(** A loop that returns has either run out of iterations to make or
    executed [break]. *)
Lemma while_loop_exit (fuel : nat) (s s' : St) :
  while_loop cond body fuel s = Some s' ->
  cond s' = false \/ exists s0, cond s0 = true /\ body s0 = (s', true).
Proof.
  revert s. induction fuel as [|fuel IH]; intros s H; simpl in H.
  - destruct (cond s) eqn:Ec; [discriminate | inversion H; subst; auto].
  - destruct (cond s) eqn:Ec; [| inversion H; subst; auto].
    destruct (body s) as [s1 brk] eqn:Eb.
    destruct brk; [inversion H; subst; right; exists s; auto | exact (IH s1 H)].
Qed.

(** With a measure the body decreases, fuel above the measure is enough. *)
Lemma while_loop_total (mu : St -> nat) :
  (forall s, cond s = true -> mu (fst (body s)) < mu s) ->
  forall fuel s, mu s <= fuel -> exists s', while_loop cond body fuel s = Some s'.
Proof.
  intros Hdec. induction fuel as [|fuel IH]; intros s Hmu; simpl.
  - destruct (cond s) eqn:Ec; [|eauto]. specialize (Hdec s Ec). lia.
  - destruct (cond s) eqn:Ec; [|eauto].
    specialize (Hdec s Ec). destruct (body s) as [s1 brk]. simpl in Hdec.
    destruct brk; [eauto|]. apply IH. lia.
Qed.
End WhileLoop.

(** ** Row scanning: progress, bounds and independence of the arrays *)

Lemma length_upd (A : Type) (a : list A) (k : nat) (v : A) :
  length (upd a k v) = length a.
Proof.
  revert k; induction a as [|x a IH]; intros k; [reflexivity|].
  destruct k; simpl; auto.
Qed.

Lemma nth_upd (A : Type) (a : list A) (k i : nat) (v d : A) :
  k < length a -> nth i (upd a k v) d = if i =? k then v else nth i a d.
Proof.
  revert k i; induction a as [|x a IH]; intros k i Hk; simpl in Hk; [lia|].
  destruct k, i; simpl; try reflexivity. apply IH. lia.
Qed.

Lemma upd_agree (col v : nat) (a b : list nat) :
  col < length a -> col < length b -> agree col a b ->
  agree (S col) (upd a col v) (upd b col v).
Proof.
  intros Ha Hb H i Hi. rewrite !nth_upd by assumption.
  destruct (Nat.eqb_spec i col); [reflexivity | apply H; lia].
Qed.

Lemma agree_weaken (k k' : nat) (a b : list nat) :
  k' <= k -> agree k a b -> agree k' a b.
Proof. intros Hk H i Hi. apply H. lia. Qed.

Section RowFacts.
Variable arch : Simd.
Variable Columns : nat.
Variable Delim : ascii.
Variable m : mem.

Lemma make_fields_agree (s1 e1 s2 e2 : list nat) :
  agree Columns s1 s2 -> agree Columns e1 e2 ->
  make_fields Columns s1 e1 = make_fields Columns s2 e2.
Proof.
  intros Hs He. unfold make_fields. apply map_ext_in. intros i Hi.
  apply in_seq in Hi. rewrite Hs, He by lia. reflexivity.
Qed.

(** The field loop run on two pairs of arrays: same pointer, same column
    count, and the slots written agree. *)
Lemma split_fields_agree : forall n eff ptr col s1 e1 s2 e2,
  length s1 = Columns -> length e1 = Columns ->
  length s2 = Columns -> length e2 = Columns ->
  agree col s1 s2 -> agree col e1 e2 ->
  exists p c s1' e1' s2' e2',
    split_fields arch Columns Delim m n eff ptr col s1 e1 = (p, c, s1', e1')
    /\ split_fields arch Columns Delim m n eff ptr col s2 e2 = (p, c, s2', e2')
    /\ length s1' = Columns /\ length e1' = Columns
    /\ length s2' = Columns /\ length e2' = Columns
    /\ agree c s1' s2' /\ agree c e1' e2' /\ col <= c.
Proof.
  induction n as [|n IH]; intros eff ptr col s1 e1 s2 e2 L1 L2 L3 L4 As Ae;
    cbn [split_fields].
  - exists ptr, col, s1, e1, s2, e2. repeat split; auto.
  - destruct (Nat.ltb_spec col Columns) as [Hc | Hc]; cbn [andb];
      [| exists ptr, col, s1, e1, s2, e2; repeat split; auto].
    destruct (ptr <? eff);
      [| exists ptr, col, s1, e1, s2, e2; repeat split; auto].
    cbv zeta.
    match goal with
    | |- context [split_fields _ _ _ _ n eff ?p (S col) (upd s1 col ptr) (upd e1 col ?q)] =>
        destruct (IH eff p (S col) (upd s1 col ptr) (upd e1 col q)
                     (upd s2 col ptr) (upd e2 col q))
          as (p' & c & s1' & e1' & s2' & e2' & E1 & E2 & M1 & M2 & M3 & M4 & A1 & A2 & Hle)
    end; try (rewrite length_upd; assumption);
      try (apply upd_agree; (assumption || lia)).
    exists p', c, s1', e1', s2', e2'. repeat split; auto. lia.
Qed.

Lemma split_fields_le : forall n eff ptr col s e,
  col <= Columns ->
  snd (fst (fst (split_fields arch Columns Delim m n eff ptr col s e))) <= Columns.
Proof.
  induction n as [|n IH]; intros eff ptr col s e Hc; cbn [split_fields]; [exact Hc|].
  destruct (Nat.ltb_spec col Columns) as [Hlt | Hge]; cbn [andb]; [|exact Hc].
  destruct (ptr <? eff); [|exact Hc]. cbv zeta. apply IH. lia.
Qed.

(** [scan_row] run on two pairs of arrays. *)
Lemma scan_row_agree (current end_ : nat) (s1 e1 s2 e2 : list nat) :
  length s1 = Columns -> length e1 = Columns ->
  length s2 = Columns -> length e2 = Columns ->
  let r1 := scan_row arch Columns Delim m current end_ s1 e1 in
  let r2 := scan_row arch Columns Delim m current end_ s2 e2 in
  rs_current r1 = rs_current r2 /\ rs_col r1 = rs_col r2
  /\ length (rs_starts r1) = Columns /\ length (rs_ends r1) = Columns
  /\ length (rs_starts r2) = Columns /\ length (rs_ends r2) = Columns
  /\ (forall c, rs_col r1 = Some c ->
        c <= Columns /\ agree c (rs_starts r1) (rs_starts r2)
        /\ agree c (rs_ends r1) (rs_ends r2)).
Proof.
  intros L1 L2 L3 L4. unfold scan_row.
  destruct (Ascii.eqb (byte_at m current) LF);
    [cbn; repeat split; auto; congruence|].
  destruct (Ascii.eqb (byte_at m current) CR);
    [cbn; repeat split; auto; congruence|].
  cbv zeta.
  match goal with
  | |- context [split_fields _ _ _ _ Columns ?eff current 0 s1 e1] =>
      set (eff0 := eff);
      destruct (@split_fields_agree Columns eff0 current 0 s1 e1 s2 e2)
        as (p & c & s1' & e1' & s2' & e2' & E1 & E2 & M1 & M2 & M3 & M4 & A1 & A2 & _);
      auto; try (intros i Hi; lia)
  end.
  pose proof (@split_fields_le Columns eff0 current 0 s1 e1 (Nat.le_0_l _)) as Hle.
  rewrite E1, E2. rewrite E1 in Hle. cbn [fst snd] in Hle.
  assert (Hlast : 0 < c -> nth (c - 1) e1' 0 = nth (c - 1) e2' 0)
    by (intros H; apply A2; lia).
  destruct (Nat.ltb_spec 0 c) as [Hpos | Hzero]; cbn [andb];
    [rewrite <- (Hlast Hpos);
     destruct (Nat.ltb_spec c Columns) as [Hlt | Hge]; cbn [andb];
     [destruct ((nth (c - 1) e1' 0 <? eff0)
                && Ascii.eqb (byte_at m (nth (c - 1) e1' 0)) Delim)|]|];
    cbn [rs_current rs_col rs_starts rs_ends]; rewrite ?length_upd;
    (split; [reflexivity|]); (split; [reflexivity|]);
    (split; [assumption|]); (split; [assumption|]);
    (split; [assumption|]); (split; [assumption|]);
    intros c' Hc'; inversion Hc'; subst c';
    (split; [lia|]);
    (split; [first [assumption | apply upd_agree; (assumption || lia)]
            | first [assumption | apply upd_agree; (assumption || lia)]]).
Qed.

(** Every pass moves the cursor forward and keeps it inside the range. *)
Lemma scan_row_progress (current end_ : nat) (s e : list nat) :
  current < end_ ->
  current < rs_current (scan_row arch Columns Delim m current end_ s e) <= end_.
Proof.
  intros H. unfold scan_row.
  destruct (Ascii.eqb (byte_at m current) LF); [cbn; lia|].
  destruct (Ascii.eqb (byte_at m current) CR).
  - cbn [rs_current]. destruct (Nat.ltb_spec (S current) end_); cbn [andb].
    + destruct (Ascii.eqb (byte_at m (S current)) LF); lia.
    + lia.
  - cbv zeta.
    match goal with
    | |- context [split_fields ?a ?b ?c ?d ?n ?eff ?p ?col ?x ?y] =>
        destruct (split_fields a b c d n eff p col x y) as [[[p' c'] s'] e']
    end.
    pose proof (find_newline_spec arch m current (end_ - current)) as (Hl & _).
    match goal with
    | |- context [if ?t then (_, _, _) else _] => destruct t
    end; cbn [rs_current];
      destruct (Nat.ltb_spec (current + detail.find_newline arch m current (end_ - current)) end_);
      lia.
Qed.

(** A range that ends just after a line feed can be cut there: a pass that
    starts before the cut does not notice whether the range ends at the cut
    or later, and does not step over the cut. *)
Lemma scan_row_cut (current cut end_ : nat) (s e : list nat) :
  current < cut -> cut <= end_ -> byte_at m (cut - 1) = LF ->
  scan_row arch Columns Delim m current cut s e
  = scan_row arch Columns Delim m current end_ s e
  /\ rs_current (scan_row arch Columns Delim m current end_ s e) <= cut.
Proof.
  intros Hlt Hle Hlf. unfold scan_row.
  destruct (Ascii.eqb (byte_at m current) LF); [cbn; split; [reflexivity | lia]|].
  destruct (Ascii.eqb_spec (byte_at m current) CR) as [Hcr | Hncr].
  - assert (S current < cut).
    { destruct (Nat.eq_dec (S current) cut) as [E | E]; [|lia].
      subst cut. replace (S current - 1) with current in Hlf by lia.
      rewrite Hlf in Hcr. discriminate. }
    destruct (Nat.ltb_spec (S current) cut); [|lia].
    destruct (Nat.ltb_spec (S current) end_); [|lia]. cbn [andb rs_current].
    split; [reflexivity|]. destruct (Ascii.eqb (byte_at m (S current)) LF); lia.
  - cbv zeta.
    assert (Hnl : detail.find_newline arch m current (cut - current)
                  = detail.find_newline arch m current (end_ - current)
                  /\ current + detail.find_newline arch m current (end_ - current) < cut).
    { pose proof (find_newline_spec arch m current (cut - current)) as (H1 & H2 & H3).
      pose proof (find_newline_spec arch m current (end_ - current)) as Hend.
      set (r := detail.find_newline arch m current (cut - current)) in *.
      assert (Hr : r < cut - current).
      { destruct (Nat.eq_dec r (cut - current)) as [E | E]; [|lia].
        specialize (H3 (cut - 1 - current)).
        replace (current + (cut - 1 - current)) with (cut - 1) in H3 by lia.
        unfold detail.is_newline in H3. rewrite Hlf in H3.
        assert (cut - 1 - current < r) by lia. specialize (H3 H). discriminate. }
      assert (E : r = detail.find_newline arch m current (end_ - current)).
      { eapply first_stop_unique; [|exact Hend].
        repeat split; [lia | intros _; apply H2; exact Hr | exact H3]. }
      split; [exact E | rewrite <- E; lia]. }
    destruct Hnl as [E Hcut]. rewrite E.
    set (L := detail.find_newline arch m current (end_ - current)) in *.
    destruct (Nat.ltb_spec (current + L) cut); [|lia].
    destruct (Nat.ltb_spec (current + L) end_); [|lia].
    split; [reflexivity|].
    match goal with
    | |- context [split_fields ?a ?b ?c ?d ?n ?eff ?p ?col ?x ?y] =>
        destruct (split_fields a b c d n eff p col x y) as [[[p' c'] s'] e']
    end.
    match goal with
    | |- context [if ?t then (_, _, _) else _] => destruct t
    end; cbn [rs_current]; lia.
Qed.
End RowFacts.

(** ** The reader's loops *)

Section ReaderFacts.
Variable arch : Simd.
Variable Columns : nat.
Variable Delim : ascii.
Variable EP : ErrorPolicy.
Variables indet_starts indet_ends : nat -> nat.

Lemma for_each_raw_body_frame (U : Type) (cb : U -> list nat -> list nat -> U)
      (st : Reader.loop_state U) :
  frame arch Columns Delim st (fst (Reader.for_each_raw_body arch Columns Delim EP cb st))
  /\ snd (Reader.for_each_raw_body arch Columns Delim EP cb st) = false.
Proof.
  unfold frame, Reader.for_each_raw_body. cbv zeta.
  destruct (track_line EP); cbn [Reader.bump_line Reader.source_ Reader.current_ Reader.end_];
    destruct (rs_col _); try destruct (enabled EP && negb (_ =? Columns));
    cbn; auto 10.
Qed.

Lemma for_each_until_body_frame (U : Type) (cb : U -> list FieldRef -> U * bool)
      (st : Reader.loop_state U) :
  frame arch Columns Delim st (fst (Reader.for_each_until_body arch Columns Delim EP cb st)).
Proof.
  unfold frame, Reader.for_each_until_body. cbv zeta.
  destruct (track_line EP); cbn [Reader.bump_line Reader.source_ Reader.current_ Reader.end_];
    destruct (rs_col _); try destruct (enabled EP && negb (_ =? Columns));
    try destruct (cb _ _); cbn; auto 10.
Qed.

Lemma frame_decreases (U : Type) (st st' : Reader.loop_state U) :
  Reader.running st = true -> frame arch Columns Delim st st' -> remaining st' < remaining st.
Proof.
  unfold Reader.running, remaining. intros Hrun (_ & He & _ & Hc & _).
  apply Nat.ltb_lt in Hrun. rewrite He, Hc.
  pose proof (@scan_row_progress arch Columns Delim
                (data (Reader.source_ (Reader.ls_reader st)))
                (Reader.current_ (Reader.ls_reader st))
                (Reader.end_ (Reader.ls_reader st))
                (Reader.ls_starts st) (Reader.ls_ends st) Hrun).
  lia.
Qed.

(** [for_each_raw] returns, whatever the input and the callback. *)
Lemma for_each_raw_total (U : Type) (cb : U -> list nat -> list nat -> U)
      (r : Reader.t) (u : U) :
  exists n r' u',
    Reader.for_each_raw arch Columns Delim EP indet_starts indet_ends cb r u
    = Some (n, r', u').
Proof.
  unfold Reader.for_each_raw.
  destruct (@while_loop_total _ (@Reader.running U)
              (Reader.for_each_raw_body arch Columns Delim EP cb) (@remaining U))
    with (fuel := Reader.end_ r - Reader.current_ r)
         (s := Reader.initial Columns indet_starts indet_ends r u) as [st' E].
  - intros s Hs. apply frame_decreases; [exact Hs | apply for_each_raw_body_frame].
  - reflexivity.
  - rewrite E. exists (Reader.ls_count st'), (Reader.ls_reader st'), (Reader.ls_user st').
    reflexivity.
Qed.


(** [for_each_raw] stops only with the cursor at the end of the range. *)
Lemma for_each_raw_exhausts (U : Type) (cb : U -> list nat -> list nat -> U)
      (r r' : Reader.t) (u u' : U) (n : nat) :
  Reader.for_each_raw arch Columns Delim EP indet_starts indet_ends cb r u
  = Some (n, r', u') ->
  Reader.end_ r' <= Reader.current_ r'.
Proof.
  unfold Reader.for_each_raw. intros H.
  destruct (while_loop _ _ _ _) as [st'|] eqn:E; [|discriminate].
  inversion H; subst. apply while_loop_exit in E. destruct E as [E | (s0 & _ & E)].
  - unfold Reader.running in E. apply Nat.ltb_ge in E. exact E.
  - pose proof (for_each_raw_body_frame cb s0) as [_ Hb]. rewrite E in Hb. discriminate.
Qed.

(** The column names survive every iteration call. *)
Lemma for_each_raw_names (U : Type) (cb : U -> list nat -> list nat -> U)
      (r r' : Reader.t) (u u' : U) (n : nat) :
  Reader.for_each_raw arch Columns Delim EP indet_starts indet_ends cb r u
  = Some (n, r', u') ->
  Reader.column_names_ r' = Reader.column_names_ r.
Proof.
  unfold Reader.for_each_raw. intros H.
  destruct (while_loop _ _ _ _) as [st'|] eqn:E; [|discriminate].
  inversion H; subst.
  apply (@while_loop_invariant _ _ _
           (fun st => Reader.column_names_ (Reader.ls_reader st) = Reader.column_names_ r))
    in E; [exact E | | reflexivity].
  intros s Hs _. destruct (for_each_raw_body_frame cb s) as [(_ & _ & Hn & _) _]. congruence.
Qed.

Lemma for_each_until_names (U : Type) (cb : U -> list FieldRef -> U * bool)
      (r r' : Reader.t) (u u' : U) (n : nat) :
  Reader.for_each_until arch Columns Delim EP indet_starts indet_ends cb r u
  = Some (n, r', u') ->
  Reader.column_names_ r' = Reader.column_names_ r.
Proof.
  unfold Reader.for_each_until. intros H.
  destruct (while_loop _ _ _ _) as [st'|] eqn:E; [|discriminate].
  inversion H; subst.
  apply (@while_loop_invariant _ _ _
           (fun st => Reader.column_names_ (Reader.ls_reader st) = Reader.column_names_ r))
    in E; [exact E | | reflexivity].
  intros s Hs _. destruct (for_each_until_body_frame cb s) as (_ & _ & Hn & _). congruence.
Qed.

Lemma header_fields_length (m : mem) : forall n eff ptr col names,
  length (Reader.header_fields arch Columns Delim m n eff ptr col names) = length names.
Proof.
  induction n as [|n IH]; intros eff ptr col names; cbn [Reader.header_fields]; [reflexivity|].
  destruct ((col <? Columns) && (ptr <? eff)); [|reflexivity].
  cbv zeta. rewrite IH, length_upd. reflexivity.
Qed.

Lemma new_names_length (file : option (list ascii)) (skip_header : bool) :
  length (Reader.column_names_ (Reader.new arch Columns Delim EP file skip_header)) = Columns.
Proof.
  unfold Reader.new. destruct (skip_header && valid (MmapSource_open file));
    cbn [Reader.column_names_]; [|apply repeat_length].
  unfold Reader.parse_header. cbn [Reader.end_ Reader.current_].
  destruct (size (MmapSource_open file) <=? 0); cbn [Reader.column_names_];
    [apply repeat_length|].
  destruct (track_line EP); cbn; rewrite header_fields_length; apply repeat_length.
Qed.

Lemma reachable_names_length (r : Reader.t) :
  reachable arch Columns Delim EP indet_starts indet_ends r ->
  length (Reader.column_names_ r) = Columns.
Proof.
  induction 1 as [file skip | U cb r u n r' u' _ IH H | U cb r u n r' u' _ IH H].
  - apply new_names_length.
  - rewrite (for_each_raw_names _ _ _ H). exact IH.
  - rewrite (for_each_until_names _ _ _ H). exact IH.
Qed.

Lemma column_name_cases (r : Reader.t) (idx : nat) :
  length (Reader.column_names_ r) = Columns ->
  (Columns <= idx -> Reader.column_name Columns r idx = Some sv_empty)
  /\ (idx < Columns ->
      exists sv, nth_error (Reader.column_names_ r) idx = Some sv
                 /\ Reader.column_name Columns r idx = Some sv).
Proof.
  intros Hlen. unfold Reader.column_name. split; intros H.
  - destruct (Nat.ltb_spec idx Columns); [lia | reflexivity].
  - destruct (Nat.ltb_spec idx Columns); [|lia].
    destruct (nth_error (Reader.column_names_ r) idx) as [sv|] eqn:E; [eauto|].
    apply nth_error_None in E. lia.
Qed.

(** Once the cursor is at the end of the range, no loop body runs. *)
Lemma exhausted_calls (U : Type) (r : Reader.t) (u : U)
      (cb_raw : U -> list nat -> list nat -> U) (cb : U -> list FieldRef -> U)
      (cb_until : U -> list FieldRef -> U * bool) :
  Reader.end_ r <= Reader.current_ r ->
  Reader.for_each_raw arch Columns Delim EP indet_starts indet_ends cb_raw r u = Some (0, r, u)
  /\ Reader.for_each arch Columns Delim EP indet_starts indet_ends cb r u = Some (0, r, u)
  /\ Reader.for_each_until arch Columns Delim EP indet_starts indet_ends cb_until r u
     = Some (0, r, u).
Proof.
  intros H.
  assert (Hstop : forall u0 : U,
            Reader.running (Reader.initial Columns indet_starts indet_ends r u0) = false)
    by (intros u0; unfold Reader.running; cbn; apply Nat.ltb_ge; exact H).
  unfold Reader.for_each, Reader.for_each_raw, Reader.for_each_until.
  rewrite !while_loop_stop by apply Hstop. repeat split.
Qed.
End ReaderFacts.

(** ** The reader: scenarios, error recording, one-shot iteration, headers *)

(** Evaluate the call on the left of the goal, then read the result off. *)
Ltac run_call :=
  match goal with
  | |- ?call = _ =>
      let x := fresh "x" in
      set (x := call); vm_compute in x; subst x; reflexivity
  end.

(** C1.  A single-threaded Checked reader (error policy basic) with N = 3
    and D = ',' over "a,b,c\n1,2,3\n4,5\n6,7,8\n", header skipped, whichever
    scanner body is compiled in: [for_each] returns 2 after invoking the
    callback exactly twice, on the rows 1,2,3 and 6,7,8; afterwards
    [last_error().code] is ColumnCountMismatch and [last_error().line] is 3. *)
Theorem scenario_S3_checked_reader (arch : Simd) (indet_starts indet_ends : nat -> nat) :
  let r := Reader.new arch 3 "," CheckedPolicy (Some scenario_S3) true in
  exists r' log,
    Reader.for_each arch 3 "," CheckedPolicy indet_starts indet_ends log_fields r []
    = Some (2, r', log)
    /\ length log = 2
    /\ map (map (Field.view scenario_S3)) log
       = [[str "1"; str "2"; str "3"]; [str "6"; str "7"; str "8"]]
    /\ code (Reader.last_error CheckedPolicy r') = ColumnCountMismatch
    /\ line (Reader.last_error CheckedPolicy r') = 3%Z.
Proof.
  destruct arch; cbv zeta; eexists; eexists; (split; [run_call|]);
    (split; [reflexivity|]); (split; [vm_compute; reflexivity|]); split; reflexivity.
Qed.

Section ErrorRecording.
Variable arch : Simd.
Variable Columns : nat.
Variable Delim : ascii.
Variable EP : ErrorPolicy.

(** In [for_each_raw] (and so in [for_each]) a row whose field count is not
    [Columns] is recorded and not handed to the callback. *)
Lemma for_each_raw_records_mismatch (U : Type) (cb : U -> list nat -> list nat -> U)
      (st : Reader.loop_state U) (col : nat) :
  enabled EP = true ->
  let r := if track_line EP then Reader.bump_line (Reader.ls_reader st)
           else Reader.ls_reader st in
  rs_col (scan_row arch Columns Delim (data (Reader.source_ r)) (Reader.current_ r)
                   (Reader.end_ r) (Reader.ls_starts st) (Reader.ls_ends st)) = Some col ->
  col <> Columns ->
  let st' := fst (Reader.for_each_raw_body arch Columns Delim EP cb st) in
  Reader.last_error_ (Reader.ls_reader st')
  = {| code := ColumnCountMismatch;
       line := if track_line EP then Reader.line_number_ r else 0%Z;
       column := (Z.of_nat col mod 256)%Z |}
  /\ Reader.ls_user st' = Reader.ls_user st
  /\ Reader.ls_count st' = Reader.ls_count st.
Proof.
  intros Hen r Hcol Hne. unfold Reader.for_each_raw_body. fold r. rewrite Hcol, Hen.
  destruct (Nat.eqb_spec col Columns); [contradiction|]. cbn. auto.
Qed.

(** [for_each_until] skips such a row too, but leaves [last_error_] as it
    was. *)
Lemma for_each_until_skips_silently (U : Type) (cb : U -> list FieldRef -> U * bool)
      (st : Reader.loop_state U) (col : nat) :
  enabled EP = true ->
  let r := if track_line EP then Reader.bump_line (Reader.ls_reader st)
           else Reader.ls_reader st in
  rs_col (scan_row arch Columns Delim (data (Reader.source_ r)) (Reader.current_ r)
                   (Reader.end_ r) (Reader.ls_starts st) (Reader.ls_ends st)) = Some col ->
  col <> Columns ->
  let st' := fst (Reader.for_each_until_body arch Columns Delim EP cb st) in
  Reader.last_error_ (Reader.ls_reader st') = Reader.last_error_ (Reader.ls_reader st)
  /\ Reader.ls_user st' = Reader.ls_user st
  /\ Reader.ls_count st' = Reader.ls_count st.
Proof.
  intros Hen r Hcol Hne. unfold Reader.for_each_until_body. fold r. rewrite Hcol, Hen.
  destruct (Nat.eqb_spec col Columns); [contradiction|]. cbn.
  unfold r. destruct (track_line EP); auto.
Qed.
End ErrorRecording.

(** C2 at a failing input.  A Checked reader with N = 3 over "a,b,c\n4,5\n":
    [for_each_until] skips the two-field row without invoking the callback
    and returns 0, and [last_error()] still reports Ok with line 0, while
    [for_each] over the same file records ColumnCountMismatch at line 2
    with column count 2. *)
Theorem for_each_until_omits_mismatch_record (arch : Simd)
        (indet_starts indet_ends : nat -> nat) :
  let r := Reader.new arch 3 "," CheckedPolicy (Some short_row_file) true in
  (exists r',
      Reader.for_each_until arch 3 "," CheckedPolicy indet_starts indet_ends
                            (log_until 10) r [] = Some (0, r', [])
      /\ Reader.last_error CheckedPolicy r' = ErrorInfo_default
      /\ Reader.has_error CheckedPolicy r' = false)
  /\ (exists r',
      Reader.for_each arch 3 "," CheckedPolicy indet_starts indet_ends log_fields r []
      = Some (0, r', [])
      /\ Reader.last_error CheckedPolicy r'
         = {| code := ColumnCountMismatch; line := 2; column := 2 |}).
Proof.
  destruct arch; cbv zeta; split; eexists; (split; [run_call|]);
    try (split; reflexivity); reflexivity.
Qed.

(** C9.  A reader whose cursor is at the end of its range stays there:
    [for_each_raw], [for_each] and [for_each_until] each return 0, leave
    the reader as it is and never invoke the callback (the user state is
    unchanged, whatever the callback). *)
Theorem iteration_is_one_shot (arch : Simd) (Columns : nat) (Delim : ascii)
        (EP : ErrorPolicy) (indet_starts indet_ends : nat -> nat)
        (U : Type) (r : Reader.t) (u : U)
        (cb_raw : U -> list nat -> list nat -> U) (cb : U -> list FieldRef -> U)
        (cb_until : U -> list FieldRef -> U * bool) :
  Reader.end_ r <= Reader.current_ r ->
  Reader.for_each_raw arch Columns Delim EP indet_starts indet_ends cb_raw r u = Some (0, r, u)
  /\ Reader.for_each arch Columns Delim EP indet_starts indet_ends cb r u = Some (0, r, u)
  /\ Reader.for_each_until arch Columns Delim EP indet_starts indet_ends cb_until r u
     = Some (0, r, u).
Proof. intros H. apply exhausted_calls. exact H. Qed.

(** A reader whose header is the whole file, and the reader the scenario
    S3 leaves behind: both are at the end of their range. *)
Lemma iteration_is_one_shot_witness :
  let r := Reader.new Scalar 3 "," CheckedPolicy (Some (str "a,b,c")) true in
  Reader.end_ r <= Reader.current_ r
  /\ Reader.for_each_raw Scalar 3 "," CheckedPolicy (fun _ => 0) (fun _ => 0) log_raw r []
     = Some (0, r, []).
Proof.
  cbv zeta. split; [apply Nat.leb_le; reflexivity|].
  apply (@iteration_is_one_shot Scalar 3 "," CheckedPolicy (fun _ => 0) (fun _ => 0)
           _ (Reader.new Scalar 3 "," CheckedPolicy (Some (str "a,b,c")) true) []
           log_raw (fun u _ => u) (fun u _ => (u, true))).
  apply Nat.leb_le. reflexivity.
Defined.

Lemma second_call_after_scenario_S3 (arch : Simd) (indet_starts indet_ends : nat -> nat) :
  let r := Reader.new arch 3 "," CheckedPolicy (Some scenario_S3) true in
  exists n r' log,
    Reader.for_each arch 3 "," CheckedPolicy indet_starts indet_ends log_fields r []
    = Some (n, r', log)
    /\ Reader.for_each arch 3 "," CheckedPolicy indet_starts indet_ends log_fields r' []
       = Some (0, r', []).
Proof.
  cbv zeta.
  destruct (for_each_raw_total arch 3 "," CheckedPolicy indet_starts indet_ends
              (fun u starts ends => log_fields u (make_fields 3 starts ends))
              (Reader.new arch 3 "," CheckedPolicy (Some scenario_S3) true) [])
    as (n & r' & log & E).
  exists n, r', log. split; [exact E|].
  apply exhausted_calls with (cb_raw := fun u _ _ => u) (cb_until := fun u _ => (u, true)).
  exact (for_each_raw_exhausts _ _ _ _ _ _ _ _ _ E).
Qed.

(** C10.  On every reader the public interface can produce and for every
    index, [column_name] is defined: at or beyond [Columns] it is the empty
    view and the array is not read; below [Columns] the array access is in
    bounds and the result is the stored header slice. *)
Theorem column_name_total (arch : Simd) (Columns : nat) (Delim : ascii)
        (EP : ErrorPolicy) (indet_starts indet_ends : nat -> nat)
        (r : Reader.t) (idx : nat) :
  reachable arch Columns Delim EP indet_starts indet_ends r ->
  (Columns <= idx -> Reader.column_name Columns r idx = Some sv_empty)
  /\ (idx < Columns ->
      exists sv, nth_error (Reader.column_names_ r) idx = Some sv
                 /\ Reader.column_name Columns r idx = Some sv).
Proof.
  intros H. apply column_name_cases. exact (reachable_names_length H).
Qed.

Lemma column_name_total_witness :
  let r := Reader.new Scalar 3 "," CheckedPolicy (Some scenario_S3) true in
  reachable Scalar 3 "," CheckedPolicy (fun _ => 0) (fun _ => 0) r
  /\ Reader.column_name 3 r 3 = Some sv_empty.
Proof.
  cbv zeta. split; [apply reach_new|].
  apply (proj1 (@column_name_total Scalar 3 "," CheckedPolicy (fun _ => 0) (fun _ => 0)
                  _ 3 (reach_new Scalar 3 "," CheckedPolicy (fun _ => 0) (fun _ => 0)
                                 (Some scenario_S3) true))).
  lia.
Defined.

(** The header slices of the scenario S3, and a short header. *)
Lemma column_name_examples :
  let r := Reader.new Scalar 3 "," CheckedPolicy (Some scenario_S3) true in
  map (fun i => option_map (sv_bytes scenario_S3) (Reader.column_name 3 r i)) [0; 1; 2; 3; 9]
  = [Some (str "a"); Some (str "b"); Some (str "c"); Some []; Some []]
  /\ map (Reader.column_name 3
            (Reader.new Scalar 3 "," CheckedPolicy (Some (str "a,b")) true)) [2; 3]
     = [Some sv_empty; Some sv_empty].
Proof. split; reflexivity. Qed.

(** ** Records of a range, and cutting a range at line boundaries *)

Section RecordFacts.
Variable arch : Simd.
Variable Columns : nat.
Variable Delim : ascii.
Variable m : mem.

Lemma next_row_progress (current end_ : nat) :
  current < end_ ->
  current < fst (next_row arch Columns Delim m current end_) <= end_.
Proof. intros H. unfold next_row. cbn [fst]. apply scan_row_progress. exact H. Qed.

Lemma records_fuel : forall f1 f2 current end_,
  end_ - current <= f1 -> end_ - current <= f2 ->
  records arch Columns Delim m f1 current end_ = records arch Columns Delim m f2 current end_.
Proof.
  induction f1 as [|f1 IH]; intros f2 current end_ H1 H2.
  - destruct f2; cbn [records]; [reflexivity|].
    destruct (Nat.ltb_spec current end_); [lia | reflexivity].
  - cbn [records]. destruct (Nat.ltb_spec current end_) as [Hlt | Hge].
    + destruct f2 as [|f2]; [lia|]. cbn [records].
      destruct (Nat.ltb_spec current end_); [|lia].
      pose proof (next_row_progress Hlt) as Hp.
      destruct (next_row arch Columns Delim m current end_) as [c' rec]. cbn [fst] in Hp.
      rewrite (IH f2 c' end_) by lia. reflexivity.
    + destruct f2; cbn [records]; [reflexivity|].
      destruct (Nat.ltb_spec current end_); [lia | reflexivity].
Qed.

Lemma all_records_nil (current end_ : nat) :
  end_ <= current -> all_records arch Columns Delim m current end_ = [].
Proof.
  intros H. unfold all_records. replace (end_ - current) with 0 by lia. reflexivity.
Qed.

Lemma all_records_step (current end_ : nat) :
  current < end_ ->
  all_records arch Columns Delim m current end_ =
  match snd (next_row arch Columns Delim m current end_) with
  | Some fields => [fields]
  | None => []
  end ++ all_records arch Columns Delim m (fst (next_row arch Columns Delim m current end_)) end_.
Proof.
  intros H. unfold all_records.
  replace (end_ - current) with (S (end_ - S current)) by lia. cbn [records].
  destruct (Nat.ltb_spec current end_); [|lia].
  pose proof (next_row_progress H) as Hp.
  destruct (next_row arch Columns Delim m current end_) as [c' rec]. cbn [fst snd] in *.
  rewrite (@records_fuel (end_ - S current) (end_ - c') c' end_) by lia.
  destruct rec; reflexivity.
Qed.

Lemma next_row_cut (current cut end_ : nat) :
  current < cut -> cut <= end_ -> byte_at m (cut - 1) = LF ->
  next_row arch Columns Delim m current cut = next_row arch Columns Delim m current end_
  /\ fst (next_row arch Columns Delim m current end_) <= cut.
Proof.
  intros H1 H2 H3. unfold next_row. cbn [fst].
  destruct (@scan_row_cut arch Columns Delim m current cut end_
              (repeat 0 Columns) (repeat 0 Columns) H1 H2 H3) as [E Hle].
  rewrite E. auto.
Qed.

(** The records of a range are those before a line boundary followed by
    those after it. *)
Lemma all_records_split (cut end_ : nat) :
  forall k current, cut - current <= k ->
  current <= cut -> cut <= end_ ->
  cut = current \/ cut = end_ \/ byte_at m (cut - 1) = LF ->
  all_records arch Columns Delim m current end_ =
  all_records arch Columns Delim m current cut ++ all_records arch Columns Delim m cut end_.
Proof.
  induction k as [|k IH]; intros current Hk H1 H2 Hb.
  - assert (cut = current) by lia. subst cut.
    rewrite (@all_records_nil current current) by lia. reflexivity.
  - destruct (Nat.eq_dec cut current) as [-> | Hne].
    { rewrite (@all_records_nil current current) by lia. reflexivity. }
    destruct (Nat.eq_dec cut end_) as [-> | Hne'].
    { rewrite (@all_records_nil end_ end_) by lia. rewrite app_nil_r. reflexivity. }
    assert (Hlf : byte_at m (cut - 1) = LF) by (destruct Hb as [? | [? | ?]]; congruence).
    assert (Hlt : current < cut) by lia.
    destruct (@next_row_cut current cut end_ Hlt H2 Hlf) as [E Hle].
    pose proof (@next_row_progress current end_ ltac:(lia)) as Hp.
    rewrite (@all_records_step current end_) by lia.
    rewrite (@all_records_step current cut) by lia.
    rewrite E. rewrite <- app_assoc. f_equal.
    apply IH; auto; lia.
Qed.
End RecordFacts.

(** ** Every loop delivers the records of its range *)

Section LoopRecords.
Variable arch : Simd.
Variable Columns : nat.
Variable Delim : ascii.

(** [scan_row] on any arrays of the right size, against [next_row]. *)
Lemma scan_row_next_row (m : mem) (current end_ : nat) (s e : list nat) :
  length s = Columns -> length e = Columns ->
  let rs := scan_row arch Columns Delim m current end_ s e in
  rs_current rs = fst (next_row arch Columns Delim m current end_)
  /\ length (rs_starts rs) = Columns /\ length (rs_ends rs) = Columns
  /\ match rs_col rs with
     | Some col =>
         if col =? Columns
         then snd (next_row arch Columns Delim m current end_)
              = Some (make_fields Columns (rs_starts rs) (rs_ends rs))
         else snd (next_row arch Columns Delim m current end_) = None
     | None => snd (next_row arch Columns Delim m current end_) = None
     end.
Proof.
  intros Ls Le.
  destruct (@scan_row_agree arch Columns Delim m current end_ s e
              (repeat 0 Columns) (repeat 0 Columns) Ls Le
              (repeat_length 0 Columns) (repeat_length 0 Columns))
    as (Hc & Hcol & L1 & L2 & _ & _ & Hag).
  cbv zeta in *. unfold next_row. cbn [fst snd]. rewrite <- Hcol.
  split; [exact Hc|]. split; [exact L1|]. split; [exact L2|].
  destruct (rs_col (scan_row arch Columns Delim m current end_ s e)) as [col|] eqn:E;
    [|reflexivity].
  destruct (Nat.eqb_spec col Columns) as [-> | Hne]; [|reflexivity].
  destruct (Hag Columns eq_refl) as (_ & As & Ae).
  f_equal. symmetry. apply make_fields_agree; assumption.
Qed.

Section ChunkLoop.
Variable U : Type.
Variable m : mem.
Variable end_ : nat.
Variable callback : U -> list FieldRef -> U.

Lemma parse_chunk_body_next_row (st : ParallelReader.chunk_state U) :
  length (ParallelReader.cs_starts st) = Columns ->
  length (ParallelReader.cs_ends st) = Columns ->
  let nr := next_row arch Columns Delim m (ParallelReader.cs_current st) end_ in
  let st1 := fst (ParallelReader.parse_chunk_body arch Columns Delim m end_ callback st) in
  snd (ParallelReader.parse_chunk_body arch Columns Delim m end_ callback st) = false
  /\ ParallelReader.cs_current st1 = fst nr
  /\ length (ParallelReader.cs_starts st1) = Columns
  /\ length (ParallelReader.cs_ends st1) = Columns
  /\ ParallelReader.cs_user st1
     = match snd nr with
       | Some fields => callback (ParallelReader.cs_user st) fields
       | None => ParallelReader.cs_user st
       end
  /\ ParallelReader.cs_count st1
     = match snd nr with
       | Some _ => S (ParallelReader.cs_count st)
       | None => ParallelReader.cs_count st
       end.
Proof.
  intros Ls Le.
  destruct (@scan_row_next_row m (ParallelReader.cs_current st) end_ _ _ Ls Le)
    as (Hc & L1 & L2 & Hrec).
  cbv zeta in *. unfold ParallelReader.parse_chunk_body.
  destruct (rs_col _) as [col|]; [destruct (col =? Columns)|];
    rewrite Hrec; cbn; auto 10.
Qed.

Lemma chunk_loop_records : forall fuel (st : ParallelReader.chunk_state U),
  length (ParallelReader.cs_starts st) = Columns ->
  length (ParallelReader.cs_ends st) = Columns ->
  end_ - ParallelReader.cs_current st <= fuel ->
  exists st',
    while_loop (ParallelReader.chunk_running end_)
               (ParallelReader.parse_chunk_body arch Columns Delim m end_ callback)
               fuel st = Some st'
    /\ ParallelReader.cs_user st'
       = fold_left callback
           (all_records arch Columns Delim m (ParallelReader.cs_current st) end_)
           (ParallelReader.cs_user st)
    /\ ParallelReader.cs_count st'
       = ParallelReader.cs_count st
         + length (all_records arch Columns Delim m (ParallelReader.cs_current st) end_).
Proof.
  induction fuel as [|fuel IH]; intros st Ls Le Hf.
  - exists st. rewrite while_loop_stop, all_records_nil by
        first [lia | unfold ParallelReader.chunk_running; apply Nat.ltb_ge; lia].
    cbn. auto.
  - destruct (Nat.ltb_spec (ParallelReader.cs_current st) end_) as [Hlt | Hge].
    + rewrite while_loop_step by (unfold ParallelReader.chunk_running; apply Nat.ltb_lt; lia).
      destruct (parse_chunk_body_next_row st Ls Le) as (Hb & Hc & L1 & L2 & Hu & Hn).
      cbv zeta in *. rewrite Hb.
      pose proof (@next_row_progress arch Columns Delim m _ _ Hlt) as Hp.
      destruct (IH _ L1 L2) as (st' & E & Eu & En); [rewrite Hc; lia|].
      exists st'. split; [exact E|].
      rewrite Eu, En, Hu, Hn, Hc, (@all_records_step arch Columns Delim m _ _ Hlt).
      destruct (snd (next_row arch Columns Delim m (ParallelReader.cs_current st) end_));
        cbn [app fold_left length]; split; (reflexivity || lia).
    + exists st. rewrite while_loop_stop, all_records_nil by
          first [lia | unfold ParallelReader.chunk_running; apply Nat.ltb_ge; lia].
      cbn. auto.
Qed.
End ChunkLoop.

Lemma fold_log_fields (recs : list (list FieldRef)) :
  forall log, fold_left log_fields recs log = log ++ recs.
Proof.
  induction recs as [|r recs IH]; intros log; cbn [fold_left].
  - symmetry. apply app_nil_r.
  - rewrite IH. unfold log_fields. rewrite <- app_assoc. reflexivity.
Qed.

(** [parse_chunk] returns, and hands the callback the records of its
    chunk in order. *)
Lemma parse_chunk_records (indet_starts indet_ends : nat -> nat)
      (m : mem) (start end_ : nat) :
  ParallelReader.parse_chunk arch Columns Delim indet_starts indet_ends m start end_
                             log_fields []
  = Some (length (all_records arch Columns Delim m start end_),
          all_records arch Columns Delim m start end_).
Proof.
  unfold ParallelReader.parse_chunk.
  destruct (@chunk_loop_records _ m end_ log_fields (end_ - start)
              {| ParallelReader.cs_current := start;
                 ParallelReader.cs_starts := uninitialized Columns indet_starts;
                 ParallelReader.cs_ends := uninitialized Columns indet_ends;
                 ParallelReader.cs_count := 0; ParallelReader.cs_user := [] |})
    as (st' & E & Eu & En);
    try (cbn; unfold uninitialized; rewrite length_map, length_seq; reflexivity);
    [cbn; lia|].
  rewrite E. cbn in *. rewrite Eu, En, fold_log_fields. reflexivity.
Qed.

Section ReaderLoop.
Variable EP : ErrorPolicy.
Hypothesis checked : enabled EP = true.
Variable U : Type.
Variable callback : U -> list FieldRef -> U.

Let raw (u : U) (starts ends : list nat) : U := callback u (make_fields Columns starts ends).

Lemma for_each_body_next_row (st : Reader.loop_state U) :
  length (Reader.ls_starts st) = Columns ->
  length (Reader.ls_ends st) = Columns ->
  let r := Reader.ls_reader st in
  let nr := next_row arch Columns Delim (data (Reader.source_ r))
                     (Reader.current_ r) (Reader.end_ r) in
  let st1 := fst (Reader.for_each_raw_body arch Columns Delim EP raw st) in
  length (Reader.ls_starts st1) = Columns
  /\ length (Reader.ls_ends st1) = Columns
  /\ Reader.current_ (Reader.ls_reader st1) = fst nr
  /\ Reader.ls_user st1
     = match snd nr with
       | Some fields => callback (Reader.ls_user st) fields
       | None => Reader.ls_user st
       end
  /\ Reader.ls_count st1
     = match snd nr with
       | Some _ => S (Reader.ls_count st)
       | None => Reader.ls_count st
       end.
Proof.
  intros Ls Le.
  destruct (@scan_row_next_row (data (Reader.source_ (Reader.ls_reader st)))
              (Reader.current_ (Reader.ls_reader st)) (Reader.end_ (Reader.ls_reader st))
              _ _ Ls Le) as (Hc & L1 & L2 & Hrec).
  cbv zeta in *. unfold Reader.for_each_raw_body. rewrite checked.
  destruct (track_line EP);
    cbn [Reader.bump_line Reader.source_ Reader.current_ Reader.end_];
    (destruct (rs_col _) as [col|]; [destruct (col =? Columns)|]);
    rewrite Hrec; cbn; auto 10.
Qed.

Lemma reader_loop_records (src : MmapSource) (e : nat) :
  forall fuel (st : Reader.loop_state U),
  Reader.source_ (Reader.ls_reader st) = src ->
  Reader.end_ (Reader.ls_reader st) = e ->
  length (Reader.ls_starts st) = Columns ->
  length (Reader.ls_ends st) = Columns ->
  e - Reader.current_ (Reader.ls_reader st) <= fuel ->
  exists st',
    while_loop (@Reader.running U) (Reader.for_each_raw_body arch Columns Delim EP raw)
               fuel st = Some st'
    /\ Reader.ls_user st'
       = fold_left callback
           (all_records arch Columns Delim (data src)
                        (Reader.current_ (Reader.ls_reader st)) e)
           (Reader.ls_user st)
    /\ Reader.ls_count st'
       = Reader.ls_count st
         + length (all_records arch Columns Delim (data src)
                               (Reader.current_ (Reader.ls_reader st)) e).
Proof.
  induction fuel as [|fuel IH]; intros st Hs He Ls Le Hf.
  - exists st. rewrite while_loop_stop, all_records_nil by
        first [lia | unfold Reader.running; apply Nat.ltb_ge; lia].
    cbn. auto.
  - destruct (Nat.ltb_spec (Reader.current_ (Reader.ls_reader st)) e) as [Hlt | Hge].
    + rewrite while_loop_step by (unfold Reader.running; apply Nat.ltb_lt; lia).
      destruct (for_each_raw_body_frame arch Columns Delim EP raw st)
        as ((Fs & Fe & _) & Hb).
      destruct (for_each_body_next_row st Ls Le) as (L1 & L2 & Hc & Hu & Hn).
      cbv zeta in *. rewrite Hb. rewrite Hs, He in *.
      pose proof (@next_row_progress arch Columns Delim (data src) _ _ Hlt) as Hp.
      destruct (IH _ Fs Fe L1 L2) as (st' & E & Eu & En); [rewrite Hc; lia|].
      exists st'. split; [exact E|].
      rewrite Eu, En, Hu, Hn, Hc, (@all_records_step arch Columns Delim (data src) _ _ Hlt).
      destruct (snd (next_row arch Columns Delim (data src)
                              (Reader.current_ (Reader.ls_reader st)) e));
        cbn [app fold_left length]; split; (reflexivity || lia).
    + exists st. rewrite while_loop_stop, all_records_nil by
          first [lia | unfold Reader.running; apply Nat.ltb_ge; lia].
      cbn. auto.
Qed.
End ReaderLoop.

(** With the error policy enabled, [for_each] returns and hands its
    callback the records of the range, in order. *)
Lemma for_each_records (EP : ErrorPolicy) (indet_starts indet_ends : nat -> nat)
      (r : Reader.t) :
  enabled EP = true ->
  exists r',
    Reader.for_each arch Columns Delim EP indet_starts indet_ends log_fields r []
    = Some (length (all_records arch Columns Delim (data (Reader.source_ r))
                                (Reader.current_ r) (Reader.end_ r)),
            r',
            all_records arch Columns Delim (data (Reader.source_ r))
                        (Reader.current_ r) (Reader.end_ r)).
Proof.
  intros Hen. unfold Reader.for_each, Reader.for_each_raw.
  destruct (@reader_loop_records EP Hen _ log_fields (Reader.source_ r) (Reader.end_ r)
              (Reader.end_ r - Reader.current_ r)
              (Reader.initial Columns indet_starts indet_ends r []))
    as (st' & E & Eu & En);
    try reflexivity;
    try (cbn; unfold uninitialized; rewrite length_map, length_seq; reflexivity).
  exists (Reader.ls_reader st'). rewrite E. cbn in *.
  unfold Reader.result. rewrite Eu, En, fold_log_fields. reflexivity.
Qed.
End LoopRecords.

(** ** Chunks *)

Section ChunkFacts.
Variable arch : Simd.
Variable Columns : nat.
Variable Delim : ascii.
Variables indet_starts indet_ends : nat -> nat.
Variable m : mem.

Local Notation "'recs'" := (all_records arch Columns Delim m).

Lemma run_workers_records (chunks : list (nat * nat)) :
  ParallelReader.run_workers arch Columns Delim indet_starts indet_ends m chunks
  = Some (map (fun c => (length (recs (fst c) (snd c)), recs (fst c) (snd c))) chunks).
Proof.
  induction chunks as [|[s e] chunks IH]; cbn [ParallelReader.run_workers map]; [reflexivity|].
  rewrite parse_chunk_records, IH. reflexivity.
Qed.

(** Every chunk ends at the end of the range or just after a line feed,
    so the chunks' records, in chunk order, are the records of the range. *)
Lemma cut_chunks_records (limit chunk_size : nat) :
  forall n chunk_start acc,
  chunk_start <= limit ->
  exists new chunk_start',
    ParallelReader.cut_chunks arch m limit chunk_size n chunk_start acc
    = (chunk_start', acc ++ new)
    /\ chunk_start' <= limit
    /\ flat_map (fun c => recs (fst c) (snd c)) new ++ recs chunk_start' limit
       = recs chunk_start limit.
Proof.
  induction n as [|n IH]; intros cs acc Hcs; cbn [ParallelReader.cut_chunks].
  - exists [], cs. rewrite app_nil_r. auto.
  - destruct (Nat.ltb_spec cs limit) as [Hlt | Hge];
      [| exists [], cs; rewrite app_nil_r; auto].
    cbv zeta.
    match goal with
    | |- context [ParallelReader.cut_chunks _ _ _ _ n ?a _] => set (A := a)
    end.
    assert (HA : cs <= A <= limit /\ (A = limit \/ byte_at m (A - 1) = LF)).
    { unfold A. destruct (Nat.leb_spec limit (cs + chunk_size)); [lia|].
      pose proof (find_newline_spec arch m (cs + chunk_size) (limit - (cs + chunk_size)))
        as (H1 & H2 & _).
      set (nl := detail.find_newline arch m (cs + chunk_size) (limit - (cs + chunk_size))) in *.
      destruct (Nat.ltb_spec (cs + chunk_size + nl) limit) as [Hin | Hout].
      - split; [lia|]. right.
        replace (S (cs + chunk_size + nl) - 1) with (cs + chunk_size + nl) by lia.
        apply Ascii.eqb_eq. apply H2. lia.
      - split; [lia|]. left. lia. }
    destruct HA as [Hran Hbound].
    destruct (IH A (acc ++ [(cs, A)])) as (new & cs' & E & Hle & Hrec); [lia|].
    exists ((cs, A) :: new), cs'. rewrite E, <- app_assoc. cbn [app flat_map fst snd].
    split; [reflexivity|]. split; [exact Hle|].
    rewrite <- app_assoc, Hrec. symmetry.
    apply (@all_records_split arch Columns Delim m A limit (A - cs) cs); try lia.
    destruct Hbound; auto.
Qed.

Lemma chunks_of_records (p : ParallelReader.t) :
  data (ParallelReader.source_ p) = m ->
  flat_map (fun c => recs (fst c) (snd c)) (ParallelReader.chunks_of arch p)
  = recs (ParallelReader.data_ p) (ParallelReader.data_ p + ParallelReader.size_ p).
Proof.
  intros Hm. unfold ParallelReader.chunks_of. rewrite Hm.
  set (limit := ParallelReader.data_ p + ParallelReader.size_ p).
  destruct (@cut_chunks_records limit (ParallelReader.size_ p / ParallelReader.num_threads_ p)
              (ParallelReader.num_threads_ p - 1) (ParallelReader.data_ p) [])
    as (new & cs' & E & Hle & Hrec); [unfold limit; lia|].
  rewrite E. cbn [app]. rewrite <- Hrec.
  destruct (Nat.ltb_spec cs' limit).
  - rewrite flat_map_app. cbn [flat_map fst snd]. rewrite app_nil_r. reflexivity.
  - rewrite (@all_records_nil arch Columns Delim m cs' limit) by lia.
    rewrite app_nil_r. reflexivity.
Qed.
End ChunkFacts.

Lemma fold_left_counts (A : Type) (ws : list (nat * A)) :
  forall acc, fold_left (fun a w => a + fst w) ws acc = acc + list_sum (map fst ws).
Proof.
  induction ws as [|w ws IH]; intros acc; simpl; [lia|].
  rewrite IH. lia.
Qed.

(** Both constructors skip the header the same way: the two readers work
    on the same bytes and the same range. *)
Lemma new_same_range (arch : Simd) (Columns : nat) (Delim : ascii) (EP : ErrorPolicy)
      (file : option (list ascii)) (K : nat) (skip_header : bool) :
  let r := Reader.new arch Columns Delim EP file skip_header in
  let p := ParallelReader.new arch Columns Delim file K skip_header in
  ParallelReader.source_ p = Reader.source_ r
  /\ ParallelReader.data_ p = Reader.current_ r
  /\ ParallelReader.data_ p + ParallelReader.size_ p = Reader.end_ r
  /\ ParallelReader.num_threads_ p = K.
Proof.
  cbv zeta. unfold Reader.new, ParallelReader.new.
  set (src := MmapSource_open file).
  destruct (skip_header && valid src) eqn:E; [|cbn; auto].
  assert (Hpos : 0 < size src).
  { apply andb_true_iff in E. destruct E as [_ E]. unfold src in *.
    destruct file as [bytes|]; [|discriminate]. cbn in *.
    destruct (Nat.eqb_spec (length bytes) 0); [discriminate | lia]. }
  unfold Reader.parse_header. cbn [Reader.end_ Reader.current_].
  destruct (Nat.leb_spec (size src) 0); [lia|].
  pose proof (find_newline_spec arch (data src) 0 (size src)) as (Hnl & _).
  destruct (track_line EP);
    cbn [Reader.bump_line Reader.set_header Reader.source_ Reader.current_ Reader.end_
         ParallelReader.source_ ParallelReader.data_ ParallelReader.size_
         ParallelReader.num_threads_];
    rewrite ?Nat.sub_0_r, ?Nat.add_0_l;
    destruct (Nat.ltb_spec (detail.find_newline arch (data src) 0 (size src)) (size src));
    repeat split; lia.
Qed.

(** ** Interleavings *)

Lemma concat_all_nil (A : Type) (ls : list (list A)) :
  Forall (fun l => l = []) ls -> concat ls = [].
Proof. induction 1 as [|l ls Hl _ IH]; [reflexivity|]. subst l. exact IH. Qed.

Lemma interleaving_perm (A : Type) (ls : list (list A)) (order : list A) :
  interleaving ls order -> Permutation order (concat ls).
Proof.
  induction 1 as [ls Hnil | pre x l post rest _ IH].
  - rewrite concat_all_nil by exact Hnil. constructor.
  - rewrite concat_app in *. cbn [concat app] in *.
    apply Permutation_cons_app. exact IH.
Qed.

Lemma interleaving_skip_nil (A : Type) (ls : list (list A)) (order : list A) :
  interleaving ls order -> interleaving ([] :: ls) order.
Proof.
  induction 1 as [ls Hnil | pre x l post rest _ IH].
  - constructor. constructor; [reflexivity | exact Hnil].
  - apply (interleaving_next ([] :: pre) x l post IH).
Qed.

(** Running the workers one after the other is one of the interleavings. *)
Lemma interleaving_concat (A : Type) (ls : list (list A)) :
  interleaving ls (concat ls).
Proof.
  induction ls as [|l ls IH]; [constructor; constructor|].
  induction l as [|x l IHl]; cbn [concat app].
  - apply interleaving_skip_nil. exact IH.
  - apply (interleaving_next [] x l ls IHl).
Qed.

(** ** The parallel reader against the single-threaded reader *)

Lemma parallel_records (arch : Simd) (Columns : nat) (Delim : ascii)
      (indet_starts indet_ends : nat -> nat) (p : ParallelReader.t) :
  exists out,
    ParallelReader.for_each_parallel arch Columns Delim indet_starts indet_ends p = Some out
    /\ concat (ParallelReader.delivered out)
       = all_records arch Columns Delim (data (ParallelReader.source_ p))
                     (ParallelReader.data_ p)
                     (ParallelReader.data_ p + ParallelReader.size_ p)
    /\ ParallelReader.total out = list_sum (ParallelReader.counts out)
    /\ ParallelReader.counts out = map (@length _) (ParallelReader.delivered out).
Proof.
  unfold ParallelReader.for_each_parallel.
  destruct (Nat.eqb_spec (ParallelReader.size_ p) 0) as [Hz | Hnz].
  - eexists. split; [reflexivity|]. cbn. rewrite Hz, all_records_nil by lia. auto.
  - rewrite run_workers_records. eexists. split; [reflexivity|].
    cbn [ParallelReader.total ParallelReader.counts ParallelReader.delivered].
    rewrite fold_left_counts, !map_map. cbn [fst snd].
    split; [|split; reflexivity].
    rewrite <- flat_map_concat_map. apply chunks_of_records. reflexivity.
Qed.

(** C3, as stated, fails for the reader in its default configuration
    (error policy off): over "a,b,c\n1,2\n" with N = 3 the single-threaded
    reader hands the two-field row to the callback and returns 1, the
    parallel reader skips it and returns 0. *)
Lemma parallel_vs_unchecked_reader_counterexample :
  (exists r' log,
      Reader.for_each Scalar 3 "," NoErrorCheck (fun _ => 0) (fun _ => 0) log_fields
                      (Reader.new Scalar 3 "," NoErrorCheck (Some short_data_file) true) []
      = Some (1, r', log) /\ length log = 1)
  /\ ParallelReader.for_each_parallel Scalar 3 "," (fun _ => 0) (fun _ => 0)
       (ParallelReader.new Scalar 3 "," (Some short_data_file) 1 true)
     = Some {| ParallelReader.total := 0; ParallelReader.counts := [0];
               ParallelReader.delivered := [[]] |}.
Proof.
  split; [eexists; eexists; split; [run_call | reflexivity] | run_call].
Qed.

(** With error checking off the slots the row did not fill reach the
    callback as they are: here the third field is whatever the
    uninitialised arrays held. *)
Lemma unchecked_reader_delivers_short_row (arch : Simd)
      (indet_starts indet_ends : nat -> nat) :
  exists r',
    Reader.for_each arch 3 "," NoErrorCheck indet_starts indet_ends log_fields
                    (Reader.new arch 3 "," NoErrorCheck (Some short_data_file) true) []
    = Some (1, r',
            [[ {| begin_ := 6; end_ := 7 |}; {| begin_ := 8; end_ := 9 |};
               {| begin_ := indet_starts 2; end_ := indet_ends 2 |} ]]).
Proof. destruct arch; eexists; run_call. Qed.

(** C3, amended.  For every file, every worker count K >= 1 and a
    single-threaded reader whose error policy is enabled: both readers
    return; whatever the order in which the workers' callback invocations
    interleave, the records delivered by [for_each_parallel] are a
    permutation of those the single-threaded [for_each] delivers over the
    same file; the value [for_each_parallel] returns is the sum of the
    per-worker counts, each the number of records its worker delivered,
    and equals what the single-threaded [for_each] returns. *)
Theorem parallel_matches_checked_reader
        (arch : Simd) (Columns : nat) (Delim : ascii) (EP : ErrorPolicy)
        (indet_starts indet_ends worker_starts worker_ends : nat -> nat)
        (file : option (list ascii)) (K : nat) (skip_header : bool) :
  1 <= K -> enabled EP = true ->
  exists n r' log out,
    Reader.for_each arch Columns Delim EP indet_starts indet_ends log_fields
                    (Reader.new arch Columns Delim EP file skip_header) []
    = Some (n, r', log)
    /\ ParallelReader.for_each_parallel arch Columns Delim worker_starts worker_ends
         (ParallelReader.new arch Columns Delim file K skip_header)
       = Some out
    /\ (forall order, interleaving (ParallelReader.delivered out) order ->
                      Permutation order log)
    /\ ParallelReader.total out = list_sum (ParallelReader.counts out)
    /\ ParallelReader.counts out = map (@length _) (ParallelReader.delivered out)
    /\ ParallelReader.total out = n.
Proof.
  intros HK Hen.
  destruct (@for_each_records arch Columns Delim EP indet_starts indet_ends
              (Reader.new arch Columns Delim EP file skip_header) Hen) as (r' & Er).
  destruct (@parallel_records arch Columns Delim worker_starts worker_ends
              (ParallelReader.new arch Columns Delim file K skip_header))
    as (out & Ep & Hcat & Htot & Hcnt).
  destruct (@new_same_range arch Columns Delim EP file K skip_header)
    as (Hsrc & Hdata & Hend & _).
  rewrite Hend, Hdata, Hsrc in Hcat.
  eexists; exists r'; eexists; exists out.
  split; [exact Er|]. split; [exact Ep|].
  split; [intros order Hord; rewrite <- Hcat; apply interleaving_perm; exact Hord|].
  split; [exact Htot|]. split; [exact Hcnt|].
  rewrite Htot, Hcnt, <- Hcat. clear.
  induction (ParallelReader.delivered out) as [|l ls IH]; [reflexivity|].
  cbn [map list_sum concat]. simpl. rewrite length_app, <- IH. reflexivity.
Qed.

Lemma parallel_matches_checked_reader_witness :
  (1 <= 3 /\ enabled CheckedPolicy = true)
  /\ exists n r' log out,
    Reader.for_each SSE2 3 "," CheckedPolicy (fun _ => 0) (fun _ => 0) log_fields
                    (Reader.new SSE2 3 "," CheckedPolicy (Some mixed_file) true) []
    = Some (n, r', log)
    /\ ParallelReader.for_each_parallel SSE2 3 "," (fun _ => 0) (fun _ => 0)
         (ParallelReader.new SSE2 3 "," (Some mixed_file) 3 true)
       = Some out
    /\ (forall order, interleaving (ParallelReader.delivered out) order ->
                      Permutation order log)
    /\ ParallelReader.total out = list_sum (ParallelReader.counts out)
    /\ ParallelReader.counts out = map (@length _) (ParallelReader.delivered out)
    /\ ParallelReader.total out = n.
Proof.
  split; [split; [lia | reflexivity]|].
  apply (@parallel_matches_checked_reader SSE2 3 "," CheckedPolicy (fun _ => 0) (fun _ => 0)
           (fun _ => 0) (fun _ => 0) (Some mixed_file) 3 true); [lia | reflexivity].
Defined.

(** What the parallel reader delivers on that file when asked for three
    workers: the cut after the first chunk already reaches the last line. *)
Lemma parallel_mixed_file_example :
  ParallelReader.for_each_parallel SSE2 3 "," (fun _ => 0) (fun _ => 0)
    (ParallelReader.new SSE2 3 "," (Some mixed_file) 3 true)
  = Some {| ParallelReader.total := 3; ParallelReader.counts := [1; 2];
            ParallelReader.delivered :=
              [[[ {| begin_ := 7; end_ := 8 |}; {| begin_ := 9; end_ := 9 |};
                  {| begin_ := 10; end_ := 11 |} ]];
               [[ {| begin_ := 18; end_ := 19 |}; {| begin_ := 20; end_ := 21 |};
                  {| begin_ := 22; end_ := 23 |} ];
                [ {| begin_ := 24; end_ := 25 |}; {| begin_ := 26; end_ := 28 |};
                  {| begin_ := 29; end_ := 29 |} ]]] |}.
Proof. run_call. Qed.

(** * Further properties *)

(** ** Scanners: the vectorised bodies against the scalar one *)

(** X1.  The three bodies of each scanner agree: on every memory, window
    and delimiter, the NEON and SSE2 bodies of [find_field_end] and
    [find_newline] return what the scalar loop returns. *)
Theorem scanners_agree_with_scalar (arch : Simd) (m : mem) (data len : nat) (delim : ascii) :
  detail.find_field_end arch m data len delim = detail.find_field_end Scalar m data len delim
  /\ detail.find_newline arch m data len = detail.find_newline Scalar m data len.
Proof.
  split.
  - exact (first_stop_unique (find_field_end_spec arch m data len delim)
                             (find_field_end_spec Scalar m data len delim)).
  - exact (first_stop_unique (find_newline_spec arch m data len)
                             (find_newline_spec Scalar m data len)).
Qed.

(** ** Booleans *)

Lemma bytes_eqb_spec (s t : list ascii) : reflect (s = t) (bytes_eqb s t).
Proof.
  revert t; induction s as [|c s IH]; intros [|d t]; simpl; try (constructor; congruence).
  destruct (Ascii.eqb_spec c d) as [-> | Hne]; simpl.
  - destruct (IH t) as [-> | Hne]; constructor; congruence.
  - constructor. congruence.
Qed.

Lemma existsb_bytes_eqb (s : list ascii) (ws : list (list ascii)) :
  existsb (bytes_eqb s) ws = true <-> In s ws.
Proof.
  rewrite existsb_exists. split.
  - intros (w & Hw & E). destruct (bytes_eqb_spec s w); [subst; exact Hw | discriminate].
  - intros H. exists s. split; [exact H|]. destruct (bytes_eqb_spec s s); congruence.
Qed.

(** A length test followed by a [memcmp] is a comparison of the slice. *)
Lemma word_test (m : mem) (b e : nat) (lit : list ascii) (k : nat) :
  b <= e -> e <= length m -> k = length lit ->
  (e - b =? k) && memcmp_eq m b lit = bytes_eqb (slice m b e) lit.
Proof.
  intros Hbe He Hk.
  destruct (null_test_reflect m lit Hbe He Hk); destruct (bytes_eqb_spec (slice m b e) lit);
    congruence.
Qed.

Lemma char_test (m : mem) (b e : nat) (c : ascii) :
  b <= e -> e <= length m ->
  (e - b =? 1) && Ascii.eqb (byte_at m b) c = bytes_eqb (slice m b e) [c].
Proof.
  intros Hbe He. rewrite <- (@word_test m b e [c] 1 Hbe He eq_refl).
  simpl. rewrite andb_true_r. reflexivity.
Qed.

Lemma parse_bool_word (m : mem) (f : FieldRef) :
  begin_ f <= end_ f -> end_ f <= length m ->
  Field.parse_bool m f = bool_of_word (Field.view m f).
Proof.
  destruct f as [b e]. unfold Field.parse_bool, Field.view, Field.size. cbn [begin_ end_].
  intros Hbe He.
  rewrite !andb_orb_distrib_r.
  rewrite !(char_test m _ Hbe He).
  repeat match goal with
         | |- context [(e - b =? ?k) && memcmp_eq m b ?lit] =>
             rewrite (@word_test m b e lit k Hbe He eq_refl)
         end.
  replace (e - b =? 0) with (bytes_eqb (slice m b e) [])
    by (destruct (bytes_eqb_spec (slice m b e) []) as [E | E];
        destruct (empty_test_reflect m Hbe He); congruence).
  unfold bool_of_word, true_words, false_words. cbn [existsb].
  generalize (slice m b e). intros s.
  cbv [str list_ascii_of_string].
  repeat match goal with
         | |- context [bytes_eqb s ?w] =>
             destruct (bytes_eqb_spec s w) as [-> | ?]; [reflexivity|]
         end.
  reflexivity.
Qed.

(** X2.  [parse<bool>()] on a field slice inside the mapping returns true
    exactly on 1, t, T, y, Y, true, True, TRUE, yes, Yes, YES, false exactly
    on 0, f, F, n, N, false, False, FALSE, no, No, NO, and InvalidBool on
    every other slice, the empty one included; the spellings are case
    sensitive beyond these and no other error code occurs. *)
Theorem parse_bool_vocabulary (m : mem) (f : FieldRef) :
  begin_ f <= end_ f -> end_ f <= length m ->
  (Field.parse_bool m f = value true <-> In (Field.view m f) true_words)
  /\ (Field.parse_bool m f = value false <-> In (Field.view m f) false_words)
  /\ (Field.parse_bool m f = unexpected InvalidBool <->
      ~ In (Field.view m f) true_words /\ ~ In (Field.view m f) false_words)
  /\ (forall e, Field.parse_bool m f = unexpected e -> e = InvalidBool).
Proof.
  intros Hbe He. rewrite (parse_bool_word m f Hbe He). unfold bool_of_word.
  pose proof (existsb_bytes_eqb (Field.view m f) true_words) as Ht.
  pose proof (existsb_bytes_eqb (Field.view m f) false_words) as Hf.
  assert (Hdisj : In (Field.view m f) true_words -> In (Field.view m f) false_words -> False).
  { generalize (Field.view m f). intros s H1 H2.
    cbv [true_words false_words str list_ascii_of_string In] in H1, H2.
    repeat match goal with
           | H : _ \/ _ |- _ => destruct H
           | H : False |- _ => destruct H
           end; subst; discriminate. }
  destruct (existsb (bytes_eqb (Field.view m f)) true_words);
    destruct (existsb (bytes_eqb (Field.view m f)) false_words);
    repeat split; try (intros; discriminate); try tauto;
    try (intros H; exfalso; destruct Ht, Hf; tauto);
    try (intros e H; inversion H; reflexivity);
    try (intros [H1 H2]; exfalso; destruct Ht, Hf; tauto).
Qed.

Lemma parse_bool_vocabulary_witness :
  let m := str "id,Yes,maybe" in
  let f := {| begin_ := 3; end_ := 6 |} in
  (begin_ f <= end_ f /\ end_ f <= length m)
  /\ Field.parse_bool m f = value true.
Proof.
  split; [simpl; lia|].
  apply (proj1 (@parse_bool_vocabulary (str "id,Yes,maybe") {| begin_ := 3; end_ := 6 |}
                  ltac:(simpl; lia) ltac:(simpl; lia))).
  cbv. tauto.
Defined.

(** ** Dates and date-times *)

Lemma ymd_ok_valid (d : year_month_day) :
  ymd_ok d = true -> calendar_valid (ymd_year d) (ymd_month d) (ymd_day d) = true.
Proof.
  intros H. destruct d as [y mo dd]. 
  assert (Hy : (-32767 <= y <= 32767)%Z).
  { unfold ymd_ok in H. cbn [ymd_year ymd_month ymd_day] in H.
    rewrite !andb_true_iff, !Z.leb_le in H. lia. }
  rewrite (ymd_ok_calendar mo dd Hy) in H. exact H.
Qed.

(** X3.  [parse_date()] never returns a date that is not on the calendar:
    a returned date has month 1..12 and a day that exists in that month of
    that year (leap years included), the slice has at least ten bytes and
    its fifth and eighth bytes are '-'. *)
Theorem parse_date_returns_calendar_dates (m : mem) (f : FieldRef) (d : year_month_day) :
  Field.parse_date m f = value d ->
  10 <= Field.size f
  /\ byte_at m (begin_ f + 4) = "-"%char
  /\ byte_at m (begin_ f + 7) = "-"%char
  /\ calendar_valid (ymd_year d) (ymd_month d) (ymd_day d) = true.
Proof.
  unfold Field.parse_date.
  destruct (Nat.ltb_spec (Field.size f) 10) as [|Hsz]; [discriminate|].
  destruct (from_chars int32_t m (begin_ f) (begin_ f + 4) 0) as [[? e1] year].
  destruct (Ascii.eqb_spec (byte_at m (begin_ f + 4)) "-") as [E4|];
    [|rewrite orb_true_r; discriminate].
  destruct e1; try discriminate. cbn [negb orb].
  destruct (from_chars int32_t m (begin_ f + 5) (begin_ f + 7) 0) as [[? e2] month].
  destruct (Ascii.eqb_spec (byte_at m (begin_ f + 7)) "-") as [E7|];
    [|rewrite orb_true_r; discriminate].
  destruct e2; try discriminate. cbn [negb orb].
  destruct (from_chars int32_t m (begin_ f + 8) (begin_ f + 10) 0) as [[? e3] day].
  destruct e3; try discriminate.
  destruct (ymd_ok _) eqn:Hok; [|discriminate]. cbn [negb].
  intros H. inversion H; subst d.
  repeat split; try assumption. apply ymd_ok_valid, Hok.
Qed.

Lemma parse_date_returns_calendar_dates_witness :
  calendar_valid 2024 2 29 = true.
Proof.
  exact (proj2 (proj2 (proj2
    (@parse_date_returns_calendar_dates (str "2024-02-29") {| begin_ := 0; end_ := 10 |}
       {| ymd_year := 2024; ymd_month := 2; ymd_day := 29 |} eq_refl)))).
Defined.





(** ** Null-aware and defaulting accessors *)






(** ** The iteration loops *)

Lemma uninitialized_length (Columns : nat) (indet : nat -> nat) :
  length (uninitialized Columns indet) = Columns.
Proof. unfold uninitialized. rewrite length_map, length_seq. reflexivity. Qed.


Section UntilLoop.
Variable arch : Simd.
Variable Columns : nat.
Variable Delim : ascii.
Variable EP : ErrorPolicy.
Hypothesis checked : enabled EP = true.
Variable U : Type.
Variable callback : U -> list FieldRef -> U * bool.

Lemma for_each_until_body_next_row (st : Reader.loop_state U) :
  length (Reader.ls_starts st) = Columns ->
  length (Reader.ls_ends st) = Columns ->
  let r := Reader.ls_reader st in
  let nr := next_row arch Columns Delim (data (Reader.source_ r))
                     (Reader.current_ r) (Reader.end_ r) in
  let b := Reader.for_each_until_body arch Columns Delim EP callback st in
  length (Reader.ls_starts (fst b)) = Columns
  /\ length (Reader.ls_ends (fst b)) = Columns
  /\ Reader.current_ (Reader.ls_reader (fst b)) = fst nr
  /\ Reader.last_error_ (Reader.ls_reader (fst b)) = Reader.last_error_ r
  /\ match snd nr with
     | Some fields =>
         Reader.ls_user (fst b) = fst (callback (Reader.ls_user st) fields)
         /\ Reader.ls_count (fst b) = S (Reader.ls_count st)
         /\ snd b = negb (snd (callback (Reader.ls_user st) fields))
     | None =>
         Reader.ls_user (fst b) = Reader.ls_user st
         /\ Reader.ls_count (fst b) = Reader.ls_count st
         /\ snd b = false
     end.
Proof.
  intros Ls Le.
  destruct (@scan_row_next_row arch Columns Delim
              (data (Reader.source_ (Reader.ls_reader st)))
              (Reader.current_ (Reader.ls_reader st)) (Reader.end_ (Reader.ls_reader st))
              _ _ Ls Le) as (Hc & L1 & L2 & Hrec).
  cbv zeta in *. unfold Reader.for_each_until_body. rewrite checked.
  destruct (track_line EP);
    cbn [Reader.bump_line Reader.source_ Reader.current_ Reader.end_];
    (destruct (rs_col _) as [col|]; [destruct (col =? Columns)|]);
    rewrite Hrec; cbn;
    try (destruct (callback _ _) as [u' go_on]; cbn); auto 10.
Qed.

Lemma until_loop_records (src : MmapSource) (e : nat) :
  forall fuel (st : Reader.loop_state U),
  Reader.source_ (Reader.ls_reader st) = src ->
  Reader.end_ (Reader.ls_reader st) = e ->
  length (Reader.ls_starts st) = Columns ->
  length (Reader.ls_ends st) = Columns ->
  e - Reader.current_ (Reader.ls_reader st) <= fuel ->
  exists st',
    while_loop (@Reader.running U) (Reader.for_each_until_body arch Columns Delim EP callback)
               fuel st = Some st'
    /\ Reader.source_ (Reader.ls_reader st') = src
    /\ Reader.end_ (Reader.ls_reader st') = e
    /\ Reader.last_error_ (Reader.ls_reader st') = Reader.last_error_ (Reader.ls_reader st)
    /\ (Reader.ls_count st', Reader.ls_user st',
        all_records arch Columns Delim (data src) (Reader.current_ (Reader.ls_reader st')) e)
       = (let '(n, u', unread) :=
            feed_until callback
              (all_records arch Columns Delim (data src)
                           (Reader.current_ (Reader.ls_reader st)) e)
              (Reader.ls_user st) in
          (Reader.ls_count st + n, u', unread)).
Proof.
  induction fuel as [|fuel IH]; intros st Hs He Ls Le Hf.
  - exists st. rewrite while_loop_stop by (unfold Reader.running; apply Nat.ltb_ge; lia).
    rewrite all_records_nil by lia. cbn. rewrite Nat.add_0_r. auto.
  - destruct (Nat.ltb_spec (Reader.current_ (Reader.ls_reader st)) e) as [Hlt | Hge].
    + rewrite while_loop_step by (unfold Reader.running; apply Nat.ltb_lt; lia).
      destruct (for_each_until_body_frame arch Columns Delim EP callback st)
        as (Fs & Fe & _).
      destruct (for_each_until_body_next_row st Ls Le) as (L1 & L2 & Hc & Herr & Hrec).
      cbv zeta in *. rewrite Hs, He in *.
      pose proof (@next_row_progress arch Columns Delim (data src) _ _ Hlt) as Hp.
      rewrite (@all_records_step arch Columns Delim (data src) _ _ Hlt).
      set (b := Reader.for_each_until_body arch Columns Delim EP callback st) in *.
      destruct (snd (next_row arch Columns Delim (data src)
                              (Reader.current_ (Reader.ls_reader st)) e)) as [fields|].
      * destruct Hrec as (Hu & Hn & Hb). cbn [app feed_until].
        destruct (callback (Reader.ls_user st) fields) as [u1 go_on] eqn:Ecb.
        cbn [fst snd] in Hu, Hb. rewrite Hb.
        destruct go_on; cbn [negb].
        -- destruct (IH _ Fs Fe L1 L2) as (st' & E & S1 & S2 & S3 & Eq); [rewrite Hc; lia|].
           exists st'. split; [exact E|]. split; [exact S1|]. split; [exact S2|].
           split; [rewrite S3; exact Herr|].
           rewrite Eq, Hu, Hn, Hc.
           destruct (feed_until callback _ u1) as [[n u2] unread].
           f_equal. f_equal. lia.
        -- exists (fst b). split; [reflexivity|]. split; [exact Fs|]. split; [exact Fe|].
           split; [exact Herr|]. rewrite Hu, Hn, Hc. f_equal. f_equal. lia.
      * destruct Hrec as (Hu & Hn & Hb). cbn [app]. rewrite Hb.
        destruct (IH _ Fs Fe L1 L2) as (st' & E & S1 & S2 & S3 & Eq); [rewrite Hc; lia|].
        exists st'. split; [exact E|]. split; [exact S1|]. split; [exact S2|].
        split; [rewrite S3; exact Herr|].
        rewrite Eq, Hu, Hn, Hc. reflexivity.
    + exists st. rewrite while_loop_stop by (unfold Reader.running; apply Nat.ltb_ge; lia).
      rewrite all_records_nil by lia. cbn. rewrite Nat.add_0_r. auto.
Qed.
End UntilLoop.

(** X9.  [for_each_until] with the error policy enabled hands the records
    of the unread range (the rows on which the field scan counts N fields,
    in source order) to the callback one by one until it answers false;
    the returned count
    is the number of invocations, the refusing one included; and the
    reader is left so that the records still to be read are exactly those
    not handed over, so a later call resumes after the row at which
    the callback stopped.  The source, the range end and the recorded
    error are as before the call. *)
Theorem for_each_until_feeds_records
        (arch : Simd) (Columns : nat) (Delim : ascii) (EP : ErrorPolicy)
        (indet_starts indet_ends : nat -> nat) (U : Type)
        (cb : U -> list FieldRef -> U * bool) (r : Reader.t) (u : U) :
  enabled EP = true ->
  exists r',
    Reader.source_ r' = Reader.source_ r
    /\ Reader.end_ r' = Reader.end_ r
    /\ Reader.last_error_ r' = Reader.last_error_ r
    /\ let '(n, u', unread) :=
         feed_until cb (all_records arch Columns Delim (data (Reader.source_ r))
                                    (Reader.current_ r) (Reader.end_ r)) u in
       Reader.for_each_until arch Columns Delim EP indet_starts indet_ends cb r u
       = Some (n, r', u')
       /\ all_records arch Columns Delim (data (Reader.source_ r))
                      (Reader.current_ r') (Reader.end_ r) = unread.
Proof.
  intros Hen. unfold Reader.for_each_until.
  destruct (@until_loop_records arch Columns Delim EP Hen U cb
              (Reader.source_ r) (Reader.end_ r)
              (Reader.end_ r - Reader.current_ r)
              (Reader.initial Columns indet_starts indet_ends r u))
    as (st' & E & S1 & S2 & S3 & Eq);
    try reflexivity; try (cbn; apply uninitialized_length).
  exists (Reader.ls_reader st'). split; [exact S1|]. split; [exact S2|].
  split; [exact S3|]. rewrite E. cbn in Eq.
  destruct (feed_until cb _ u) as [[n u'] unread].
  inversion Eq; subst. split; reflexivity.
Qed.

Lemma for_each_until_feeds_records_witness :
  exists r',
    Reader.for_each_until Scalar 3 "," CheckedPolicy (fun _ => 0) (fun _ => 0)
      (log_until 1) (Reader.new Scalar 3 "," CheckedPolicy (Some scenario_S3) true) []
    = Some (1, r', [[ {| begin_ := 6; end_ := 7 |}; {| begin_ := 8; end_ := 9 |};
                      {| begin_ := 10; end_ := 11 |} ]])
    /\ all_records Scalar 3 "," scenario_S3 (Reader.current_ r') (length scenario_S3)
       = [[ {| begin_ := 16; end_ := 17 |}; {| begin_ := 18; end_ := 19 |};
            {| begin_ := 20; end_ := 21 |} ]].
Proof.
  destruct (@for_each_until_feeds_records Scalar 3 "," CheckedPolicy (fun _ => 0) (fun _ => 0)
              _ (log_until 1) (Reader.new Scalar 3 "," CheckedPolicy (Some scenario_S3) true)
              [] eq_refl) as (r' & _ & _ & _ & H).
  exists r'. exact H.
Defined.


Section UntilAgainstForEach.
Variable arch : Simd.
Variable Columns : nat.
Variable Delim : ascii.
Variable EP : ErrorPolicy.
Variable U : Type.
Variable callback : U -> list FieldRef -> U.

End UntilAgainstForEach.


Section Preservation.
Variable arch : Simd.
Variable Columns : nat.
Variable Delim : ascii.
Variable EP : ErrorPolicy.
Variable U : Type.

Lemma kept_by_iteration_refl (r : Reader.t) : kept_by_iteration EP r r.
Proof. unfold kept_by_iteration. repeat split; auto; lia. Qed.

Lemma for_each_raw_body_kept (cb : U -> list nat -> list nat -> U)
      (r : Reader.t) (st : Reader.loop_state U) :
  kept_by_iteration EP r (Reader.ls_reader st) ->
  Reader.running st = true ->
  kept_by_iteration EP r
    (Reader.ls_reader (fst (Reader.for_each_raw_body arch Columns Delim EP cb st))).
Proof.
  intros (Hs & He & Hn & Hh & Hc & Hl & Herr) Hrun.
  apply Nat.ltb_lt in Hrun.
  pose proof (@scan_row_progress arch Columns Delim
                (data (Reader.source_ (Reader.ls_reader st)))
                (Reader.current_ (Reader.ls_reader st))
                (Reader.end_ (Reader.ls_reader st))
                (Reader.ls_starts st) (Reader.ls_ends st) Hrun) as Hp.
  unfold kept_by_iteration, Reader.for_each_raw_body.
  destruct (track_line EP) eqn:Etl;
    cbn [Reader.bump_line Reader.source_ Reader.current_ Reader.end_] in *;
    (destruct (rs_col _) as [col|];
     [destruct (enabled EP && negb (col =? Columns)) eqn:Een|]);
    cbn [fst Reader.ls_reader Reader.set_current Reader.set_last_error Reader.source_
         Reader.current_ Reader.end_ Reader.column_names_ Reader.header_parsed_
         Reader.last_error_ Reader.line_number_ code line column];
    (split; [exact Hs|]); (split; [exact He|]); (split; [exact Hn|]); (split; [exact Hh|]);
    (split; [intros Hce; specialize (Hc Hce); rewrite <- He; lia|]);
    (split; [first [discriminate | exact Hl]|]);
    try exact Herr;
    right; apply andb_true_iff in Een; destruct Een as [Een _];
    (split; [exact Een|]); (split; [reflexivity|]);
    (split; [apply Z.mod_pos_bound; lia|]); first [discriminate | reflexivity].
Qed.

Lemma for_each_until_body_kept (cb : U -> list FieldRef -> U * bool)
      (r : Reader.t) (st : Reader.loop_state U) :
  kept_by_iteration EP r (Reader.ls_reader st)
  /\ Reader.last_error_ (Reader.ls_reader st) = Reader.last_error_ r ->
  Reader.running st = true ->
  kept_by_iteration EP r
    (Reader.ls_reader (fst (Reader.for_each_until_body arch Columns Delim EP cb st)))
  /\ Reader.last_error_
       (Reader.ls_reader (fst (Reader.for_each_until_body arch Columns Delim EP cb st)))
     = Reader.last_error_ r.
Proof.
  intros ((Hs & He & Hn & Hh & Hc & Hl & Herr) & Hsame) Hrun.
  apply Nat.ltb_lt in Hrun.
  pose proof (@scan_row_progress arch Columns Delim
                (data (Reader.source_ (Reader.ls_reader st)))
                (Reader.current_ (Reader.ls_reader st))
                (Reader.end_ (Reader.ls_reader st))
                (Reader.ls_starts st) (Reader.ls_ends st) Hrun) as Hp.
  unfold kept_by_iteration, Reader.for_each_until_body.
  destruct (track_line EP) eqn:Etl;
    cbn [Reader.bump_line Reader.source_ Reader.current_ Reader.end_] in *;
    (destruct (rs_col _) as [col|];
     [destruct (enabled EP && negb (col =? Columns)) eqn:Een|]);
    try (destruct (cb _ _) as [u' go_on]);
    cbn [fst Reader.ls_reader Reader.set_current Reader.set_last_error Reader.source_
         Reader.current_ Reader.end_ Reader.column_names_ Reader.header_parsed_
         Reader.last_error_ Reader.line_number_ code line column];
    (split; [|exact Hsame]);
    (split; [exact Hs|]); (split; [exact He|]); (split; [exact Hn|]); (split; [exact Hh|]);
    (split; [intros Hce; specialize (Hc Hce); rewrite <- He; lia|]);
    (split; [first [discriminate | exact Hl]|]);
    exact Herr.
Qed.
End Preservation.

Lemma for_each_raw_kept
      (arch : Simd) (Columns : nat) (Delim : ascii) (EP : ErrorPolicy)
      (indet_starts indet_ends : nat -> nat) (U : Type)
      (cb_raw : U -> list nat -> list nat -> U) (r r' : Reader.t) (u u' : U) (n : nat) :
  Reader.for_each_raw arch Columns Delim EP indet_starts indet_ends cb_raw r u
  = Some (n, r', u') ->
  kept_by_iteration EP r r'.
Proof.
  unfold Reader.for_each_raw.
  destruct (while_loop _ _ _ _) as [st'|] eqn:Ew; [|cbn; discriminate].
  cbn [option_map Reader.result]. intros H; inversion H; subst.
  apply (@while_loop_invariant _ (@Reader.running U)
           (Reader.for_each_raw_body arch Columns Delim EP cb_raw)
           (fun st => kept_by_iteration EP r (Reader.ls_reader st)))
    with (3 := Ew); [|apply kept_by_iteration_refl].
  intros s Hs Hrun. apply for_each_raw_body_kept; assumption.
Qed.

Lemma for_each_until_kept
      (arch : Simd) (Columns : nat) (Delim : ascii) (EP : ErrorPolicy)
      (indet_starts indet_ends : nat -> nat) (U : Type)
      (cb_until : U -> list FieldRef -> U * bool) (r r' : Reader.t) (u u' : U) (n : nat) :
  Reader.for_each_until arch Columns Delim EP indet_starts indet_ends cb_until r u
  = Some (n, r', u') ->
  kept_by_iteration EP r r' /\ Reader.last_error_ r' = Reader.last_error_ r.
Proof.
  unfold Reader.for_each_until.
  destruct (while_loop _ _ _ _) as [st'|] eqn:Ew; [|cbn; discriminate].
  cbn [option_map Reader.result]. intros H; inversion H; subst.
  apply (@while_loop_invariant _ (@Reader.running U)
           (Reader.for_each_until_body arch Columns Delim EP cb_until)
           (fun st => kept_by_iteration EP r (Reader.ls_reader st)
                      /\ Reader.last_error_ (Reader.ls_reader st) = Reader.last_error_ r))
    with (3 := Ew); [|split; [apply kept_by_iteration_refl | reflexivity]].
  intros s Hs Hrun. apply for_each_until_body_kept; assumption.
Qed.

(** X11.  What an iteration call can change in a reader.  [for_each_raw]
    (hence [for_each]) and [for_each_until] keep the source, the range
    end, the header names and the header flag; the cursor only moves
    forward and never past the end; the line counter moves only under a
    policy that tracks lines.  [for_each_raw] stops only at the end of the
    range, and the recorded error afterwards is the one before the call or
    a ColumnCountMismatch (only under an enabled policy, with a column in
    0..255 and line 0 when lines are not tracked): an error once recorded
    is never cleared, so [has_error()] stays true.  [for_each_until]
    leaves the recorded error exactly as it was, under every policy. *)
Theorem iteration_keeps_reader
        (arch : Simd) (Columns : nat) (Delim : ascii) (EP : ErrorPolicy)
        (indet_starts indet_ends : nat -> nat) (U : Type)
        (cb_raw : U -> list nat -> list nat -> U)
        (cb_until : U -> list FieldRef -> U * bool) (r : Reader.t) (u : U) :
  (forall n r' u',
      Reader.for_each_raw arch Columns Delim EP indet_starts indet_ends cb_raw r u
      = Some (n, r', u') ->
      kept_by_iteration EP r r'
      /\ Reader.end_ r' <= Reader.current_ r'
      /\ (Reader.has_error EP r = true -> Reader.has_error EP r' = true))
  /\ (forall n r' u',
      Reader.for_each_until arch Columns Delim EP indet_starts indet_ends cb_until r u
      = Some (n, r', u') ->
      kept_by_iteration EP r r'
      /\ Reader.last_error_ r' = Reader.last_error_ r).
Proof.
  split; intros n r' u' E.
  - pose proof (for_each_raw_kept _ _ _ _ _ _ _ _ _ E) as K.
    split; [exact K|]. split.
    + exact (for_each_raw_exhausts arch Columns Delim EP indet_starts indet_ends cb_raw r u E).
    + destruct K as (_ & _ & _ & _ & _ & _ & Herr). unfold Reader.has_error.
      destruct (enabled EP); [|discriminate].
      destruct Herr as [-> | (_ & -> & _)]; [exact (fun H => H) | reflexivity].
  - exact (for_each_until_kept _ _ _ _ _ _ _ _ _ E).
Qed.

(** ** Reading back what was written *)

Lemma byte_at_skipn (m : mem) (p i : nat) (l : list ascii) :
  skipn p m = l -> byte_at m (p + i) = nth i l zero.
Proof. intros <-. unfold byte_at. rewrite nth_skipn. reflexivity. Qed.

Lemma slice_skipn (m : mem) (p : nat) (a rest : list ascii) :
  skipn p m = a ++ rest -> slice m p (p + length a) = a.
Proof.
  intros H. unfold slice. replace (p + length a - p) with (length a) by lia.
  rewrite H, firstn_app, firstn_all, Nat.sub_diag, firstn_O. apply app_nil_r.
Qed.

Lemma skipn_more (m : mem) (p k : nat) (l : list ascii) :
  skipn p m = l -> skipn (p + k) m = skipn k l.
Proof. intros <-. rewrite skipn_skipn. f_equal. lia. Qed.




Section RoundTrip.
Variable arch : Simd.
Variable Columns : nat.
Variable Delim : ascii.
Hypothesis delim_not_LF : Delim <> LF.
Hypothesis delim_not_CR : Delim <> CR.

Lemma find_field_end_plain (m : mem) (p len : nat) (f rest : list ascii) :
  skipn p m = f ++ rest -> plain Delim f ->
  len = length f
  \/ (length f < len /\ detail.is_field_end Delim (nth 0 rest zero) = true) ->
  detail.find_field_end arch m p len Delim = length f.
Proof.
  intros Hm Hf Hlen.
  apply (first_stop_unique (find_field_end_spec arch m p len Delim)).
  split; [lia|]. split.
  - intros Hlt. rewrite (byte_at_skipn m p (length f) Hm).
    rewrite app_nth2, Nat.sub_diag by lia. destruct Hlen as [|[_ H]]; [lia | exact H].
  - intros i Hi. rewrite (byte_at_skipn m p i Hm), app_nth1 by lia.
    unfold plain in Hf. rewrite Forall_forall in Hf. apply Hf, nth_In, Hi.
Qed.

Lemma find_newline_line (m : mem) (p len : nat) (a rest : list ascii) :
  skipn p m = a ++ rest -> Forall (fun c => c <> LF) a ->
  len = length a \/ (length a < len /\ nth 0 rest zero = LF) ->
  detail.find_newline arch m p len = length a.
Proof.
  intros Hm Ha Hlen.
  apply (first_stop_unique (find_newline_spec arch m p len)).
  split; [lia|]. split.
  - intros Hlt. rewrite (byte_at_skipn m p (length a) Hm).
    rewrite app_nth2, Nat.sub_diag by lia. destruct Hlen as [|[_ H]]; [lia|].
    rewrite H. reflexivity.
  - intros i Hi. rewrite (byte_at_skipn m p i Hm), app_nth1 by lia.
    rewrite Forall_forall in Ha. unfold detail.is_newline.
    destruct (Ascii.eqb_spec (nth i a zero) LF) as [E|]; [|reflexivity].
    exfalso. apply (Ha (nth i a zero)); [apply nth_In, Hi | exact E].
Qed.

(** The bytes of a written line are field bytes and delimiters. *)
Lemma join_bytes (row : list (list ascii)) :
  Forall (plain Delim) row ->
  Forall (fun c => c <> LF /\ c <> CR) (join Delim row).
Proof.
  induction row as [|f [|g rest] IH]; intros H; [constructor | |].
  - inversion H; subst. cbn [join]. unfold plain in *.
    eapply Forall_impl; [|eassumption]. intros c Hc.
    apply is_field_end_false in Hc. tauto.
  - inversion H; subst. change (join Delim (f :: g :: rest))
      with (f ++ Delim :: join Delim (g :: rest)).
    apply Forall_app. split.
    + unfold plain in *. eapply Forall_impl; [|eassumption]. intros c Hc.
      apply is_field_end_false in Hc. tauto.
    + constructor; [split; assumption | apply IH; assumption].
Qed.





End RoundTrip.

(** ** Files in which every row is full *)

Section FullRowLoop.
Variable arch : Simd.
Variable Columns : nat.
Variable Delim : ascii.
Variable EP : ErrorPolicy.
Variable U : Type.
Variable callback : U -> list FieldRef -> U.

Lemma for_each_body_full_row (st : Reader.loop_state U) :
  length (Reader.ls_starts st) = Columns ->
  length (Reader.ls_ends st) = Columns ->
  let r := Reader.ls_reader st in
  let m := data (Reader.source_ r) in
  let rs0 := scan_row arch Columns Delim m (Reader.current_ r) (Reader.end_ r)
                      (repeat 0 Columns) (repeat 0 Columns) in
  let nr := next_row arch Columns Delim m (Reader.current_ r) (Reader.end_ r) in
  let st1 := fst (Reader.for_each_raw_body arch Columns Delim EP
                    (fun u starts ends => callback u (make_fields Columns starts ends)) st) in
  rs_col rs0 = None \/ rs_col rs0 = Some Columns ->
  length (Reader.ls_starts st1) = Columns
  /\ length (Reader.ls_ends st1) = Columns
  /\ Reader.current_ (Reader.ls_reader st1) = rs_current rs0
  /\ Reader.last_error_ (Reader.ls_reader st1) = Reader.last_error_ r
  /\ Reader.ls_user st1
     = match snd nr with
       | Some fields => callback (Reader.ls_user st) fields
       | None => Reader.ls_user st
       end
  /\ Reader.ls_count st1
     = match snd nr with
       | Some _ => S (Reader.ls_count st)
       | None => Reader.ls_count st
       end.
Proof.
  intros Ls Le.
  destruct (@scan_row_next_row arch Columns Delim
              (data (Reader.source_ (Reader.ls_reader st)))
              (Reader.current_ (Reader.ls_reader st)) (Reader.end_ (Reader.ls_reader st))
              _ _ Ls Le) as (Hc & L1 & L2 & Hrec).
  destruct (@scan_row_agree arch Columns Delim
              (data (Reader.source_ (Reader.ls_reader st)))
              (Reader.current_ (Reader.ls_reader st)) (Reader.end_ (Reader.ls_reader st))
              _ _ (repeat 0 Columns) (repeat 0 Columns) Ls Le
              (repeat_length 0 Columns) (repeat_length 0 Columns))
    as (Hcur & Hcol & _).
  cbv zeta in *. intros Hfull. rewrite <- Hcol in Hfull. rewrite <- Hcur.
  unfold Reader.for_each_raw_body.
  destruct (track_line EP);
    cbn [Reader.bump_line Reader.source_ Reader.current_ Reader.end_];
    (destruct (rs_col _) as [col|];
     [assert (col = Columns) by (destruct Hfull; congruence); subst col;
      rewrite Nat.eqb_refl in *; rewrite andb_false_r|]);
    rewrite Hrec; cbn; auto 10.
Qed.

Lemma reader_loop_full_rows (src : MmapSource) (e : nat) :
  forall fuel (st : Reader.loop_state U),
  Reader.source_ (Reader.ls_reader st) = src ->
  Reader.end_ (Reader.ls_reader st) = e ->
  length (Reader.ls_starts st) = Columns ->
  length (Reader.ls_ends st) = Columns ->
  e - Reader.current_ (Reader.ls_reader st) <= fuel ->
  full_rows arch Columns Delim (data src) fuel (Reader.current_ (Reader.ls_reader st)) e
  = true ->
  exists st',
    while_loop (@Reader.running U)
               (Reader.for_each_raw_body arch Columns Delim EP
                  (fun u starts ends => callback u (make_fields Columns starts ends)))
               fuel st = Some st'
    /\ Reader.last_error_ (Reader.ls_reader st') = Reader.last_error_ (Reader.ls_reader st)
    /\ Reader.ls_user st'
       = fold_left callback
           (all_records arch Columns Delim (data src)
                        (Reader.current_ (Reader.ls_reader st)) e)
           (Reader.ls_user st)
    /\ Reader.ls_count st'
       = Reader.ls_count st
         + length (all_records arch Columns Delim (data src)
                               (Reader.current_ (Reader.ls_reader st)) e).
Proof.
  induction fuel as [|fuel IH]; intros st Hs He Ls Le Hf Hfull.
  - exists st. rewrite while_loop_stop, all_records_nil by
        first [lia | unfold Reader.running; apply Nat.ltb_ge; lia].
    cbn. auto.
  - destruct (Nat.ltb_spec (Reader.current_ (Reader.ls_reader st)) e) as [Hlt | Hge].
    + rewrite while_loop_step by (unfold Reader.running; apply Nat.ltb_lt; lia).
      destruct (for_each_raw_body_frame arch Columns Delim EP
                  (fun u starts ends => callback u (make_fields Columns starts ends)) st)
        as ((Fs & Fe & _) & Hb).
      cbn [full_rows] in Hfull.
      destruct (Nat.ltb_spec (Reader.current_ (Reader.ls_reader st)) e); [|lia].
      pose proof (@for_each_body_full_row st Ls Le) as Hbody. cbv zeta in Hbody.
      rewrite Hs, He in *.
      pose proof (@scan_row_progress arch Columns Delim (data src) _ _
                    (repeat 0 Columns) (repeat 0 Columns) Hlt) as Hp.
      destruct Hbody as (L1 & L2 & Hc & Herr & Hu & Hn).
      { destruct (rs_col _); [right|left; reflexivity].
        apply andb_true_iff in Hfull. destruct Hfull as [Hfull _].
        apply Nat.eqb_eq in Hfull. congruence. }
      assert (Hfull' : full_rows arch Columns Delim (data src) fuel
                         (rs_current (scan_row arch Columns Delim (data src)
                                        (Reader.current_ (Reader.ls_reader st)) e
                                        (repeat 0 Columns) (repeat 0 Columns))) e = true).
      { destruct (rs_col _); [|exact Hfull].
        apply andb_true_iff in Hfull. tauto. }
      rewrite Hb.
      destruct (IH _ Fs Fe L1 L2) as (st' & E & Eerr & Eu & En);
        [rewrite Hc; lia | rewrite Hc; exact Hfull' |].
      exists st'. split; [exact E|]. split; [rewrite Eerr; exact Herr|].
      rewrite Eu, En, Hu, Hn, Hc, (@all_records_step arch Columns Delim (data src) _ _ Hlt).
      unfold next_row at 3 6. cbn [fst].
      destruct (snd (next_row arch Columns Delim (data src)
                              (Reader.current_ (Reader.ls_reader st)) e));
        cbn [app fold_left length]; split; (reflexivity || lia).
    + exists st. rewrite while_loop_stop, all_records_nil by
          first [lia | unfold Reader.running; apply Nat.ltb_ge; lia].
      cbn. auto.
Qed.
End FullRowLoop.

(** X12.  On a range in which the field scan of every line that is not
    empty counts N fields, the error policy makes no difference: under
    every policy [for_each] hands the callback the records of the range in
    order, returns their number, and leaves the recorded error as it
    was. *)
Theorem full_rows_same_under_every_policy
        (arch : Simd) (Columns : nat) (Delim : ascii) (EP : ErrorPolicy)
        (indet_starts indet_ends : nat -> nat) (U : Type)
        (cb : U -> list FieldRef -> U) (r : Reader.t) (u : U) :
  all_rows_full arch Columns Delim (data (Reader.source_ r))
                (Reader.current_ r) (Reader.end_ r) = true ->
  exists r',
    Reader.for_each arch Columns Delim EP indet_starts indet_ends cb r u
    = Some (length (all_records arch Columns Delim (data (Reader.source_ r))
                                (Reader.current_ r) (Reader.end_ r)),
            r',
            fold_left cb (all_records arch Columns Delim (data (Reader.source_ r))
                                      (Reader.current_ r) (Reader.end_ r)) u)
    /\ Reader.last_error_ r' = Reader.last_error_ r.
Proof.
  intros Hfull. unfold Reader.for_each, Reader.for_each_raw.
  destruct (@reader_loop_full_rows arch Columns Delim EP U cb
              (Reader.source_ r) (Reader.end_ r)
              (Reader.end_ r - Reader.current_ r)
              (Reader.initial Columns indet_starts indet_ends r u))
    as (st' & E & Eerr & Eu & En);
    try reflexivity; try (cbn; apply uninitialized_length); [exact Hfull|].
  rewrite E. exists (Reader.ls_reader st'). cbn [option_map Reader.result].
  cbn [Reader.initial Reader.ls_reader Reader.ls_user Reader.ls_count] in Eu, En, Eerr.
  unfold Reader.result. rewrite Eu, En. split; [reflexivity | exact Eerr].
Qed.

Lemma full_rows_same_under_every_policy_witness :
  exists r',
    Reader.for_each Scalar 2 ";" NoErrorCheck (fun _ => 0) (fun _ => 0) log_fields
      (Reader.new Scalar 2 ";" NoErrorCheck (Some (str "a;b" ++ [LF; LF] ++ str ";d")) false) []
    = Some (2, r', [[ {| begin_ := 0; end_ := 1 |}; {| begin_ := 2; end_ := 3 |} ];
                    [ {| begin_ := 5; end_ := 5 |}; {| begin_ := 6; end_ := 7 |} ]])
    /\ Reader.last_error_ r' = ErrorInfo_default.
Proof.
  exact (@full_rows_same_under_every_policy Scalar 2 ";" NoErrorCheck (fun _ => 0) (fun _ => 0)
           _ log_fields
           (Reader.new Scalar 2 ";" NoErrorCheck (Some (str "a;b" ++ [LF; LF] ++ str ";d")) false)
           [] eq_refl).
Defined.

Section Written.
Variable arch : Simd.
Variable Columns : nat.
Variable Delim : ascii.
Hypothesis delim_not_LF : Delim <> LF.
Hypothesis delim_not_CR : Delim <> CR.

End Written.



(** ** The shape of every delivered record *)

Section RecordShape.
Variable arch : Simd.
Variable Columns : nat.
Variable Delim : ascii.
Variable m : mem.









End RecordShape.


(** ** The chunks of the parallel reader *)

Lemma chain_app (c1 c2 : list (nat * nat)) (a b c : nat) :
  chain c1 a b -> chain c2 b c -> chain (c1 ++ c2) a c.
Proof.
  revert a. induction c1 as [|x c1 IH]; intros a H1 H2; cbn [chain app] in *.
  - subst. exact H2.
  - destruct H1 as (E & L & H1). split; [exact E|]. split; [exact L|]. apply IH; assumption.
Qed.

Lemma chain_le (cs : list (nat * nat)) : forall a b, chain cs a b -> a <= b.
Proof.
  induction cs as [|x cs IH]; intros a b H; cbn [chain] in H.
  - lia.
  - destruct H as (_ & L & H). apply IH in H. lia.
Qed.

Section Chunks.
Variable arch : Simd.
Variable m : mem.
Variable limit chunk_size : nat.

Lemma cut_chunks_chain : forall n chunk_start acc,
  chunk_start <= limit ->
  exists new chunk_start',
    ParallelReader.cut_chunks arch m limit chunk_size n chunk_start acc
    = (chunk_start', acc ++ new)
    /\ chunk_start' <= limit
    /\ chain new chunk_start chunk_start'
    /\ length new <= n
    /\ Forall (ends_at_line m limit) new.
Proof.
  induction n as [|n IH]; intros chunk_start acc Hle.
  - exists [], chunk_start. cbn. rewrite app_nil_r.
    split; [reflexivity|]. split; [exact Hle|]. split; [reflexivity|]. split; [lia | constructor].
  - cbn [ParallelReader.cut_chunks].
    destruct (Nat.ltb_spec chunk_start limit) as [Hlt|];
      [|exists [], chunk_start; cbn; rewrite app_nil_r;
        split; [reflexivity|]; split; [exact Hle|]; split; [reflexivity|];
        split; [lia | constructor]].
    set (approx_end :=
           if limit <=? chunk_start + chunk_size then limit
           else if chunk_start + chunk_size
                   + detail.find_newline arch m (chunk_start + chunk_size)
                       (limit - (chunk_start + chunk_size)) <? limit
                then S (chunk_start + chunk_size
                        + detail.find_newline arch m (chunk_start + chunk_size)
                            (limit - (chunk_start + chunk_size)))
                else chunk_start + chunk_size
                     + detail.find_newline arch m (chunk_start + chunk_size)
                         (limit - (chunk_start + chunk_size))).
    assert (Hend : chunk_start < approx_end <= limit
                   /\ ends_at_line m limit (chunk_start, approx_end)).
    { unfold approx_end, ends_at_line. cbn [snd].
      destruct (Nat.leb_spec limit (chunk_start + chunk_size)); [split; [lia | left; reflexivity]|].
      destruct (find_newline_spec arch m (chunk_start + chunk_size)
                  (limit - (chunk_start + chunk_size))) as (H1 & H2 & _).
      set (nl := detail.find_newline arch m (chunk_start + chunk_size)
                   (limit - (chunk_start + chunk_size))) in *.
      destruct (Nat.ltb_spec (chunk_start + chunk_size + nl) limit).
      - split; [lia|]. right.
        replace (S (chunk_start + chunk_size + nl) - 1) with (chunk_start + chunk_size + nl)
          by lia.
        specialize (H2 ltac:(lia)). unfold detail.is_newline in H2.
        destruct (Ascii.eqb_spec (byte_at m (chunk_start + chunk_size + nl)) LF);
          [assumption | discriminate].
      - split; [lia|]. left. lia. }
    destruct Hend as (Hrange & Hline).
    destruct (IH approx_end (acc ++ [(chunk_start, approx_end)])) as (new & cs' & E & H1 & H2 & H3 & H4);
      [lia|].
    exists ((chunk_start, approx_end) :: new), cs'.
    split; [rewrite E, <- app_assoc; reflexivity|].
    split; [exact H1|]. split.
    { cbn [chain fst snd]. split; [reflexivity|]. split; [lia | exact H2]. }
    split; [cbn [length]; lia|]. constructor; assumption.
Qed.
End Chunks.

(** X15.  The chunks [for_each_parallel] cuts for K >= 1 threads tile the
    data: they are at most K, none is empty, the first starts at the first
    data byte, each starts where the previous one ends, the last ends at
    the end of the data, and every chunk ends either there or just after a
    line feed, so no line is split between two workers.  With no data
    there is no chunk. *)
Theorem chunks_tile_the_data (arch : Simd) (p : ParallelReader.t) :
  1 <= ParallelReader.num_threads_ p ->
  let limit := ParallelReader.data_ p + ParallelReader.size_ p in
  let chunks := ParallelReader.chunks_of arch p in
  chain chunks (ParallelReader.data_ p) limit
  /\ length chunks <= ParallelReader.num_threads_ p
  /\ Forall (ends_at_line (data (ParallelReader.source_ p)) limit) chunks
  /\ (ParallelReader.size_ p = 0 -> chunks = []).
Proof.
  intros HK. cbv zeta. unfold ParallelReader.chunks_of.
  destruct (@cut_chunks_chain arch (data (ParallelReader.source_ p))
              (ParallelReader.data_ p + ParallelReader.size_ p)
              (ParallelReader.size_ p / ParallelReader.num_threads_ p)
              (ParallelReader.num_threads_ p - 1) (ParallelReader.data_ p) [])
    as (new & cs' & E & H1 & H2 & H3 & H4); [lia|].
  rewrite E. cbn [app].
  destruct (Nat.ltb_spec cs' (ParallelReader.data_ p + ParallelReader.size_ p)) as [Hlt | Hge].
  - split; [|split; [|split]].
    + apply (@chain_app new [(cs', ParallelReader.data_ p + ParallelReader.size_ p)]
               _ cs' _ H2).
      cbn [chain fst snd]. auto.
    + rewrite length_app. cbn [length]. lia.
    + apply Forall_app. split; [exact H4|]. constructor; [left; reflexivity | constructor].
    + intros Hz. pose proof (@chain_le _ _ _ H2). lia.
  - assert (cs' = ParallelReader.data_ p + ParallelReader.size_ p) by lia. subst cs'.
    split; [exact H2|]. split; [lia|]. split; [exact H4|].
    intros Hz. destruct new as [|c new]; [reflexivity|].
    cbn [chain] in H2. destruct H2 as (_ & L & H2). apply chain_le in H2. lia.
Qed.

Lemma chunks_tile_the_data_witness :
  let p := ParallelReader.new SSE2 3 "," (Some mixed_file) 3 true in
  ParallelReader.chunks_of SSE2 p = [(7, 18); (18, 29)]
  /\ chain (ParallelReader.chunks_of SSE2 p) 7 29.
Proof.
  split; [reflexivity|].
  exact (proj1 (@chunks_tile_the_data SSE2
                  (ParallelReader.new SSE2 3 "," (Some mixed_file) 3 true)
                  ltac:(cbn; lia))).
Defined.

(** ** Headers *)

Lemma Forall_upd (A : Type) (P : A -> Prop) (a : list A) (k : nat) (v : A) :
  Forall P a -> P v -> Forall P (upd a k v).
Proof.
  intros Ha Hv. revert k. induction Ha as [|x a Hx Ha IH]; intros k; cbn [upd].
  - constructor.
  - destruct k; constructor; auto.
Qed.

Lemma header_fields_stop (arch : Simd) (Columns : nat) (Delim : ascii) (m : mem)
      (n bnd ptr col : nat) (names : list string_view) :
  Columns <= col \/ bnd <= ptr ->
  Reader.header_fields arch Columns Delim m n bnd ptr col names = names.
Proof.
  intros H. destruct n; [reflexivity|]. cbn [Reader.header_fields].
  destruct (Nat.ltb_spec col Columns); destruct (Nat.ltb_spec ptr bnd);
    try reflexivity; lia.
Qed.

Lemma header_fields_in_range (arch : Simd) (Columns : nat) (Delim : ascii) (m : mem)
      (bnd : nat) :
  bnd <= length m ->
  forall n ptr col names,
  ptr <= bnd -> names_in_range m names ->
  names_in_range m (Reader.header_fields arch Columns Delim m n bnd ptr col names).
Proof.
  intros Hb. induction n as [|n IH]; intros ptr col names Hp Hn; [exact Hn|].
  cbn [Reader.header_fields].
  destruct ((col <? Columns) && (ptr <? bnd)) eqn:E; [|exact Hn].
  apply andb_true_iff in E. destruct E as [_ E]. apply Nat.ltb_lt in E.
  destruct (find_field_end_spec arch m ptr (bnd - ptr) Delim) as (Hle & _).
  apply IH.
  - destruct ((ptr + detail.find_field_end arch m ptr (bnd - ptr) Delim <? bnd)
              && Ascii.eqb _ _) eqn:E2; [|lia].
    apply andb_true_iff in E2. destruct E2 as [E2 _]. apply Nat.ltb_lt in E2. lia.
  - apply Forall_upd; [exact Hn|]. cbn [sv_data sv_size]. lia.
Qed.

Section HeaderFacts.
Variable arch : Simd.
Variable Columns : nat.
Variable Delim : ascii.
Variable EP : ErrorPolicy.
Variables indet_starts indet_ends : nat -> nat.

Lemma repeat_in_range (m : mem) (n : nat) : names_in_range m (repeat sv_empty n).
Proof.
  unfold names_in_range. apply Forall_forall. intros v Hv.
  apply repeat_spec in Hv. subst v. cbn. lia.
Qed.

Lemma new_names_in_range (file : option (list ascii)) (skip_header : bool) :
  let r := Reader.new arch Columns Delim EP file skip_header in
  names_in_range (data (Reader.source_ r)) (Reader.column_names_ r).
Proof.
  cbv zeta. unfold Reader.new.
  destruct (skip_header && valid (MmapSource_open file));
    [|cbn; apply repeat_in_range].
  unfold Reader.parse_header.
  cbn [Reader.end_ Reader.current_].
  destruct (size (MmapSource_open file) <=? 0); [cbn; apply repeat_in_range|].
  assert (Hsize : size (MmapSource_open file) = length (data (MmapSource_open file)))
    by (destruct file; reflexivity).
  destruct (track_line EP);
    cbn [Reader.bump_line Reader.set_header Reader.source_ Reader.current_ Reader.end_
         Reader.column_names_];
    (destruct (find_newline_spec arch (data (MmapSource_open file)) 0
                 (size (MmapSource_open file) - 0)) as (Hle & _);
     apply header_fields_in_range;
     [|lia|apply repeat_in_range];
     destruct ((0 <? 0 + _) && _); lia).
Qed.

Lemma reachable_names_in_range (r : Reader.t) :
  reachable arch Columns Delim EP indet_starts indet_ends r ->
  names_in_range (data (Reader.source_ r)) (Reader.column_names_ r).
Proof.
  induction 1 as [file skip | U cb r u n r' u' Hr IH E | U cb r u n r' u' Hr IH E].
  - apply new_names_in_range.
  - destruct (for_each_raw_kept _ _ _ _ _ _ _ _ _ E) as (-> & _ & -> & _). exact IH.
  - destruct (for_each_until_kept _ _ _ _ _ _ _ _ _ E) as ((-> & _ & -> & _) & _). exact IH.
Qed.

Lemma sv_equal_bytes (m : mem) (v : string_view) (name : list ascii) :
  sv_data v + sv_size v <= length m ->
  Reader.sv_equal m v name = bytes_eqb (sv_bytes m v) name.
Proof.
  intros H. unfold Reader.sv_equal, sv_bytes.
  rewrite <- (@word_test m (sv_data v) (sv_data v + sv_size v) name (length name))
    by (reflexivity || lia).
  replace (sv_data v + sv_size v - sv_data v) with (sv_size v) by lia. reflexivity.
Qed.

Lemma column_index_from_find (r : Reader.t) (name : list ascii) :
  names_in_range (data (Reader.source_ r)) (Reader.column_names_ r) ->
  forall n i, i + n <= length (Reader.column_names_ r) ->
  Reader.column_index_from r name n i
  = Some (find_name (data (Reader.source_ r)) name
                    (firstn n (skipn i (Reader.column_names_ r))) i).
Proof.
  intros Hr. induction n as [|n IH]; intros i Hi; [reflexivity|].
  cbn [Reader.column_index_from].
  destruct (nth_error (Reader.column_names_ r) i) as [v|] eqn:Ev.
  2:{ apply nth_error_None in Ev. lia. }
  assert (Hsk : skipn i (Reader.column_names_ r) = v :: skipn (S i) (Reader.column_names_ r)).
  { clear - Ev. revert i Ev. induction (Reader.column_names_ r) as [|x l IHl]; intros i Ev.
    - destruct i; discriminate.
    - destruct i; [cbn in *; congruence|]. cbn [skipn]. apply IHl. exact Ev. }
  rewrite Hsk. cbn [firstn find_name].
  rewrite sv_equal_bytes.
  2:{ unfold names_in_range in Hr. rewrite Forall_forall in Hr.
      apply Hr. eapply nth_error_In. exact Ev. }
  destruct (bytes_eqb _ name); [reflexivity|]. apply IH. lia.
Qed.

Lemma find_name_spec (m : mem) (name : list ascii) :
  forall names k i,
  find_name m name names k = Some i <->
  k <= i < k + length names
  /\ sv_bytes m (nth (i - k) names sv_empty) = name
  /\ forall j, k <= j < i -> sv_bytes m (nth (j - k) names sv_empty) <> name.
Proof.
  induction names as [|v names IH]; intros k i; cbn [find_name length].
  - split; [discriminate | intros (H & _); lia].
  - destruct (bytes_eqb_spec (sv_bytes m v) name) as [E | N].
    + split.
      * intros H; inversion H; subst i. rewrite Nat.sub_diag. cbn [nth].
        split; [lia|]. split; [exact E|]. intros j Hj. lia.
      * intros (H1 & H2 & H3). destruct (Nat.eq_dec i k) as [-> | Hne]; [reflexivity|].
        exfalso. apply (H3 k); [lia|]. rewrite Nat.sub_diag. exact E.
    + rewrite IH. split.
      * intros (H1 & H2 & H3). split; [lia|]. split.
        -- replace (i - k) with (S (i - S k)) by lia. exact H2.
        -- intros j Hj. destruct (Nat.eq_dec j k) as [-> | Hne].
           ++ rewrite Nat.sub_diag. exact N.
           ++ replace (j - k) with (S (j - S k)) by lia. apply H3. lia.
      * intros (H1 & H2 & H3).
        assert (i <> k) by (intros ->; rewrite Nat.sub_diag in H2; exact (N H2)).
        split; [lia|]. split.
        -- replace (i - k) with (S (i - S k)) in H2 by lia. exact H2.
        -- intros j Hj. specialize (H3 j ltac:(lia)).
           replace (j - k) with (S (j - S k)) in H3 by lia. exact H3.
Qed.
End HeaderFacts.

(** X16.  [column_index(name)] on every reader the interface can produce
    never reads outside the header array, and returns the least index
    below N whose stored header name has exactly the bytes of [name], or
    nullopt when no stored name has; so [column_index(column_name(i))] is
    [i] for the first column carrying that name, and an empty [name] finds
    the first column without a header. *)
Theorem column_index_finds_first
        (arch : Simd) (Columns : nat) (Delim : ascii) (EP : ErrorPolicy)
        (indet_starts indet_ends : nat -> nat) (r : Reader.t) (name : list ascii) :
  reachable arch Columns Delim EP indet_starts indet_ends r ->
  let m := data (Reader.source_ r) in
  Reader.column_index Columns r name = Some (find_name m name (Reader.column_names_ r) 0)
  /\ (forall i,
        Reader.column_index Columns r name = Some (Some i) <->
        i < Columns
        /\ option_map (sv_bytes m) (Reader.column_name Columns r i) = Some name
        /\ forall j, j < i ->
             option_map (sv_bytes m) (Reader.column_name Columns r j) <> Some name).
Proof.
  intros Hr m.
  pose proof (reachable_names_length Hr) as Hlen.
  pose proof (reachable_names_in_range Hr) as Hrange.
  assert (Hidx : Reader.column_index Columns r name
                 = Some (find_name m name (Reader.column_names_ r) 0)).
  { unfold Reader.column_index.
    rewrite (@column_index_from_find r name Hrange Columns 0) by lia.
    cbn [skipn]. rewrite <- Hlen, firstn_all. reflexivity. }
  split; [exact Hidx|].
  assert (Hname : forall i, i < Columns ->
            option_map (sv_bytes m) (Reader.column_name Columns r i)
            = Some (sv_bytes m (nth i (Reader.column_names_ r) sv_empty))).
  { intros i Hi. unfold Reader.column_name.
    destruct (Nat.ltb_spec i Columns); [|lia].
    rewrite (nth_error_nth' _ sv_empty) by lia. reflexivity. }
  intros i. rewrite Hidx. split.
  - intros H. inversion H as [H']. apply find_name_spec in H'.
    destruct H' as (H1 & H2 & H3). rewrite Nat.sub_0_r in H2.
    split; [lia|]. split; [rewrite Hname by lia; f_equal; exact H2|].
    intros j Hj. rewrite Hname by lia. specialize (H3 j ltac:(lia)).
    rewrite Nat.sub_0_r in H3. congruence.
  - intros (H1 & H2 & H3). f_equal. apply find_name_spec.
    rewrite Hname in H2 by lia. split; [lia|]. rewrite Nat.sub_0_r.
    split; [congruence|]. intros j Hj. rewrite Nat.sub_0_r.
    specialize (H3 j ltac:(lia)). rewrite Hname in H3 by lia. congruence.
Qed.

Lemma column_index_finds_first_witness :
  let r := Reader.new Scalar 4 "," CheckedPolicy (Some (str "id,x,x" ++ [LF] ++ str "1,2,3,4")) true in
  map (Reader.column_index 4 r) [str "x"; str "id"; str "y"; str ""; str "X"]
  = [Some (Some 1); Some (Some 0); Some None; Some (Some 3); Some None].
Proof.
  cbv zeta.
  cbn [map].
  rewrite !(proj1 (@column_index_finds_first Scalar 4 "," CheckedPolicy (fun _ => 0) (fun _ => 0)
             (Reader.new Scalar 4 "," CheckedPolicy (Some (str "id,x,x" ++ [LF] ++ str "1,2,3,4")) true)
             _ (reach_new Scalar 4 "," CheckedPolicy (fun _ => 0) (fun _ => 0) _ true))).
  reflexivity.
Defined.

(** The two header loops are the same text. *)
Lemma header_loops_same (arch : Simd) (Columns : nat) (Delim : ascii) :
  ParallelReader.header_fields arch Columns Delim = Reader.header_fields arch Columns Delim.
Proof. reflexivity. Qed.

Lemma sv_bytes_view (m : mem) (p q : nat) :
  p <= q -> sv_bytes m {| sv_data := p; sv_size := q - p |} = slice m p q.
Proof.
  intros H. unfold sv_bytes. cbn [sv_data sv_size]. f_equal. lia.
Qed.

Lemma nth_upd_any (A : Type) (a : list A) (k i : nat) (v d : A) :
  i <> k -> nth i (upd a k v) d = nth i a d.
Proof.
  revert k i. induction a as [|x a IH]; intros k i H; [reflexivity|].
  destruct k; cbn [upd]; destruct i; try reflexivity; try lia.
  cbn [nth]. apply IH. lia.
Qed.

Section HeaderLoops.
Variable arch : Simd.
Variable Columns : nat.
Variable Delim : ascii.
Variable m : mem.

(** The header loop bounded by the line end against the one bounded by
    the CR before it. *)
Lemma header_fields_cr (eff : nat) :
  byte_at m eff = CR ->
  forall n ptr col names1 names2,
  ptr <= eff ->
  length names1 = Columns -> length names2 = Columns ->
  (forall i, sv_bytes m (nth i names1 sv_empty) = sv_bytes m (nth i names2 sv_empty)) ->
  (forall i, col <= i -> sv_bytes m (nth i names1 sv_empty) = []) ->
  forall i,
    sv_bytes m (nth i (Reader.header_fields arch Columns Delim m n eff ptr col names1) sv_empty)
    = sv_bytes m (nth i (Reader.header_fields arch Columns Delim m n (eff + 1) ptr col names2)
                      sv_empty).
Proof.
  intros Hcr. induction n as [|n IH]; intros ptr col names1 names2 Hp L1 L2 Hsame Hempty;
    [exact Hsame|].
  destruct (Nat.lt_ge_cases col Columns) as [Hcol | Hcol];
    [|rewrite !header_fields_stop by lia; exact Hsame].
  assert (Hstop : detail.is_field_end Delim (byte_at m eff) = true)
    by (rewrite Hcr; apply is_field_end_iff; auto).
  destruct (Nat.lt_ge_cases ptr eff) as [Hlt | Hge].
  - (* both loops take a field *)
    cbn [Reader.header_fields].
    destruct (Nat.ltb_spec col Columns); [|lia].
    destruct (Nat.ltb_spec ptr eff); [|lia].
    destruct (Nat.ltb_spec ptr (eff + 1)); [|lia]. cbn [andb].
    assert (Hfl : detail.find_field_end arch m ptr (eff + 1 - ptr) Delim
                  = detail.find_field_end arch m ptr (eff - ptr) Delim).
    { apply (first_stop_unique (find_field_end_spec arch m ptr (eff + 1 - ptr) Delim)).
      destruct (find_field_end_spec arch m ptr (eff - ptr) Delim) as (Hle & Hhit & Hbefore).
      split; [lia|]. split; [|exact Hbefore].
      intros _. destruct (Nat.lt_ge_cases
                            (detail.find_field_end arch m ptr (eff - ptr) Delim) (eff - ptr))
        as [Hin | Hout]; [apply Hhit, Hin|].
      replace (ptr + detail.find_field_end arch m ptr (eff - ptr) Delim) with eff by lia.
      exact Hstop. }
    rewrite Hfl.
    destruct (find_field_end_spec arch m ptr (eff - ptr) Delim) as (Hle & _).
    set (fl := detail.find_field_end arch m ptr (eff - ptr) Delim) in *.
    set (v := {| sv_data := ptr; sv_size := ptr + fl - ptr |}).
    assert (Hsame' : forall i, sv_bytes m (nth i (upd names1 col v) sv_empty)
                               = sv_bytes m (nth i (upd names2 col v) sv_empty)).
    { intros i. destruct (Nat.eq_dec i col) as [-> | Hne].
      - rewrite !nth_upd, Nat.eqb_refl by lia. reflexivity.
      - rewrite !nth_upd_any by exact Hne. apply Hsame. }
    assert (Hempty' : forall i, S col <= i -> sv_bytes m (nth i (upd names1 col v) sv_empty) = []).
    { intros i Hi. rewrite nth_upd_any by lia. apply Hempty. lia. }
    destruct (Nat.lt_ge_cases (ptr + fl) eff) as [Hin | Hout].
    + destruct (Nat.ltb_spec (ptr + fl) eff); [|lia].
      destruct (Nat.ltb_spec (ptr + fl) (eff + 1)); [|lia]. cbn [andb].
      apply IH; try (rewrite length_upd; assumption); try assumption;
        destruct (Ascii.eqb (byte_at m (ptr + fl)) Delim); lia.
    + assert (Heq : ptr + fl = eff) by lia. rewrite Heq.
      destruct (Nat.ltb_spec eff eff); [lia|].
      destruct (Nat.ltb_spec eff (eff + 1)); [|lia]. cbn [andb].
      destruct (Ascii.eqb (byte_at m eff) Delim).
      * rewrite !header_fields_stop by lia. apply Hsame'.
      * apply IH; try (rewrite length_upd; assumption); try assumption; lia.
  - (* the loop bounded by the CR has stopped *)
    assert (ptr = eff) by lia. subst ptr.
    rewrite (@header_fields_stop arch Columns Delim m (S n) eff eff col names1) by lia.
    cbn [Reader.header_fields].
    destruct (Nat.ltb_spec col Columns); [|lia].
    destruct (Nat.ltb_spec eff (eff + 1)); [|lia]. cbn [andb].
    assert (Hfl : detail.find_field_end arch m eff (eff + 1 - eff) Delim = 0).
    { destruct (find_field_end_spec arch m eff (eff + 1 - eff) Delim) as (Hle & _ & Hbefore).
      destruct (detail.find_field_end arch m eff (eff + 1 - eff) Delim) as [|k]; [reflexivity|].
      specialize (Hbefore 0 ltac:(lia)). rewrite Nat.add_0_r in Hbefore. congruence. }
    rewrite Hfl, Nat.add_0_r.
    set (v := {| sv_data := eff; sv_size := eff - eff |}).
    assert (Hv : sv_bytes m v = []).
    { unfold v. rewrite sv_bytes_view by lia. unfold slice.
      rewrite Nat.sub_diag. reflexivity. }
    assert (Hsame' : forall i, sv_bytes m (nth i names1 sv_empty)
                               = sv_bytes m (nth i (upd names2 col v) sv_empty)).
    { intros i. destruct (Nat.eq_dec i col) as [-> | Hne].
      - rewrite nth_upd, Nat.eqb_refl by lia. rewrite Hv. apply Hempty. lia.
      - rewrite nth_upd_any by exact Hne. apply Hsame. }
    destruct ((eff <? eff + 1) && Ascii.eqb (byte_at m eff) Delim).
    + rewrite header_fields_stop by lia. apply Hsame'.
    + rewrite <- (@header_fields_stop arch Columns Delim m n eff eff (S col) names1) by lia.
      apply IH; try (rewrite length_upd; assumption); try assumption; try lia.
      intros i Hi. apply Hempty. lia.
Qed.
End HeaderLoops.

Lemma new_headers_same_bytes
      (arch : Simd) (Columns : nat) (Delim : ascii) (EP : ErrorPolicy)
      (file : option (list ascii)) (K : nat) (skip_header : bool) :
  let r := Reader.new arch Columns Delim EP file skip_header in
  let p := ParallelReader.new arch Columns Delim file K skip_header in
  let m := data (Reader.source_ r) in
  map (sv_bytes m) (ParallelReader.column_names_ p)
  = map (sv_bytes m) (Reader.column_names_ r)
  /\ ParallelReader.source_ p = Reader.source_ r
  /\ ParallelReader.data_ p = Reader.current_ r
  /\ ParallelReader.data_ p + ParallelReader.size_ p = Reader.end_ r.
Proof.
  cbv zeta.
  split; [|destruct (new_same_range arch Columns Delim EP file K skip_header)
             as (H1 & H2 & H3 & _); auto].
  unfold Reader.new, ParallelReader.new.
  destruct (skip_header && valid (MmapSource_open file)) eqn:Hsk; [|reflexivity].
  assert (Hpos : 0 < size (MmapSource_open file)).
  { apply andb_true_iff in Hsk. destruct Hsk as [_ Hv].
    destruct file as [bytes|]; [|discriminate]. cbn in *.
    destruct (length bytes); [discriminate | lia]. }
  unfold Reader.parse_header. cbn [Reader.end_ Reader.current_].
  destruct (Nat.leb_spec (size (MmapSource_open file)) 0); [lia|].
  set (m := data (MmapSource_open file)).
  set (nl := detail.find_newline arch m 0 (size (MmapSource_open file))).
  change (ParallelReader.header_fields arch Columns Delim)
    with (Reader.header_fields arch Columns Delim).
  assert (Hnames : forall names1 names2 : list string_view,
            names1 = repeat sv_empty Columns -> names2 = repeat sv_empty Columns ->
            map (sv_bytes m)
                (Reader.header_fields arch Columns Delim m Columns (0 + nl) 0 0 names2)
            = map (sv_bytes m)
                (Reader.header_fields arch Columns Delim m Columns
                   (if (0 <? 0 + nl) && Ascii.eqb (byte_at m (0 + nl - 1)) CR
                    then 0 + nl - 1 else 0 + nl) 0 0 names1)).
  { intros names1 names2 -> ->.
    destruct ((0 <? 0 + nl) && Ascii.eqb (byte_at m (0 + nl - 1)) CR) eqn:Ecr;
      [|reflexivity].
    apply andb_true_iff in Ecr. destruct Ecr as [Hnl Hcr].
    apply Nat.ltb_lt in Hnl.
    destruct (Ascii.eqb_spec (byte_at m (0 + nl - 1)) CR) as [Hcr'|]; [|discriminate].
    apply (nth_ext _ _ [] []).
    - rewrite !length_map, !header_fields_length. reflexivity.
    - intros i Hi. rewrite length_map in Hi.
      change (@nil ascii) with (sv_bytes m sv_empty).
      rewrite !map_nth. symmetry.
      replace (0 + nl) with (0 + nl - 1 + 1) at 2 by lia.
      apply header_fields_cr; try apply repeat_length; try lia; try exact Hcr'.
      + intros j. reflexivity.
      + intros j _. destruct (nth_in_or_default j (repeat sv_empty Columns) sv_empty) as [Hin | ->];
          [apply repeat_spec in Hin; rewrite Hin|]; reflexivity. }
  destruct (track_line EP);
    cbn [Reader.bump_line Reader.set_header Reader.source_ Reader.current_ Reader.end_
         Reader.column_names_ ParallelReader.column_names_ data];
    fold m; rewrite Nat.sub_0_r; fold nl; apply Hnames; reflexivity.
Qed.

(** X17.  The two constructors read the same header.  For every file,
    delimiter and column count, [ParallelReader]'s constructor and
    [Reader]'s [parse_header] store names with the same bytes in every
    column, although the one splits the line up to its line feed and the
    other up to the CR before it, and both leave the same data range
    behind. *)
Theorem parallel_header_matches_reader
        (arch : Simd) (Columns : nat) (Delim : ascii) (EP : ErrorPolicy)
        (file : option (list ascii)) (K : nat) (skip_header : bool) :
  let r := Reader.new arch Columns Delim EP file skip_header in
  let p := ParallelReader.new arch Columns Delim file K skip_header in
  let m := data (Reader.source_ r) in
  map (sv_bytes m) (ParallelReader.column_names_ p)
  = map (sv_bytes m) (Reader.column_names_ r)
  /\ ParallelReader.source_ p = Reader.source_ r
  /\ ParallelReader.data_ p = Reader.current_ r
  /\ ParallelReader.data_ p + ParallelReader.size_ p = Reader.end_ r.
Proof. exact (new_headers_same_bytes arch Columns Delim EP file K skip_header). Qed.

Section HeaderRoundTrip.
Variable arch : Simd.
Variable Columns : nat.
Variable Delim : ascii.
Hypothesis delim_not_LF : Delim <> LF.
Hypothesis delim_not_CR : Delim <> CR.

Lemma nth_nil_field (i : nat) : nth i (@nil (list ascii)) [] = [].
Proof. destruct i; reflexivity. Qed.

Lemma header_fields_join (m : mem) : forall rem n ptr col names tail,
  Forall (plain Delim) rem ->
  skipn ptr m = join Delim rem ++ tail ->
  Columns <= col + n -> length names = Columns ->
  (forall i, col <= i -> sv_bytes m (nth i names sv_empty) = []) ->
  let names' := Reader.header_fields arch Columns Delim m n
                  (ptr + length (join Delim rem)) ptr col names in
  (forall i, i < col -> nth i names' sv_empty = nth i names sv_empty)
  /\ (forall i, col <= i < Columns ->
        sv_bytes m (nth i names' sv_empty) = nth (i - col) rem []).
Proof.
  induction rem as [|f rem IH]; intros n ptr col names tail Hpl Hm Hn Ln Hempty; cbv zeta.
  - cbn [join length]. rewrite header_fields_stop by lia.
    split; [reflexivity|]. intros i Hi. rewrite nth_nil_field. apply Hempty. lia.
  - apply Forall_cons_iff in Hpl. destruct Hpl as [Hf Hrest].
    destruct (Nat.lt_ge_cases col Columns) as [Hcol | Hcol];
      [|rewrite header_fields_stop by lia; split; [reflexivity | intros i Hi; lia]].
    destruct n as [|n]; [lia|].
    destruct rem as [|g rest].
    + cbn [join]. destruct f as [|c0 f'].
      * cbn [length]. rewrite header_fields_stop by lia.
        split; [reflexivity|]. intros i Hi. rewrite Hempty by lia.
        destruct (i - col) as [|[|k]]; reflexivity.
      * set (f := c0 :: f') in *.
        assert (Hlen : 0 < length f) by (cbn; lia).
        cbn [Reader.header_fields].
        destruct (Nat.ltb_spec col Columns); [|lia].
        destruct (Nat.ltb_spec ptr (ptr + length f)); [|lia]. cbn [andb].
        cbn [join] in Hm.
        rewrite (@find_field_end_plain arch Delim m ptr (ptr + length f - ptr) f tail Hm Hf)
          by (left; lia).
        destruct (Nat.ltb_spec (ptr + length f) (ptr + length f)); [lia|]. cbn [andb].
        rewrite header_fields_stop by lia.
        split; [intros i Hi; apply nth_upd_any; lia|].
        intros i Hi. destruct (Nat.eq_dec i col) as [-> | Hne].
        -- rewrite nth_upd, Nat.eqb_refl, Nat.sub_diag by lia. cbn [nth].
           rewrite sv_bytes_view by lia. apply (slice_skipn m ptr f tail Hm).
        -- rewrite nth_upd_any by exact Hne. rewrite Hempty by lia.
           destruct (i - col) as [|[|k]] eqn:E; [lia | reflexivity | reflexivity].
    + change (join Delim (f :: g :: rest)) with (f ++ Delim :: join Delim (g :: rest)) in *.
      set (J := join Delim (g :: rest)) in *.
      rewrite length_app. cbn [length].
      cbn [Reader.header_fields].
      destruct (Nat.ltb_spec col Columns); [|lia].
      destruct (Nat.ltb_spec ptr (ptr + (length f + S (length J)))); [|lia]. cbn [andb].
      rewrite <- app_assoc in Hm.
      rewrite (@find_field_end_plain arch Delim m ptr _ f ((Delim :: J) ++ tail) Hm Hf).
      2:{ right. split; [lia|]. cbn [app nth]. apply is_field_end_iff. left; reflexivity. }
      assert (Hd : byte_at m (ptr + length f) = Delim).
      { rewrite (byte_at_skipn m ptr (length f) Hm), app_nth2, Nat.sub_diag by lia.
        reflexivity. }
      rewrite Hd, Ascii.eqb_refl.
      destruct (Nat.ltb_spec (ptr + length f) (ptr + (length f + S (length J)))); [|lia].
      cbn [andb].
      set (v := {| sv_data := ptr; sv_size := ptr + length f - ptr |}).
      destruct (IH n (S (ptr + length f)) (S col) (upd names col v) tail) as [IH1 IH2].
      * exact Hrest.
      * replace (S (ptr + length f)) with (ptr + (length f + 1)) by lia.
        rewrite (skipn_more m ptr (length f + 1) Hm).
        rewrite skipn_app. rewrite skipn_all2 by lia.
        replace (length f + 1 - length f) with 1 by lia. reflexivity.
      * lia.
      * rewrite length_upd. exact Ln.
      * intros i Hi. rewrite nth_upd_any by lia. apply Hempty. lia.
      * fold J in IH1, IH2.
        replace (S (ptr + length f) + length J) with (ptr + (length f + S (length J)))
          in IH1, IH2 by lia.
        split.
        -- intros i Hi. rewrite IH1 by lia. apply nth_upd_any. lia.
        -- intros i Hi. destruct (Nat.eq_dec i col) as [-> | Hne].
           ++ rewrite IH1 by lia. rewrite nth_upd, Nat.eqb_refl, Nat.sub_diag by lia.
              cbn [nth]. unfold v. rewrite sv_bytes_view by lia.
              apply (slice_skipn m ptr f _ Hm).
           ++ rewrite IH2 by lia. replace (i - col) with (S (i - S col)) by lia. reflexivity.
Qed.

(** Where a line of field bytes and delimiters ends. *)
Lemma line_bounds (m : mem) (cur : nat) (line t post : list ascii) :
  skipn cur m = line ++ t ++ post ->
  length m = cur + length line + length t + length post ->
  Forall (fun c => c <> LF /\ c <> CR) line ->
  t = [LF] \/ t = [CR; LF] \/ (post = [] /\ (t = [] \/ t = [CR])) ->
  let nl := detail.find_newline arch m cur (length m - cur) in
  (if (cur <? cur + nl) && Ascii.eqb (byte_at m (cur + nl - 1)) CR
   then cur + nl - 1 else cur + nl) = cur + length line
  /\ (if cur + nl <? length m then S (cur + nl) else length m)
     = cur + length line + length t.
Proof.
  intros Hsk Hmlen Hbytes Ht. cbv zeta.
  assert (Hnolf : Forall (fun c => c <> LF) line).
  { eapply Forall_impl; [|exact Hbytes]. intros c Hc. exact (proj1 Hc). }
  assert (Hlast : 0 < length line -> byte_at m (cur + length line - 1) <> CR).
  { intros Hpos. replace (cur + length line - 1) with (cur + (length line - 1)) by lia.
    rewrite (byte_at_skipn m cur (length line - 1) Hsk), app_nth1 by lia.
    rewrite Forall_forall in Hbytes. apply Hbytes, nth_In. lia. }
  assert (Hcr : forall rest, t ++ post = CR :: rest ->
                  byte_at m (cur + length line) = CR).
  { intros rest E. rewrite (byte_at_skipn m cur (length line) Hsk).
    rewrite app_nth2, Nat.sub_diag, E by lia. reflexivity. }
  assert (Hplain_end :
            (if (cur <? cur + length line)
                && Ascii.eqb (byte_at m (cur + length line - 1)) CR
             then cur + length line - 1 else cur + length line) = cur + length line).
  { destruct (Nat.ltb_spec cur (cur + length line)) as [Hpos|]; [|reflexivity].
    destruct (Ascii.eqb_spec (byte_at m (cur + length line - 1)) CR) as [E|]; [|reflexivity].
    exfalso. apply Hlast; [lia | exact E]. }
  assert (Hcr_end : forall rest, t ++ post = CR :: rest ->
            (if (cur <? cur + (length line + 1))
                && Ascii.eqb (byte_at m (cur + (length line + 1) - 1)) CR
             then cur + (length line + 1) - 1 else cur + (length line + 1))
            = cur + length line).
  { intros rest E. replace (cur + (length line + 1) - 1) with (cur + length line) by lia.
    rewrite (Hcr _ E), Ascii.eqb_refl.
    destruct (Nat.ltb_spec cur (cur + (length line + 1))); [reflexivity | lia]. }
  destruct Ht as [-> | [-> | [-> [-> | ->]]]]; cbn [length app] in *.
  - rewrite (@find_newline_line arch m cur _ line (LF :: post) Hsk Hnolf)
      by (right; split; [lia | reflexivity]).
    split; [exact Hplain_end|].
    destruct (Nat.ltb_spec (cur + length line) (length m)); lia.
  - assert (E : detail.find_newline arch m cur (length m - cur) = length line + 1).
    { replace (length line + 1) with (length (line ++ [CR]))
        by (rewrite length_app; reflexivity).
      apply (@find_newline_line arch m cur _ (line ++ [CR]) (LF :: post)).
      - rewrite <- app_assoc. exact Hsk.
      - apply Forall_app. split; [exact Hnolf | constructor; [discriminate | constructor]].
      - right. rewrite length_app. cbn [length]. split; [lia | reflexivity]. }
    rewrite E. split; [exact (Hcr_end _ eq_refl)|].
    destruct (Nat.ltb_spec (cur + (length line + 1)) (length m)); lia.
  - rewrite (@find_newline_line arch m cur _ line [] Hsk Hnolf) by (left; lia).
    split; [exact Hplain_end|].
    destruct (Nat.ltb_spec (cur + length line) (length m)); lia.
  - assert (E : detail.find_newline arch m cur (length m - cur) = length line + 1).
    { replace (length line + 1) with (length (line ++ [CR]))
        by (rewrite length_app; reflexivity).
      apply (@find_newline_line arch m cur _ (line ++ [CR]) []).
      - rewrite <- app_assoc. exact Hsk.
      - apply Forall_app. split; [exact Hnolf | constructor; [discriminate | constructor]].
      - left. rewrite length_app. cbn [length]. lia. }
    rewrite E. split; [exact (Hcr_end _ eq_refl)|].
    destruct (Nat.ltb_spec (cur + (length line + 1)) (length m)); lia.
Qed.

Lemma new_reads_header (EP : ErrorPolicy) (hdr : list (list ascii)) (t rest : list ascii) :
  Forall (plain Delim) hdr ->
  t = [LF] \/ t = [CR; LF] \/ (rest = [] /\ (t = [] \/ t = [CR])) ->
  join Delim hdr ++ t ++ rest <> [] ->
  let m := join Delim hdr ++ t ++ rest in
  let r := Reader.new arch Columns Delim EP (Some m) true in
  (forall i, i < Columns ->
     sv_bytes m (nth i (Reader.column_names_ r) sv_empty) = nth i hdr [])
  /\ Reader.current_ r = length (join Delim hdr) + length t
  /\ Reader.end_ r = length m
  /\ Reader.header_parsed_ r = true
  /\ Reader.line_number_ r = (if track_line EP then 1 else 0)%Z.
Proof.
  intros Hpl Ht Hne m r.
  assert (Hlen : 0 < length m).
  { unfold m. destruct (join Delim hdr ++ t ++ rest); [congruence | cbn; lia]. }
  assert (Hbytes : Forall (fun c => c <> LF /\ c <> CR) (join Delim hdr))
    by (apply join_bytes; assumption).
  destruct (@line_bounds m 0 (join Delim hdr) t rest) as [Heff Hnext];
    try assumption; try reflexivity.
  { unfold m. rewrite !length_app. lia. }
  cbv zeta in Heff, Hnext. rewrite Nat.sub_0_r in Heff, Hnext.
  destruct (@header_fields_join m hdr Columns 0 0 (repeat sv_empty Columns) (t ++ rest))
    as [_ Hnames]; try assumption; try reflexivity; try lia; try apply repeat_length.
  { intros i _. destruct (nth_in_or_default i (repeat sv_empty Columns) sv_empty) as [Hin | ->];
      [apply repeat_spec in Hin; rewrite Hin|]; reflexivity. }
  cbv zeta in Hnames.
  unfold r, Reader.new.
  replace (valid (MmapSource_open (Some m))) with true
    by (cbn; destruct (length m); [lia | reflexivity]).
  cbn [andb]. unfold Reader.parse_header. cbn [Reader.end_ Reader.current_ MmapSource_open size].
  destruct (Nat.leb_spec (length m) 0); [lia|].
  destruct (track_line EP);
    cbn [Reader.bump_line Reader.set_header Reader.source_ Reader.current_ Reader.end_
         Reader.column_names_ Reader.header_parsed_ Reader.line_number_ data
         MmapSource_open];
    rewrite Nat.sub_0_r, Heff, Hnext;
    (split; [intros i Hi; rewrite (Hnames i) by lia; rewrite Nat.sub_0_r; reflexivity|]);
    repeat split.
Qed.
End HeaderRoundTrip.

(** X18.  Header round trip.  A header line of plain names (no delimiter,
    LF or CR inside a name) joined by the delimiter and ended by LF or
    CR LF (or by nothing or a lone CR when nothing follows) is read back
    by both constructors: column [i] below N carries the bytes of the
    [i]-th written name, a column for which no name was written is empty,
    names beyond the N-th are dropped, the cursor is left just after the
    line terminator, the header flag is set and one line is counted when
    lines are tracked. *)
Theorem header_names_are_read_back
        (arch : Simd) (Columns : nat) (Delim : ascii) (EP : ErrorPolicy)
        (hdr : list (list ascii)) (t rest : list ascii) (K : nat) :
  Delim <> LF -> Delim <> CR ->
  Forall (plain Delim) hdr ->
  t = [LF] \/ t = [CR; LF] \/ (rest = [] /\ (t = [] \/ t = [CR])) ->
  join Delim hdr ++ t ++ rest <> [] ->
  let m := join Delim hdr ++ t ++ rest in
  let r := Reader.new arch Columns Delim EP (Some m) true in
  let p := ParallelReader.new arch Columns Delim (Some m) K true in
  (forall i, option_map (sv_bytes m) (Reader.column_name Columns r i)
             = Some (if i <? Columns then nth i hdr [] else []))
  /\ map (sv_bytes m) (ParallelReader.column_names_ p)
     = map (fun i => nth i hdr []) (seq 0 Columns)
  /\ Reader.current_ r = length (join Delim hdr) + length t
  /\ ParallelReader.data_ p = length (join Delim hdr) + length t
  /\ Reader.end_ r = length m
  /\ Reader.header_parsed_ r = true
  /\ Reader.line_number_ r = (if track_line EP then 1 else 0)%Z.
Proof.
  intros HLF HCR Hpl Ht Hne m r p.
  destruct (@new_reads_header arch Columns Delim HLF HCR EP hdr t rest Hpl Ht Hne)
    as (Hnames & Hcur & Hend & Hh & Hl).
  fold m in Hnames, Hcur, Hend, Hh, Hl. fold r in Hnames, Hcur, Hend, Hh, Hl.
  pose proof (new_names_length arch Columns Delim EP (Some m) true) as Hlen. fold r in Hlen.
  destruct (new_headers_same_bytes arch Columns Delim EP (Some m) K true)
    as (Hsame & _ & Hdata & _).
  fold r p in Hsame, Hdata.
  assert (Hsrc : data (Reader.source_ r) = m).
  { unfold r, Reader.new, Reader.parse_header.
    destruct (true && valid (MmapSource_open (Some m))); [|reflexivity].
    cbn [Reader.end_ Reader.current_].
    destruct (size (MmapSource_open (Some m)) <=? 0); [reflexivity|].
    destruct (track_line EP); reflexivity. }
  rewrite Hsrc in Hsame.
  split; [|split; [|split; [|split; [|split; [|split]]]]]; try assumption.
  - intros i. unfold Reader.column_name.
    destruct (Nat.ltb_spec i Columns) as [Hi|]; [|reflexivity].
    rewrite (nth_error_nth' _ sv_empty) by lia. cbn [option_map]. f_equal.
    apply Hnames, Hi.
  - rewrite Hsame. apply (nth_ext _ _ [] []).
    + rewrite !length_map, length_seq. exact Hlen.
    + intros i Hi. rewrite length_map, Hlen in Hi.
      rewrite nth_map_seq by exact Hi.
      change (@nil ascii) with (sv_bytes m sv_empty) at 1. rewrite map_nth.
      apply Hnames, Hi.
  - rewrite Hdata. exact Hcur.
Qed.

Lemma header_names_are_read_back_witness :
  let m := str "id;name;" ++ [CR; LF] ++ str "1;x;y" in
  map (fun i => option_map (sv_bytes m)
                  (Reader.column_name 4 (Reader.new NEON 4 ";" SafePolicy (Some m) true) i))
      [0; 1; 2; 3; 4]
  = [Some (str "id"); Some (str "name"); Some []; Some []; Some []].
Proof.
  cbv zeta. cbn [map].
  rewrite !(proj1 (@header_names_are_read_back NEON 4 ";" SafePolicy
                     [str "id"; str "name"; str ""] [CR; LF] (str "1;x;y") 1
                     ltac:(discriminate) ltac:(discriminate)
                     ltac:(repeat constructor; discriminate)
                     ltac:(tauto) ltac:(discriminate))).
  reflexivity.
Defined.

(** ** The fast path for floating point *)

Lemma dec_fold_mod (ds : list ascii) : forall a b : Z,
  (a mod 2 ^ 64 = b mod 2 ^ 64)%Z ->
  (fold_left (fun a c => a * 10 + digit_val c) ds a mod 2 ^ 64
   = fold_left (fun a c => a * 10 + digit_val c) ds b mod 2 ^ 64)%Z.
Proof.
  induction ds as [|d ds IH]; intros a b H; cbn [fold_left]; [exact H|].
  apply IH. rewrite (Z.add_mod (a * 10)), (Z.add_mod (b * 10)) by lia.
  rewrite (Z.mul_mod a), (Z.mul_mod b), H by lia. reflexivity.
Qed.

Lemma int_part_run_slice (m : mem) (s : list ascii) :
  forall p e acc, p <= e -> e <= length m -> slice m p e = s ->
  (0 <= acc < 2 ^ 64)%Z ->
  Field.int_part_run m (e - p) p acc =
  (p + length (fst (span_digits s)),
   (fold_left (fun a c => a * 10 + digit_val c)%Z (fst (span_digits s)) acc mod 2 ^ 64)%Z).
Proof.
  induction s as [|c s IH]; intros p e acc Hpe He Hs Hacc.
  - assert (p = e).
    { apply (f_equal (@length ascii)) in Hs. rewrite slice_length in Hs by assumption.
      cbn in Hs. lia. }
    subst. rewrite Nat.sub_diag. cbn. rewrite Nat.add_0_r, Z.mod_small by exact Hacc.
    reflexivity.
  - destruct (slice_uncons m Hpe He Hs) as (Hlt & Hc & Hs').
    replace (e - p) with (S (e - S p)) by lia. cbn [Field.int_part_run span_digits].
    rewrite Hc. destruct (is_digit c) eqn:Ed.
    + rewrite (IH (S p) e) by (try lia; try assumption; apply Z.mod_pos_bound; lia).
      destruct (span_digits s) as [ds rest]. cbn [fst length fold_left]. f_equal; [lia|].
      apply dec_fold_mod. apply Z.mod_mod. lia.
    + cbn [fst length fold_left]. rewrite Nat.add_0_r, Z.mod_small by exact Hacc.
      reflexivity.
Qed.

Lemma frac_run_slice (m : mem) (s : list ascii) :
  forall p e acc, p <= e -> e <= length m -> slice m p e = s ->
  Field.frac_run m (e - p) p acc =
  (p + length (fst (span_digits s)), acc ++ map digit_val (fst (span_digits s))).
Proof.
  induction s as [|c s IH]; intros p e acc Hpe He Hs.
  - assert (p = e).
    { apply (f_equal (@length ascii)) in Hs. rewrite slice_length in Hs by assumption.
      cbn in Hs. lia. }
    subst. rewrite Nat.sub_diag. cbn. rewrite Nat.add_0_r, app_nil_r. reflexivity.
  - destruct (slice_uncons m Hpe He Hs) as (Hlt & Hc & Hs').
    replace (e - p) with (S (e - S p)) by lia. cbn [Field.frac_run span_digits].
    rewrite Hc. destruct (is_digit c) eqn:Ed.
    + rewrite (IH (S p) e) by (try lia; assumption).
      destruct (span_digits s) as [ds rest]. cbn [fst length map].
      rewrite <- app_assoc. f_equal. lia.
    + cbn [fst length map]. rewrite Nat.add_0_r, app_nil_r. reflexivity.
Qed.

Lemma slice_tail (m : mem) (p e k : nat) (a r : list ascii) :
  p <= e -> e <= length m -> slice m p e = a ++ r -> k = length a ->
  p + k <= e /\ slice m (p + k) e = r.
Proof.
  intros Hpe He Hs ->.
  assert (Hlen : e - p = length a + length r).
  { rewrite <- (slice_length m Hpe He), Hs. apply length_app. }
  split; [lia|].
  replace e with (p + length a + length r) at 1 by lia.
  rewrite (@slice_sub m p e (length a) (length r)) by lia.
  rewrite Hs, skipn_app, skipn_all, Nat.sub_diag. cbn [skipn app]. apply firstn_all.
Qed.

Lemma position_at_end (m : mem) (p e : nat) (a r : list ascii) :
  p <= e -> e <= length m -> slice m p e = a ++ r ->
  (p + length a =? e) = is_nil r.
Proof.
  intros Hpe He Hs.
  assert (Hlen : e - p = length a + length r).
  { rewrite <- (slice_length m Hpe He), Hs. apply length_app. }
  destruct r; cbn [is_nil length] in *; [apply Nat.eqb_eq | apply Nat.eqb_neq]; lia.
Qed.

(** What [parse_double_fast] returns, read off the bytes of the field. *)
Lemma parse_double_fast_cases (m : mem) (f : FieldRef) :
  begin_ f <= end_ f -> end_ f <= length m ->
  let s := Field.view m f in
  let neg := match s with c :: _ => Ascii.eqb c "-" | [] => false end in
  let sgn := match s with c :: _ => Ascii.eqb c "-" || Ascii.eqb c "+" | [] => false end in
  let body := if sgn then tl s else s in
  let ds := fst (span_digits body) in
  let r1 := snd (span_digits body) in
  Field.parse_double_fast m f =
  match body with
  | [] => (false, None)
  | _ :: _ =>
      match r1 with
      | [] => (true, Some {| Field.fv_negative := neg;
                             Field.fv_int_part := (dec_value ds mod 2 ^ 64)%Z;
                             Field.fv_frac := None |})
      | c :: r =>
          if Ascii.eqb c "."
          then (is_nil (snd (span_digits r)),
                Some {| Field.fv_negative := neg;
                        Field.fv_int_part := (dec_value ds mod 2 ^ 64)%Z;
                        Field.fv_frac := Some (map digit_val (fst (span_digits r))) |})
          else (false, Some {| Field.fv_negative := neg;
                               Field.fv_int_part := (dec_value ds mod 2 ^ 64)%Z;
                               Field.fv_frac := None |})
      end
  end.
Proof.
  destruct f as [b e]. unfold Field.view. cbn [begin_ end_]. intros Hbe He. cbv zeta.
  unfold Field.parse_double_fast. cbn [begin_ end_].
  destruct (slice m b e) as [|c s'] eqn:Hs.
  - assert (b = e).
    { apply (f_equal (@length ascii)) in Hs. rewrite slice_length in Hs by assumption.
      cbn in Hs. lia. }
    subst. rewrite Nat.leb_refl. reflexivity.
  - destruct (slice_uncons m Hbe He Hs) as (Hlt & Hc & Hs').
    destruct (Nat.leb_spec e b); [lia|]. rewrite Hc.
    set (p1 := if Ascii.eqb c "-" then S b else if Ascii.eqb c "+" then S b else b).
    set (body := if Ascii.eqb c "-" || Ascii.eqb c "+" then tl (c :: s') else c :: s').
    assert (Hbody : p1 <= e /\ slice m p1 e = body).
    { unfold p1, body. destruct (Ascii.eqb c "-"), (Ascii.eqb c "+"); cbn [orb tl];
        (split; [lia | assumption]). }
    destruct Hbody as [Hp1 Hbody]. clearbody p1 body.
    destruct body as [|c0 body'] eqn:Eb.
    { assert (p1 = e).
      { apply (f_equal (@length ascii)) in Hbody. rewrite slice_length in Hbody by assumption.
        cbn in Hbody. lia. }
      subst. rewrite Nat.leb_refl. reflexivity. }
    assert (Hne : c0 :: body' <> []) by discriminate.
    rewrite <- Eb in *. clear Eb.
    assert (p1 < e).
    { apply (f_equal (@length ascii)) in Hbody. rewrite slice_length in Hbody by assumption.
      destruct body; [congruence | cbn in Hbody; lia]. }
    destruct (Nat.leb_spec e p1); [lia|].
    rewrite (@int_part_run_slice m body p1 e 0 Hp1 He Hbody) by lia.
    fold (dec_value (fst (span_digits body))).
    pose proof (span_digits_app body) as Happ.
    destruct (span_digits body) as [ds r1]. cbn [fst snd] in *.
    rewrite Happ in Hbody.
    destruct (@slice_tail m p1 e (length ds) ds r1 Hp1 He Hbody eq_refl) as [Hp2 Hr1].
    destruct body as [|? ?]; [congruence|].
    destruct r1 as [|c1 r].
    + assert (Hend : p1 + length ds = e).
      { apply (f_equal (@length ascii)) in Hr1. rewrite slice_length in Hr1 by assumption.
        cbn in Hr1. lia. }
      rewrite Hend, Nat.ltb_irrefl. cbn [andb]. rewrite Nat.eqb_refl. reflexivity.
    + destruct (slice_uncons m Hp2 He Hr1) as (Hlt2 & Hc1 & Hr).
      destruct (Nat.ltb_spec (p1 + length ds) e); [|lia]. rewrite Hc1. cbn [andb].
      destruct (Ascii.eqb c1 ".").
      * rewrite (@frac_run_slice m r (S (p1 + length ds)) e [] ltac:(lia) He Hr).
        cbn [app]. f_equal.
        pose proof (span_digits_app r) as Happ'. rewrite Happ' in Hr.
        apply (@position_at_end m (S (p1 + length ds)) e _ _ ltac:(lia) He Hr).
      * destruct (Nat.eqb_spec (p1 + length ds) e); [lia | reflexivity].
Qed.

(** X19.  [parse_double_fast] accepts exactly the slices made of an
    optional '+' or '-', decimal digits, and optionally a point followed
    by decimal digits, with at least one byte after the sign (so "." and
    "-." are accepted, "", "+" and an exponent are not).  On such a slice
    the sign flag is set by '-' only, the fraction is made of the digits
    after the point, and the integer part is the value of the digits
    before the point reduced modulo 2^64: it is accumulated in a
    [uint64_t] without a range test, so a digit string of 2^64 or more is
    accepted with a wrapped integer part. *)
Theorem parse_double_fast_grammar (m : mem) (f : FieldRef) :
  begin_ f <= end_ f -> end_ f <= length m ->
  (forall v,
      Field.parse_double_fast m f = (true, Some v) <->
      exists ds frac,
        fast_form (Field.view m f) (Field.fv_negative v) ds frac
        /\ Field.fv_int_part v = (dec_value ds mod 2 ^ 64)%Z
        /\ Field.fv_frac v = option_map (map digit_val) frac)
  /\ (fst (Field.parse_double_fast m f) = true ->
      exists v, Field.parse_double_fast m f = (true, Some v)).
Proof.
  intros Hbe He. pose proof (@parse_double_fast_cases m f Hbe He) as Hc. cbv zeta in Hc.
  set (s := Field.view m f) in *. clearbody s.
  split.
  - intros v. split.
    + (* what an accepted slice looks like *)
      rewrite Hc. clear Hc.
      destruct s as [|c s']; [discriminate|].
      set (sgn := Ascii.eqb c "-" || Ascii.eqb c "+").
      set (body := if sgn then tl (c :: s') else c :: s').
      assert (Hsign : exists sign,
                 c :: s' = sign ++ body
                 /\ ((sign = [] /\ Ascii.eqb c "-" = false)
                     \/ (sign = ["+"%char] /\ Ascii.eqb c "-" = false)
                     \/ (sign = ["-"%char] /\ Ascii.eqb c "-" = true))).
      { unfold body, sgn.
        destruct (Ascii.eqb_spec c "-") as [-> | Hm]; cbn [orb tl].
        - exists ["-"%char]. auto.
        - destruct (Ascii.eqb_spec c "+") as [-> | Hp]; cbn [tl].
          + exists ["+"%char]. auto.
          + exists []. auto. }
      destruct Hsign as (sign & Hs & Hsign). clearbody body.
      pose proof (span_digits_app body) as Happ.
      pose proof (span_digits_fst body) as Hds.
      destruct (span_digits body) as [ds r1]. cbn [fst snd] in *.
      destruct body as [|c0 body']; [discriminate|].
      destruct r1 as [|c1 r].
      * intros H. inversion H; subst v. cbn [Field.fv_negative Field.fv_int_part Field.fv_frac].
        exists ds, None. split; [|split; reflexivity].
        exists sign. rewrite app_nil_r in *. rewrite Hs, Happ.
        split; [reflexivity|]. split; [|split; [exact Hds|]].
        -- exact Hsign.
        -- intros ->. discriminate.
      * destruct (Ascii.eqb_spec c1 ".") as [-> |]; [|discriminate].
        pose proof (span_digits_app r) as Happ'.
        pose proof (span_digits_fst r) as Hfs.
        destruct (span_digits r) as [fs r2]. cbn [fst snd] in *.
        destruct r2; [|discriminate]. rewrite app_nil_r in Happ'. subst r.
        intros H. inversion H; subst v. cbn [Field.fv_negative Field.fv_int_part Field.fv_frac].
        exists ds, (Some fs). split; [|split; reflexivity].
        exists sign. rewrite Hs, Happ.
        split; [reflexivity|]. split; [exact Hsign|]. split; [exact Hds | exact Hfs].
    + (* such a slice is accepted *)
      intros (ds & frac & (sign & Hs & Hsign & Hds & Hfrac) & Hint & Hfr).
      set (tail := match frac with Some fs => "."%char :: fs | None => [] end) in *.
      assert (Hbody : ds ++ tail <> []).
      { unfold tail. destruct frac; [destruct ds; discriminate|].
        rewrite app_nil_r. exact Hfrac. }
      assert (Hhead : match ds ++ tail with
                      | c :: _ => Ascii.eqb c "-" = false /\ Ascii.eqb c "+" = false
                      | [] => True
                      end).
      { destruct ds as [|d ds]; cbn [app].
        - unfold tail. destruct frac; [split; reflexivity | exact I].
        - inversion Hds; subst.
          destruct (Ascii.eqb_spec d "-") as [-> |]; [discriminate|].
          destruct (Ascii.eqb_spec d "+") as [-> |]; [discriminate | split; reflexivity]. }
      assert (Hspan : span_digits (ds ++ tail) = (ds, tail)).
      { apply span_digits_unique; [exact Hds|]. unfold tail. destruct frac; [reflexivity | exact I]. }
      assert (Hcases :
                match s with c :: _ => Ascii.eqb c "-" | [] => false end = Field.fv_negative v
                /\ (if match s with
                       | c :: _ => Ascii.eqb c "-" || Ascii.eqb c "+"
                       | [] => false
                       end then tl s else s) = ds ++ tail).
      { rewrite Hs.
        destruct Hsign as [[-> Hn] | [[-> Hn] | [-> Hn]]]; rewrite Hn; cbn [app];
          try (split; reflexivity).
        revert Hhead Hbody. destruct (ds ++ tail) as [|c l]; [congruence|].
        intros [-> ->] _. split; reflexivity. }
      destruct Hcases as [Hneg Hb]. rewrite Hc, Hneg, Hb, Hspan. cbn [fst snd].
      destruct (ds ++ tail) as [|c0 l]; [congruence|].
      destruct v as [vn vi vf]. cbn [Field.fv_negative Field.fv_int_part Field.fv_frac] in *.
      subst vi vf. unfold tail. destruct frac as [fs|]; cbn [option_map].
      * rewrite Ascii.eqb_refl.
        assert (Hsp : span_digits fs = (fs, [])).
        { rewrite <- (app_nil_r fs) at 1. apply span_digits_unique; [exact Hfrac | exact I]. }
        rewrite Hsp. reflexivity.
      * reflexivity.
  - rewrite Hc. clear Hc.
    destruct (if match s with
                 | c :: _ => Ascii.eqb c "-" || Ascii.eqb c "+"
                 | [] => false
                 end then tl s else s) as [|c0 body'] eqn:Eb; [discriminate|].
    destruct (snd (span_digits (c0 :: body'))) as [|c1 r]; [eauto|].
    destruct (Ascii.eqb c1 "."); [|discriminate].
    cbn [fst]. intros ->. eauto.
Qed.

Lemma parse_double_fast_grammar_witness :
  Field.parse_double_fast (str "x,18446744073709551617,-.") {| begin_ := 2; end_ := 22 |}
  = (true, Some {| Field.fv_negative := false; Field.fv_int_part := 1;
                   Field.fv_frac := None |})
  /\ Field.parse_double_fast (str "x,18446744073709551617,-.") {| begin_ := 23; end_ := 25 |}
     = (true, Some {| Field.fv_negative := true; Field.fv_int_part := 0;
                      Field.fv_frac := Some [] |}).
Proof.
  split.
  - apply (proj1 (@parse_double_fast_grammar (str "x,18446744073709551617,-.")
                    {| begin_ := 2; end_ := 22 |} ltac:(simpl; lia) ltac:(simpl; lia))).
    exists (str "18446744073709551617"), None. split; [|split; reflexivity].
    exists []. split; [reflexivity|]. split; [auto|]. split; [repeat constructor | discriminate].
  - apply (proj1 (@parse_double_fast_grammar (str "x,18446744073709551617,-.")
                    {| begin_ := 23; end_ := 25 |} ltac:(simpl; lia) ltac:(simpl; lia))).
    exists [], (Some []). split; [|split; reflexivity].
    exists ["-"%char]. split; [reflexivity|]. split; [auto|]. split; constructor.
Defined.

(** ** A whole table *)



(** ** Files that cannot be read *)

(** X21.  A reader constructed over a file that cannot be opened or is
    empty holds no data: whatever [skip_header] is, no header is parsed,
    every column name is empty, each iteration call returns 0 without
    invoking its callback and leaves the reader as it is, no error is
    recorded, and [for_each_parallel] returns 0 without starting a
    worker. *)
Theorem unreadable_file_yields_nothing
        (arch : Simd) (Columns : nat) (Delim : ascii) (EP : ErrorPolicy)
        (indet_starts indet_ends : nat -> nat) (U : Type)
        (cb_raw : U -> list nat -> list nat -> U) (cb : U -> list FieldRef -> U)
        (cb_until : U -> list FieldRef -> U * bool) (u : U)
        (file : option (list ascii)) (skip_header : bool) (K : nat) :
  file = None \/ file = Some [] ->
  let r := Reader.new arch Columns Delim EP file skip_header in
  Reader.header_parsed_ r = false
  /\ (forall i, Reader.column_name Columns r i = Some sv_empty)
  /\ Reader.has_error EP r = false
  /\ Reader.for_each_raw arch Columns Delim EP indet_starts indet_ends cb_raw r u
     = Some (0, r, u)
  /\ Reader.for_each arch Columns Delim EP indet_starts indet_ends cb r u = Some (0, r, u)
  /\ Reader.for_each_until arch Columns Delim EP indet_starts indet_ends cb_until r u
     = Some (0, r, u)
  /\ ParallelReader.for_each_parallel arch Columns Delim indet_starts indet_ends
       (ParallelReader.new arch Columns Delim file K skip_header)
     = Some {| ParallelReader.total := 0; ParallelReader.counts := [];
               ParallelReader.delivered := [] |}.
Proof.
  intros Hfile r.
  assert (Hr : r = {| Reader.source_ := {| data := []; size := 0; valid := false |};
                      Reader.current_ := 0; Reader.end_ := 0;
                      Reader.column_names_ := repeat sv_empty Columns;
                      Reader.header_parsed_ := false;
                      Reader.last_error_ := ErrorInfo_default;
                      Reader.line_number_ := 0 |}).
  { unfold r, Reader.new. destruct Hfile as [-> | ->]; cbn; rewrite andb_false_r; reflexivity. }
  split; [rewrite Hr; reflexivity|].
  split.
  { intros i. rewrite Hr. unfold Reader.column_name. cbn [Reader.column_names_].
    destruct (Nat.ltb_spec i Columns); [|reflexivity].
    rewrite (nth_error_nth' _ sv_empty) by (rewrite repeat_length; exact H).
    f_equal. destruct (nth_in_or_default i (repeat sv_empty Columns) sv_empty) as [Hin | ->];
      [apply repeat_spec in Hin; exact Hin | reflexivity]. }
  split; [rewrite Hr; unfold Reader.has_error; destruct (enabled EP); reflexivity|].
  destruct (@exhausted_calls arch Columns Delim EP indet_starts indet_ends U r u
              cb_raw cb cb_until) as (H1 & H2 & H3); [rewrite Hr; cbn; lia|].
  split; [exact H1|]. split; [exact H2|]. split; [exact H3|].
  unfold ParallelReader.new, ParallelReader.for_each_parallel.
  destruct Hfile as [-> | ->]; cbn; rewrite andb_false_r; reflexivity.
Qed.

Lemma unreadable_file_yields_nothing_witness :
  Reader.for_each Scalar 3 "," SafePolicy (fun _ => 0) (fun _ => 0) log_fields
                  (Reader.new Scalar 3 "," SafePolicy None true) []
  = Some (0, Reader.new Scalar 3 "," SafePolicy None true, []).
Proof.
  exact (proj1 (proj2 (proj2 (proj2 (proj2
    (@unreadable_file_yields_nothing Scalar 3 "," SafePolicy (fun _ => 0) (fun _ => 0) _
       (fun u _ _ => u) log_fields (log_until 1) [] None true 4 ltac:(auto))))))).
Defined.

(** ** When an error is reported *)

Section ErrorReport.
Variable arch : Simd.
Variable Columns : nat.
Variable Delim : ascii.
Variable EP : ErrorPolicy.
Hypothesis checked : enabled EP = true.
Variable U : Type.
Variable cb : U -> list nat -> list nat -> U.

Lemma raw_body_error (st : Reader.loop_state U) :
  length (Reader.ls_starts st) = Columns ->
  length (Reader.ls_ends st) = Columns ->
  let r := Reader.ls_reader st in
  let rs0 := scan_row arch Columns Delim (data (Reader.source_ r))
                      (Reader.current_ r) (Reader.end_ r)
                      (repeat 0 Columns) (repeat 0 Columns) in
  let st1 := fst (Reader.for_each_raw_body arch Columns Delim EP cb st) in
  length (Reader.ls_starts st1) = Columns
  /\ length (Reader.ls_ends st1) = Columns
  /\ Reader.current_ (Reader.ls_reader st1) = rs_current rs0
  /\ match rs_col rs0 with
     | Some col =>
         if col =? Columns
         then Reader.last_error_ (Reader.ls_reader st1) = Reader.last_error_ r
         else code (Reader.last_error_ (Reader.ls_reader st1)) = ColumnCountMismatch
     | None => Reader.last_error_ (Reader.ls_reader st1) = Reader.last_error_ r
     end.
Proof.
  intros Ls Le.
  destruct (@scan_row_agree arch Columns Delim
              (data (Reader.source_ (Reader.ls_reader st)))
              (Reader.current_ (Reader.ls_reader st)) (Reader.end_ (Reader.ls_reader st))
              _ _ (repeat 0 Columns) (repeat 0 Columns) Ls Le
              (repeat_length 0 Columns) (repeat_length 0 Columns))
    as (Hcur & Hcol & L1 & L2 & _).
  cbv zeta in *. rewrite <- Hcol, <- Hcur.
  unfold Reader.for_each_raw_body. rewrite checked.
  destruct (track_line EP);
    cbn [Reader.bump_line Reader.source_ Reader.current_ Reader.end_] in *;
    (destruct (rs_col _) as [col|]; [destruct (col =? Columns)|]);
    cbn; auto.
Qed.

Lemma mismatch_stays (fuel : nat) (st st' : Reader.loop_state U) :
  code (Reader.last_error_ (Reader.ls_reader st)) = ColumnCountMismatch ->
  while_loop (@Reader.running U) (Reader.for_each_raw_body arch Columns Delim EP cb) fuel st
  = Some st' ->
  code (Reader.last_error_ (Reader.ls_reader st')) = ColumnCountMismatch.
Proof.
  intros Hc Hw.
  apply (@while_loop_invariant _ (@Reader.running U)
           (Reader.for_each_raw_body arch Columns Delim EP cb)
           (fun s => code (Reader.last_error_ (Reader.ls_reader s)) = ColumnCountMismatch))
    with (3 := Hw); [|exact Hc].
  intros s Hs Hrun.
  destruct (@for_each_raw_body_kept arch Columns Delim EP U cb (Reader.ls_reader s) s
              (kept_by_iteration_refl EP _) Hrun) as (_ & _ & _ & _ & _ & _ & [-> | (_ & H & _)]);
    assumption.
Qed.

Lemma raw_loop_error (e : nat) (src : MmapSource) :
  forall fuel (st st' : Reader.loop_state U),
  Reader.source_ (Reader.ls_reader st) = src ->
  Reader.end_ (Reader.ls_reader st) = e ->
  length (Reader.ls_starts st) = Columns ->
  length (Reader.ls_ends st) = Columns ->
  while_loop (@Reader.running U) (Reader.for_each_raw_body arch Columns Delim EP cb) fuel st
  = Some st' ->
  if full_rows arch Columns Delim (data src) fuel (Reader.current_ (Reader.ls_reader st)) e
  then Reader.last_error_ (Reader.ls_reader st') = Reader.last_error_ (Reader.ls_reader st)
  else code (Reader.last_error_ (Reader.ls_reader st')) = ColumnCountMismatch.
Proof.
  induction fuel as [|fuel IH]; intros st st' Hs He Ls Le Hw.
  - cbn [full_rows]. cbn [while_loop] in Hw.
    destruct (Reader.running st); [discriminate|]. inversion Hw. reflexivity.
  - cbn [full_rows].
    destruct (Nat.ltb_spec (Reader.current_ (Reader.ls_reader st)) e) as [Hlt | Hge].
    + rewrite while_loop_step in Hw by (unfold Reader.running; apply Nat.ltb_lt; lia).
      destruct (for_each_raw_body_frame arch Columns Delim EP cb st) as ((Fs & Fe & _) & Hb).
      rewrite Hb in Hw.
      destruct (raw_body_error st Ls Le) as (L1 & L2 & Hc & Herr). cbv zeta in Hc, Herr.
      rewrite Hs, He in *.
      specialize (IH _ st' Fs Fe L1 L2 Hw). rewrite Hc in IH.
      destruct (rs_col _) as [col|].
      * destruct (col =? Columns); cbn [andb].
        -- destruct (full_rows _ _ _ _ _ _ _); [rewrite IH; exact Herr | exact IH].
        -- exact (mismatch_stays _ _ Herr Hw).
      * destruct (full_rows _ _ _ _ _ _ _); [rewrite IH; exact Herr | exact IH].
    + rewrite while_loop_stop in Hw by (unfold Reader.running; apply Nat.ltb_ge; lia).
      inversion Hw. reflexivity.
Qed.
End ErrorReport.

Lemma for_each_raw_error_cases
      (arch : Simd) (Columns : nat) (Delim : ascii) (EP : ErrorPolicy)
      (indet_starts indet_ends : nat -> nat) (U : Type)
      (cb_raw : U -> list nat -> list nat -> U)
      (r r' : Reader.t) (u u' : U) (n : nat) :
  enabled EP = true ->
  Reader.for_each_raw arch Columns Delim EP indet_starts indet_ends cb_raw r u
  = Some (n, r', u') ->
  if all_rows_full arch Columns Delim (data (Reader.source_ r))
                   (Reader.current_ r) (Reader.end_ r)
  then Reader.last_error_ r' = Reader.last_error_ r
  else code (Reader.last_error_ r') = ColumnCountMismatch
       /\ Reader.has_error EP r' = true.
Proof.
  intros Hen. unfold Reader.for_each_raw.
  destruct (while_loop _ _ _ _) as [st'|] eqn:Ew; [|cbn; discriminate].
  cbn [option_map]. unfold Reader.result. intros H; inversion H; subst.
  pose proof (@raw_loop_error arch Columns Delim EP Hen U cb_raw (Reader.end_ r)
                (Reader.source_ r) _
                (Reader.initial Columns indet_starts indet_ends r u) st' eq_refl eq_refl
                (uninitialized_length Columns indet_starts)
                (uninitialized_length Columns indet_ends) Ew) as Hl.
  cbn [Reader.initial Reader.ls_reader] in Hl. unfold all_rows_full.
  destruct (full_rows _ _ _ _ _ _ _); [exact Hl|].
  split; [exact Hl|]. unfold Reader.has_error. rewrite Hen, Hl. reflexivity.
Qed.

(** X22.  When [for_each_raw] (hence [for_each]) reports an error.  Under
    an enabled policy, a call over a range in which the field scan of
    every line that is not empty counts N fields leaves the recorded error
    as it was; a call over any other range leaves a ColumnCountMismatch, so
    that [has_error()] is true afterwards: a line on which the scan counts
    another number of fields is always reported, whatever rows follow
    it. *)
Theorem for_each_raw_reports_mismatch
        (arch : Simd) (Columns : nat) (Delim : ascii) (EP : ErrorPolicy)
        (indet_starts indet_ends : nat -> nat) (U : Type)
        (cb_raw : U -> list nat -> list nat -> U)
        (r r' : Reader.t) (u u' : U) (n : nat) :
  enabled EP = true ->
  Reader.for_each_raw arch Columns Delim EP indet_starts indet_ends cb_raw r u
  = Some (n, r', u') ->
  if all_rows_full arch Columns Delim (data (Reader.source_ r))
                   (Reader.current_ r) (Reader.end_ r)
  then Reader.last_error_ r' = Reader.last_error_ r
  else code (Reader.last_error_ r') = ColumnCountMismatch
       /\ Reader.has_error EP r' = true.
Proof.
  exact (@for_each_raw_error_cases arch Columns Delim EP indet_starts indet_ends U cb_raw
           r r' u u' n).
Qed.

Lemma for_each_raw_reports_mismatch_witness :
  exists r',
    Reader.for_each_raw NEON 3 "," CheckedPolicy (fun _ => 0) (fun _ => 0) log_raw
      (Reader.new NEON 3 "," CheckedPolicy (Some scenario_S3) true) []
    = Some (2, r', [([6; 8; 10], [7; 9; 11]); ([16; 18; 20], [17; 19; 21])])
    /\ code (Reader.last_error_ r') = ColumnCountMismatch
    /\ Reader.has_error CheckedPolicy r' = true.
Proof.
  destruct (for_each_raw_total NEON 3 "," CheckedPolicy (fun _ => 0) (fun _ => 0) log_raw
              (Reader.new NEON 3 "," CheckedPolicy (Some scenario_S3) true) [])
    as (n & r' & u' & E).
  exists r'.
  pose proof (@for_each_raw_reports_mismatch NEON 3 "," CheckedPolicy (fun _ => 0) (fun _ => 0)
                _ log_raw _ r' [] u' n eq_refl E) as H.
  split; [|exact H].
  rewrite E. f_equal.
  assert (Hv : Reader.for_each_raw NEON 3 "," CheckedPolicy (fun _ => 0) (fun _ => 0) log_raw
                 (Reader.new NEON 3 "," CheckedPolicy (Some scenario_S3) true) []
               = Some (n, r', u')) by exact E.
  vm_compute in Hv. inversion Hv. reflexivity.
Defined.

(** ** The null presets *)

(** X23.  The other null presets.  On a slice inside the mapping,
    [NullStrict] accepts the empty slice only, [NoNullCheck] accepts
    nothing, and [NullLenient] accepts exactly the empty slice, NA, N/A,
    n/a, null, NULL, None, none, NONE and "-"; whatever any policy
    accepts, [NullLenient] accepts. *)
Theorem null_presets (P : NullPolicy) (m : mem) (f : FieldRef) :
  begin_ f <= end_ f -> end_ f <= length m ->
  (Field.is_null NullStrict m f = true <-> Field.view m f = [])
  /\ Field.is_null NoNullCheck m f = false
  /\ (Field.is_null NullLenient m f = true <->
      In (Field.view m f)
         [str ""; str "NA"; str "N/A"; str "n/a"; str "null"; str "NULL";
          str "None"; str "none"; str "NONE"; str "-"])
  /\ (Field.is_null P m f = true -> Field.is_null NullLenient m f = true).
Proof.
  intros Hbe He. unfold Field.is_null, Field.view.
  pose proof (fun Q => @check_iff_vocabulary Q m (begin_ f) (end_ f) Hbe He) as Hv.
  split; [|split; [|split]].
  - rewrite (Hv NullStrict). cbn. intuition.
  - destruct (NullPolicy.check NoNullCheck m (begin_ f) (end_ f)) eqn:E; [|reflexivity].
    apply (Hv NoNullCheck) in E. destruct E.
  - rewrite (Hv NullLenient). reflexivity.
  - rewrite (Hv P), (Hv NullLenient), !vocabulary_In. cbn [NullLenient empty_is_null
      na_is_null null_is_null none_is_null dash_is_null]. tauto.
Qed.

Lemma null_presets_witness :
  Field.is_null NullStrict (str "a,,-") {| begin_ := 2; end_ := 2 |} = true
  /\ Field.is_null NoNullCheck (str "a,,-") {| begin_ := 2; end_ := 2 |} = false.
Proof.
  destruct (@null_presets NullStandard (str "a,,-") {| begin_ := 2; end_ := 2 |}
              ltac:(simpl; lia) ltac:(simpl; lia)) as (H1 & H2 & _).
  split; [apply H1; reflexivity | exact H2].
Defined.

(** ** Rows with fewer or more fields than expected *)

Section AnyLength.
Variable arch : Simd.
Variable Columns : nat.
Variable Delim : ascii.
Hypothesis delim_not_LF : Delim <> LF.
Hypothesis delim_not_CR : Delim <> CR.

End AnyLength.

Section AnyLengthRows.
Variable arch : Simd.
Variable Columns : nat.
Variable Delim : ascii.
Hypothesis delim_not_LF : Delim <> LF.
Hypothesis delim_not_CR : Delim <> CR.



End AnyLengthRows.



